(** * GenesisZ: the genesis-block header builder of [genesis.py]

    A shallow embedding of [genesis.py] and of the library calls it makes,
    with the properties of its nonce parser, timestamp builder, header
    builder and driver.

    Python values are modelled as follows.
    - [str] is a list of Unicode code points ([N]); [len], slicing, [+],
      [str.replace] and the regular-expression scans work on code points.
    - [bytes] is a list of [byte].
    - [int] is [Z].
    - Calls that reach outside the process (logging, the block explorer,
      the solver, the event loop, printing) append an [event] to the run's
      trace; what the outside answers is read from an environment [Env]
      that may depend on everything that happened before. *)

From Stdlib Require Import String Ascii DecimalString.
From Stdlib Require Import Strings.Byte.
From Stdlib Require Import List ZArith NArith Lia Bool.
From Equations Require Import Equations.
Import ListNotations.

Set Default Goal Selector "!".

Local Open Scope N_scope.

(** ** Python strings and bytes *)

Definition char := N.
Definition pystr := list char.
Definition bytes := list byte.

(** A string literal of the source, as code points. *)
Definition str (s : string) : pystr :=
  map N_of_ascii (list_ascii_of_string s).

Definition byte_of_N (n : N) : byte :=
  match Byte.of_N (n mod 256) with
  | Some b => b
  | None => x00
  end.

Definition byte_of_Z (z : Z) : byte := byte_of_N (Z.to_N (z mod 256)).

(** [a == b] on strings. *)
Definition str_eqb (a b : pystr) : bool :=
  if list_eq_dec N.eq_dec a b then true else false.

Definition nl : pystr := [10].

(** [s.startswith(p)] and [s.endswith(p)]. *)
Fixpoint startswith (p s : pystr) : bool :=
  match p, s with
  | [], _ => true
  | _ :: _, [] => false
  | a :: p', b :: s' => (a =? b) && startswith p' s'
  end.

Definition endswith (p s : pystr) : bool :=
  startswith (rev p) (rev s).

(** ['{:d}'.format(n)]: the decimal digits of [n], with a minus sign when
    [n] is negative. *)
Definition format_d (n : Z) : pystr :=
  str (NilZero.string_of_int (Z.to_int n)).

(** ** Hexadecimal: [binascii] and the helpers of [bitcoin.core] *)

Definition hexval (c : char) : option N :=
  if (48 <=? c) && (c <=? 57) then Some (c - 48)
  else if (97 <=? c) && (c <=? 102) then Some (c - 87)
  else if (65 <=? c) && (c <=? 70) then Some (c - 55)
  else None.

Definition is_hex (s : pystr) : bool :=
  forallb (fun c => match hexval c with Some _ => true | None => false end) s.

(** [binascii.unhexlify]: two hex digits per byte; an odd number of digits
    or a character that is no hex digit raises ([None]). *)
Fixpoint unhexlify (s : pystr) : option bytes :=
  match s with
  | [] => Some []
  | [_] => None
  | h :: l :: s' =>
      match hexval h, hexval l, unhexlify s' with
      | Some a, Some b, Some r => Some (byte_of_N (16 * a + b) :: r)
      | _, _, _ => None
      end
  end.

Definition hexdigit (n : N) : char :=
  if n <? 10 then 48 + n else 87 + n.

(** [binascii.hexlify], decoded to [str]: lowercase digits. *)
Definition hexlify (b : bytes) : pystr :=
  flat_map (fun x => [hexdigit (Byte.to_N x / 16); hexdigit (Byte.to_N x mod 16)]) b.

(** [x(h)], [lx(h)], [b2x(b)], [b2lx(b)] of [bitcoin.core]: [lx] and [b2lx]
    read and write the bytes in reversed (little-endian) order. *)
Definition x (h : pystr) : option bytes := unhexlify h.
Definition lx (h : pystr) : option bytes := option_map (@rev byte) (unhexlify h).
Definition b2x (b : bytes) : pystr := hexlify b.
Definition b2lx (b : bytes) : pystr := hexlify (rev b).

(** [s.encode('UTF-8')]: one to four bytes per code point; a surrogate
    (U+D800..U+DFFF) raises [UnicodeEncodeError] ([None]). *)
Definition utf8_char (c : char) : option bytes :=
  if c <? 0x80 then Some [byte_of_N c]
  else if c <? 0x800 then
    Some [byte_of_N (0xC0 + c / 64); byte_of_N (0x80 + c mod 64)]
  else if (0xD800 <=? c) && (c <=? 0xDFFF) then None
  else if c <? 0x10000 then
    Some [byte_of_N (0xE0 + c / 4096); byte_of_N (0x80 + (c / 64) mod 64);
          byte_of_N (0x80 + c mod 64)]
  else if c <? 0x110000 then
    Some [byte_of_N (0xF0 + c / 262144); byte_of_N (0x80 + (c / 4096) mod 64);
          byte_of_N (0x80 + (c / 64) mod 64); byte_of_N (0x80 + c mod 64)]
  else None.

Fixpoint encode_utf8 (s : pystr) : option bytes :=
  match s with
  | [] => Some []
  | c :: s' =>
      match utf8_char c, encode_utf8 s' with
      | Some b, Some r => Some (b ++ r)
      | _, _ => None
      end
  end.

(** ** The token pattern and [str.replace] *)

Definition lbrace : char := 123.
Definition rbrace : char := 125.

Definition is_upper (c : char) : bool := (65 <=? c) && (c <=? 90).

(** Does the pattern [\{[A-Z]{3}\}] match at the start of [s]? *)
Definition token_at (s : pystr) : bool :=
  match s with
  | o :: a :: b :: c :: e :: _ =>
      (o =? lbrace) && is_upper a && is_upper b && is_upper c && (e =? rbrace)
  | _ => false
  end.

(** [re.findall(r'\{[A-Z]{3}\}', s)]: the matches from left to right, the
    scan resuming behind each match. *)
Equations? findall (s : pystr) : list pystr by wf (length s) lt :=
  findall [] := [];
  findall (c :: s') with token_at (c :: s') := {
    | true := firstn 5 (c :: s') :: findall (skipn 4 s');
    | false := findall s' }.
Proof.
  destruct s' as [|? [|? [|? [|? ?]]]]; simpl; lia.
Qed.

(** [s.replace(old, new)]: every occurrence of [old], from left to right
    and not overlapping, is replaced by [new]; an empty [old] matches
    before every character and at the end. *)
Equations? replace (old new s : pystr) : pystr by wf (length s) lt :=
  replace [] new s := new ++ flat_map (fun c => c :: new) s;
  replace (o :: old') new [] := [];
  replace (o :: old') new (c :: s') with startswith (o :: old') (c :: s') := {
    | true := new ++ replace (o :: old') new (skipn (length old') s');
    | false := c :: replace (o :: old') new s' }.
Proof.
  rewrite length_skipn. lia.
Qed.

(** ** Hash functions of the libraries

    [hashlib.sha256] (used twice by [bitcoin.core] for a transaction id)
    and [pyblake2.blake2s] with its default 32-byte digest, on 32-bit words
    held in [N] with the wrap-around written out. *)

Definition w32 (n : N) : N := n mod 4294967296.

Definition rotr32 (n x : N) : N :=
  N.lor (N.shiftr x n) (w32 (N.shiftl x (32 - n))).

Definition not32 (x : N) : N := N.lxor x 0xFFFFFFFF.

Fixpoint chunks {A : Type} (fuel n : nat) (l : list A) : list (list A) :=
  match fuel, l with
  | O, _ => []
  | _, [] => []
  | S fuel', _ => firstn n l :: chunks fuel' n (skipn n l)
  end.

Definition be_word (b : bytes) : N :=
  fold_left (fun acc c => 256 * acc + Byte.to_N c) b 0.

Definition le_word (b : bytes) : N := be_word (rev b).

(** The [k] low bytes of [n], least significant first. *)
Fixpoint le_bytes (k : nat) (n : N) : bytes :=
  match k with
  | O => []
  | S k' => byte_of_N n :: le_bytes k' (n / 256)
  end.

Definition be_bytes (k : nat) (n : N) : bytes := rev (le_bytes k n).

Module SHA256.

(** The first 64 primes. *)
Definition primes : list N :=
  [ 2; 3; 5; 7; 11; 13; 17; 19; 23; 29; 31; 37; 41; 43; 47; 53; 59; 61; 67;
    71; 73; 79; 83; 89; 97; 101; 103; 107; 109; 113; 127; 131; 137; 139; 149;
    151; 157; 163; 167; 173; 179; 181; 191; 193; 197; 199; 211; 223; 227; 229;
    233; 239; 241; 251; 257; 263; 269; 271; 277; 281; 283; 293; 307; 311 ].

(** The integer cube root, bit by bit from bit [bits - 1] down. *)
Fixpoint cube_root (bits : nat) (n r : N) : N :=
  match bits with
  | O => r
  | S b =>
      let c := r + N.shiftl 1 (N.of_nat b) in
      if c * c * c <=? n then cube_root b n c else cube_root b n r
  end.

(** The round constants: the first 32 bits of the fractional parts of the
    cube roots of the primes. *)
Definition K : list N :=
  Eval vm_compute in
    map (fun p => w32 (cube_root 40 (p * N.shiftl 1 96) 0)) primes.

(** The initial hash value: the first 32 bits of the fractional parts of
    the square roots of the first eight primes. *)
Definition H0 : list N :=
  Eval vm_compute in
    map (fun p => w32 (N.sqrt (p * N.shiftl 1 64))) (firstn 8 primes).

(** The message followed by 0x80, zero bytes up to 56 modulo 64, and the
    bit length on eight big-endian bytes. *)
Definition pad (m : bytes) : bytes :=
  let l := List.length m in
  m ++ [x80] ++ repeat x00 ((119 - l mod 64) mod 64)
    ++ be_bytes 8 (8 * N.of_nat l).

(** The schedule is kept newest word first. *)
Fixpoint schedule (n : nat) (ws : list N) : list N :=
  match n with
  | O => ws
  | S n' =>
      let w2 := nth 1 ws 0 in
      let w7 := nth 6 ws 0 in
      let w15 := nth 14 ws 0 in
      let w16 := nth 15 ws 0 in
      let s0 := N.lxor (N.lxor (rotr32 7 w15) (rotr32 18 w15)) (N.shiftr w15 3) in
      let s1 := N.lxor (N.lxor (rotr32 17 w2) (rotr32 19 w2)) (N.shiftr w2 10) in
      schedule n' (w32 (w16 + s0 + w7 + s1) :: ws)
  end.

Definition round (st : list N) (kw : N * N) : list N :=
  match st with
  | [a; b; c; d; e; f; g; h] =>
      let S1 := N.lxor (N.lxor (rotr32 6 e) (rotr32 11 e)) (rotr32 25 e) in
      let ch := N.lxor (N.land e f) (N.land (not32 e) g) in
      let t1 := h + S1 + ch + fst kw + snd kw in
      let S0 := N.lxor (N.lxor (rotr32 2 a) (rotr32 13 a)) (rotr32 22 a) in
      let maj := N.lxor (N.lxor (N.land a b) (N.land a c)) (N.land b c) in
      [w32 (t1 + S0 + maj); a; b; c; w32 (d + t1); e; f; g]
  | _ => st
  end.

Definition compress (h : list N) (block : bytes) : list N :=
  let w := rev (schedule 48 (rev (map be_word (chunks 16 4 block)))) in
  let st := fold_left round (combine K w) h in
  map (fun p => w32 (fst p + snd p)) (combine h st).

Definition digest (m : bytes) : bytes :=
  let p := pad m in
  let h := fold_left compress (chunks (List.length p) 64 p) H0 in
  flat_map (be_bytes 4) h.

End SHA256.

Module Blake2s.

Definition IV : list N := SHA256.H0.

Definition SIGMA : list (list nat) :=
  [ [0; 1; 2; 3; 4; 5; 6; 7; 8; 9; 10; 11; 12; 13; 14; 15];
    [14; 10; 4; 8; 9; 15; 13; 6; 1; 12; 0; 2; 11; 7; 5; 3];
    [11; 8; 12; 0; 5; 2; 15; 13; 10; 14; 3; 6; 7; 1; 9; 4];
    [7; 9; 3; 1; 13; 12; 11; 14; 2; 6; 5; 10; 4; 0; 15; 8];
    [9; 0; 5; 7; 2; 4; 10; 15; 14; 1; 11; 12; 6; 8; 3; 13];
    [2; 12; 6; 10; 0; 11; 8; 3; 4; 13; 7; 5; 15; 14; 1; 9];
    [12; 5; 1; 15; 14; 13; 4; 10; 0; 7; 6; 3; 9; 2; 8; 11];
    [13; 11; 7; 14; 12; 1; 3; 9; 5; 0; 15; 4; 8; 6; 2; 10];
    [6; 15; 14; 9; 11; 3; 0; 8; 12; 2; 13; 7; 1; 4; 10; 5];
    [10; 2; 8; 4; 7; 6; 1; 5; 15; 11; 9; 14; 3; 12; 13; 0] ]%nat.

Fixpoint upd (i : nat) (v : N) (l : list N) : list N :=
  match l, i with
  | [], _ => []
  | _ :: t, O => v :: t
  | h :: t, S i' => h :: upd i' v t
  end.

Definition G (a b c d : nat) (mx my : N) (v : list N) : list N :=
  let g i := nth i v 0 in
  let va := w32 (g a + g b + mx) in
  let vd := rotr32 16 (N.lxor (g d) va) in
  let vc := w32 (g c + vd) in
  let vb := rotr32 12 (N.lxor (g b) vc) in
  let va := w32 (va + vb + my) in
  let vd := rotr32 8 (N.lxor vd va) in
  let vc := w32 (vc + vd) in
  let vb := rotr32 7 (N.lxor vb vc) in
  upd a va (upd b vb (upd c vc (upd d vd v))).

Definition mix (m : list N) (v : list N) (s : list nat) : list N :=
  let w i := nth (nth i s O) m 0 in
  let v := G 0 4 8 12 (w 0%nat) (w 1%nat) v in
  let v := G 1 5 9 13 (w 2%nat) (w 3%nat) v in
  let v := G 2 6 10 14 (w 4%nat) (w 5%nat) v in
  let v := G 3 7 11 15 (w 6%nat) (w 7%nat) v in
  let v := G 0 5 10 15 (w 8%nat) (w 9%nat) v in
  let v := G 1 6 11 12 (w 10%nat) (w 11%nat) v in
  let v := G 2 7 8 13 (w 12%nat) (w 13%nat) v in
  G 3 4 9 14 (w 14%nat) (w 15%nat) v.

(** The compression function: [t] is the number of message bytes fed so
    far, [last] marks the final block. *)
Definition F (h : list N) (block : bytes) (t : N) (last : bool) : list N :=
  let m := map le_word (chunks 16 4 (block ++ repeat x00 (64 - List.length block))) in
  let v := h ++ IV in
  let v := upd 12 (N.lxor (nth 12 v 0) (w32 t)) v in
  let v := upd 13 (N.lxor (nth 13 v 0) (w32 (t / 4294967296))) v in
  let v := if last then upd 14 (not32 (nth 14 v 0)) v else v in
  let v := fold_left (mix m) SIGMA v in
  map (fun p => N.lxor (fst p) (N.lxor (nth (snd p) v 0) (nth (8 + snd p) v 0)))
      (combine h (seq 0 8)).

(** All blocks but the last are compressed with [last = false]; the last
    one (the only one, and empty, for an empty message) carries the flag. *)
Fixpoint blocks (fuel : nat) (h : list N) (t : N) (m : bytes) : list N :=
  match fuel with
  | O => h
  | S fuel' =>
      if (List.length m <=? 64)%nat
      then F h m (t + N.of_nat (List.length m)) true
      else blocks fuel' (F h (firstn 64 m) (t + 64) false) (t + 64) (skipn 64 m)
  end.

Definition digest (m : bytes) : bytes :=
  let h := upd 0 (N.lxor (nth 0 IV 0) 0x01010020) IV in
  flat_map (le_bytes 4) (blocks (S (List.length m)) h 0 m).

(** [blake2s(m).hexdigest()] *)
Definition hexdigest (m : bytes) : pystr := hexlify (digest m).

End Blake2s.

(** [Hash(m)] of [bitcoin.core]: SHA-256 applied twice. *)
Definition Hash (m : bytes) : bytes := SHA256.digest (SHA256.digest m).

(** ** Scripts and transactions of [bitcoin.core] *)

Local Open Scope Z_scope.

(** [CScriptOp.encode_op_pushdata(d)]: the length of [d] on one byte below
    0x4c, after [OP_PUSHDATA1] on one byte up to 0xff, after [OP_PUSHDATA2]
    on two bytes up to 0xffff, after [OP_PUSHDATA4] on four bytes up to
    0xffffffff; longer data raises [ValueError]. *)
Definition encode_op_pushdata (d : bytes) : option bytes :=
  let n := N.of_nat (List.length d) in
  if (n <? 0x4c)%N then Some (byte_of_N n :: d)
  else if (n <=? 0xff)%N then Some (x4c :: byte_of_N n :: d)
  else if (n <=? 0xffff)%N then Some (x4d :: le_bytes 2 n ++ d)
  else if (n <=? 0xffffffff)%N then Some (x4e :: le_bytes 4 n ++ d)
  else None.

(** [v.bit_length()] *)
Definition bit_length (v : Z) : Z :=
  if v =? 0 then 0 else Z.log2 (Z.abs v) + 1.

(** [bn2vch(v)]: the magnitude of [v] on the fewest bytes, least
    significant first, with the sign in the top bit of the last byte; a
    zero byte is added when the magnitude already uses that bit. *)
Definition bn2vch (v : Z) : bytes :=
  let have_ext := (0 <? bit_length v) && (bit_length v mod 8 =? 0) in
  let neg := v <? 0 in
  let v_bin := be_bytes (Z.to_nat ((bit_length v + 7) / 8)) (Z.to_N (Z.abs v)) in
  let ext := if have_ext then [x00] else [] in
  let signed :=
    match ext ++ v_bin with
    | b :: r => if neg then byte_of_N (N.lor (Byte.to_N b) 0x80) :: r else b :: r
    | [] => []
    end in
  rev signed.

Definition OP_CHECKSIG : byte := xac.
Definition OP_1NEGATE : byte := x4f.

(** [CScriptOp.encode_op_n(n)] for [0 <= n <= 16]: [OP_0] is 0x00 and
    [OP_1] to [OP_16] are 0x51 to 0x60. *)
Definition encode_op_n (n : Z) : byte :=
  if n =? 0 then x00 else byte_of_Z (0x51 + n - 1).

(** What [CScript.__add__] appends for an [int]: a small-number opcode for
    -1 and 0 to 16, else a push of [bn2vch]. *)
Definition coerce_int (n : Z) : option bytes :=
  if (0 <=? n) && (n <=? 16) then Some [encode_op_n n]
  else if n =? -1 then Some [OP_1NEGATE]
  else encode_op_pushdata (bn2vch n).

(** What [CScript.__add__] appends for [bytes]: a push of them. *)
Definition coerce_bytes (b : bytes) : option bytes := encode_op_pushdata b.

(** [VarIntSerializer] *)
Definition ser_varint (n : N) : bytes :=
  if (n <? 0xfd)%N then [byte_of_N n]
  else if (n <=? 0xffff)%N then xfd :: le_bytes 2 n
  else if (n <=? 0xffffffff)%N then xfe :: le_bytes 4 n
  else xff :: le_bytes 8 n.

(** [BytesSerializer] *)
Definition ser_bytes (b : bytes) : bytes :=
  ser_varint (N.of_nat (List.length b)) ++ b.

(** [struct.pack("<q", v)]: eight bytes in two's complement; a value
    outside the signed 64-bit range raises [struct.error]. *)
Definition pack_q (v : Z) : option bytes :=
  if (- 2 ^ 63 <=? v) && (v <? 2 ^ 63)
  then Some (le_bytes 8 (Z.to_N (v mod 2 ^ 64)))
  else None.

(** The serialization of [CMutableTransaction(vin=[txin], vout=[txout])]
    with [txin = CMutableTxIn(scriptSig=...)] and
    [txout = CMutableTxOut(nValue, scriptPubKey)]: version 1, the null
    previous output, sequence 0xffffffff and lock time 0 are the
    constructors' defaults. *)
Definition serialize_tx (scriptSig : bytes) (nValue : Z) (scriptPubKey : bytes)
  : option bytes :=
  match pack_q nValue with
  | Some value =>
      Some (le_bytes 4 1
            ++ ser_varint 1
            ++ (repeat x00 32 ++ le_bytes 4 0xffffffff
                ++ ser_bytes scriptSig ++ le_bytes 4 0xffffffff)
            ++ ser_varint 1
            ++ (value ++ ser_bytes scriptPubKey)
            ++ le_bytes 4 0)
  | None => None
  end.

(** [tx.GetTxid()] *)
Definition GetTxid (scriptSig : bytes) (nValue : Z) (scriptPubKey : bytes)
  : option bytes :=
  option_map Hash (serialize_tx scriptSig nValue scriptPubKey).

(** [CEquihashHeader(nTime=..., nBits=..., nNonce=..., hashMerkleRoot=...)]:
    the four fields the program sets. *)
Record EquihashHeader := {
  nTime : Z;
  nBits : Z;
  nNonce : bytes;
  hashMerkleRoot : bytes
}.

(** ** Effects: the trace of a run and the outside world *)

(** The exceptions that can travel through the program.  [ValueError]
    stands for its subclasses too ([binascii.Error], [UnicodeEncodeError]). *)
Inductive exn :=
| SolverException (cause : pystr)
| SystemExit (status : Z)
| ValueError
| IndexError
| UnboundLocalError
| StructError
| UnknownChainError
| LookupFailure
| Interrupted.

Inductive result (A : Type) :=
| Ok (a : A)
| Raise (e : exn).
Arguments Ok {A} a.
Arguments Raise {A} e.

(** A solver object, as its constructor call. *)
Inductive solver :=
| TrompSolver (cmd : list pystr) (eh : EquihashHeader) (rounds : Z)
              (nonce : bytes) (threads : Z)
| SilentarmySolver (cmd : list pystr) (eh : EquihashHeader) (rounds : Z)
                   (nonce : bytes).

Inductive event :=
| Warn (msg : pystr)                       (* logger.warn *)
| Verb (msg : pystr)                       (* logger.verb *)
| Fatal (msg : pystr)                      (* logger.fatal *)
| ParserError                              (* argparse rejects the command line *)
| SetVerbose (b : bool)                    (* logger.verbose = ... *)
| CoreParams (chain : pystr)               (* SelectCoreParams *)
| GetLatest (coin : pystr) (answer : option (Z * pystr))   (* be.get_latest *)
| NewSolver (s : solver)                   (* TrompSolver(...), SilentarmySolver(...) *)
| NewLoop (proactor : bool)                (* the event loop is obtained *)
| RunSolver (s : solver) (outcome : result (bytes * bytes))
                                           (* loop.run_until_complete(solver.run()) *)
| PrintLine (msg : pystr)                  (* print *)
| CloseLoop.                               (* loop.close() *)

Definition trace := list event.

(** What the program reads from outside, and the library tables it is not
    decided by.  The answers of the block explorer and of the solver may
    depend on everything that happened before. *)
Record Env := {
  (** [be.get_latest(coin)]: the height and hash of the latest block, or
      [None] when the lookup raises. *)
  get_latest : trace -> pystr -> option (Z * pystr);
  (** [solver.run()] driven to completion: the solution and the nonce, or
      the exception it raises. *)
  run : trace -> solver -> result (bytes * bytes);
  (** [CZBlockHeader.from_EquihashHeader(eh, solution, nonce).GetHash()] *)
  header_hash : EquihashHeader -> bytes -> bytes -> bytes;
  (** [sys.platform == "win32"] *)
  win32 : bool;
  (** [int(time.time())] when the parser is built *)
  now : Z;
  (** [int(s, base)], [None] when it raises [ValueError] *)
  py_int : pystr -> Z -> option Z;
  (** [s.split()] *)
  py_split : pystr -> list pystr;
  (** ['{}'.format(l)] for a list of strings *)
  py_format_list : list pystr -> pystr;
  (** the characters that [\w] matches *)
  re_word : char -> bool
}.

(** A computation reads the trace so far and returns the extended trace
    with its value or the exception it raised. *)
Definition M (A : Type) := trace -> trace * result A.

Definition ret {A} (a : A) : M A := fun tr => (tr, Ok a).

Definition bind {A B} (m : M A) (k : A -> M B) : M B :=
  fun tr =>
    match m tr with
    | (tr', Ok a) => k a tr'
    | (tr', Raise e) => (tr', Raise e)
    end.

Definition raise {A} (e : exn) : M A := fun tr => (tr, Raise e).

Definition emit (e : event) : M unit := fun tr => (tr ++ [e], Ok tt).

Notation "x <- m ;; k" := (bind m (fun x => k))
  (at level 61, m at next level, right associativity).
Notation "m ;;; k" := (bind m (fun _ => k))
  (at level 61, right associativity).

(** An optional library result, raising [e] when there is none. *)
Definition lift {A} (e : exn) (o : option A) : M A :=
  match o with
  | Some a => ret a
  | None => raise e
  end.

(** [try: body finally: fin] *)
Definition try_finally {A} (body : M A) (fin : M unit) : M A :=
  fun tr =>
    match body tr with
    | (tr1, r) =>
        match fin tr1 with
        | (tr2, Ok _) => (tr2, r)
        | (tr2, Raise e) => (tr2, Raise e)
        end
    end.

(** [try: body except ...: handler]; [handler e] is [None] when no
    [except] clause matches [e]. *)
Definition try_except {A} (body : M A) (handler : exn -> option (M A)) : M A :=
  fun tr =>
    match body tr with
    | (tr1, Ok a) => (tr1, Ok a)
    | (tr1, Raise e) =>
        match handler e with
        | Some h => h tr1
        | None => (tr1, Raise e)
        end
    end.

(** Modelled from the spec: the functions of the [logger] module, which is
    not part of the sources.  [warn] and [verb] report a message; [fatal]
    reports it and ends the process. *)
Definition warn (msg : pystr) : M unit := emit (Warn msg).
Definition verb (msg : pystr) : M unit := emit (Verb msg).
Definition fatal (msg : pystr) : M unit :=
  emit (Fatal msg) ;;; raise (SystemExit 1).

(** Modelled from the spec: [SelectCoreParams] of [zcash.core], which is
    not part of the sources: it activates the parameters of one of the
    three networks and fails for any other name. *)
Definition SelectCoreParams (name : pystr) : M unit :=
  if existsb (str_eqb name) [str "mainnet"; str "testnet"; str "regtest"]
  then emit (CoreParams name)
  else raise UnknownChainError.

(** ** The program *)

(** The command line: for every option the text given for it, if any.
    Options are converted in the order of their declaration. *)
Record CommandLine := {
  opt_chain : option pystr;          (* -c *)
  opt_time : option pystr;           (* -t *)
  opt_coinname : option pystr;       (* -C *)
  opt_timestamp : option pystr;      (* -z *)
  opt_pszTimestamp : option pystr;   (* -Z *)
  opt_pubkey : option pystr;         (* -p *)
  opt_bits : option pystr;           (* -b *)
  opt_extranonce : option pystr;     (* -E *)
  opt_value : option pystr;          (* -V *)
  opt_nonce : option pystr;          (* -n *)
  opt_rounds : option pystr;         (* -r *)
  opt_solver : option pystr;         (* -s *)
  opt_solver_type : option pystr;    (* -S *)
  opt_threads : option pystr;        (* -T *)
  opt_verbose : bool                 (* -v *)
}.

(** The namespace that [parser.parse_args()] returns. *)
Record Args := {
  chain : pystr;
  time : Z;
  coinname : pystr;
  timestamp : pystr;
  pszTimestamp : option pystr;
  pubkey : bytes;
  bits : Z;
  extranonce : option Z;
  value : Z;
  nonce : bytes;
  rounds : Z;
  solver_cmd : list pystr;           (* args.solver *)
  solver_type : pystr;
  threads : Z;
  verbose : bool
}.

Definition default_timestamp : pystr :=
  str "The Economist 2016-10-29 Known unknown: Another crypto-currency is born. BTC#436254 0000000000000000044f321997f336d2908cf8c8d6893e88dbf067e2d949487d ETH#2521903 483039a6b6bd8bd05f0584f9a078d075e454925eb71c1f13eaff59b405a721bb DJIA close on 27 Oct 2016: 18,169.68".

(** [x("04678a...")], the default of the [-p] option. *)
Definition default_pubkey : bytes :=
  Eval vm_compute in
    match x (str "04678afdb0fe5548271967f1a67130b7105cd6a828e03909a67962e0ea1f61deb649f6bc3f4cef38c4f35504e51ec112de5c384df7ba0b8d578a4c702b6bf11d5f") with
    | Some b => b
    | None => []
    end.

Section Program.

Variable env : Env.

(** *** [parse_args] *)

(** [lbytes32(s)], the converter of the [-n] option. *)
Definition lbytes32 (s : pystr) : M bytes :=
  if (32 <? List.length s)%nat then
    warn (str "Nonce can be at most 32 bytes long, is "
          ++ format_d (Z.of_nat (List.length s))
          ++ str "! Will be truncated") ;;;
    lift ValueError (lx (firstn 64 s))
  else
    lift ValueError (lx (repeat 48%N (64 - List.length s) ++ s)).

(** [split(s)], the converter of the [-s] option. *)
Definition split (s : pystr) : M (list pystr) := ret (py_split env s).

(** [smartint(i)], the converter of the [-b] and [-E] options. *)
Definition smartint (i : pystr) : M Z :=
  if startswith (str "0x") i
  then lift ValueError (py_int env i 16)
  else lift ValueError (py_int env i 10).

(** [int(s)], the converter of the [-t], [-V], [-r] and [-T] options. *)
Definition int (s : pystr) : M Z := lift ValueError (py_int env s 10).

(** [parser.error]: the usage message, then exit status 2. *)
Definition parser_error {A} : M A :=
  emit ParserError ;;; raise (SystemExit 2).

(** One option of the parser: the default when the option is absent;
    else the text through the option's [type], whose [ValueError] makes
    the parser exit, and then against its [choices]. *)
Definition option_arg {A} (given : option pystr) (default : A)
           (type : pystr -> M A) (allowed : A -> bool) : M A :=
  match given with
  | None => ret default
  | Some s =>
      v <- try_except (type s)
             (fun e => match e with
                       | ValueError => Some parser_error
                       | _ => None
                       end) ;;
      if allowed v then ret v else parser_error
  end.

Definition any {A} (_ : A) : bool := true.
Definition one_of (choices : list pystr) (s : pystr) : bool :=
  existsb (str_eqb s) choices.

(** [parser.parse_args()] for the parser that [parse_args] builds. *)
Definition parser_parse_args (cl : CommandLine) : M Args :=
  chain <- option_arg (opt_chain cl) (str "mainnet") ret
             (one_of [str "mainnet"; str "testnet"; str "regtest"]) ;;
  time <- option_arg (opt_time cl) (now env) int any ;;
  coinname <- option_arg (opt_coinname cl) (str "Zcash") ret any ;;
  timestamp <- option_arg (opt_timestamp cl) default_timestamp ret any ;;
  pszTimestamp <- option_arg (opt_pszTimestamp cl) None
                    (fun s => ret (Some s)) any ;;
  pubkey <- option_arg (opt_pubkey cl) default_pubkey
              (fun s => lift ValueError (x s)) any ;;
  bits <- option_arg (opt_bits cl) 0x1f07ffff smartint any ;;
  extranonce <- option_arg (opt_extranonce cl) None
                  (fun s => v <- smartint s ;; ret (Some v)) any ;;
  value <- option_arg (opt_value cl) 0 int any ;;
  nonce <- option_arg (opt_nonce cl) (repeat x00 32) lbytes32 any ;;
  rounds <- option_arg (opt_rounds cl) 1 int any ;;
  solver <- option_arg (opt_solver cl)
              (py_split env (str "../../equihash/eq14451")) split any ;;
  solver_type <- option_arg (opt_solver_type cl) (str "tromp") ret
                   (one_of [str "tromp"; str "silentarmy"]) ;;
  threads <- option_arg (opt_threads cl) 1 int any ;;
  ret {| chain := chain; time := time; coinname := coinname;
         timestamp := timestamp; pszTimestamp := pszTimestamp;
         pubkey := pubkey; bits := bits; extranonce := extranonce;
         value := value; nonce := nonce; rounds := rounds;
         solver_cmd := solver; solver_type := solver_type;
         threads := threads; verbose := opt_verbose cl |}.

(** [re.search(r'eq\w*$', s)] finds a match: [eq], then word characters
    up to the end of [s] or up to a newline that ends [s]. *)
Definition word_tail (r : pystr) : bool :=
  forallb (re_word env) r
  || match rev r with
     | c :: r' => (c =? 10)%N && forallb (re_word env) r'
     | [] => false
     end.

Fixpoint search_eq (s : pystr) : bool :=
  match s with
  | [] => false
  | _ :: s' =>
      (startswith (str "eq") s && word_tail (skipn 2 s)) || search_eq s'
  end.

(** [l[0]] *)
Definition item0 {A} (l : list A) : M A :=
  match l with
  | a :: _ => ret a
  | [] => raise IndexError
  end.

Definition parse_args (cl : CommandLine) : M Args :=
  args <- parser_parse_args cl ;;
  emit (SetVerbose (verbose args)) ;;;
  SelectCoreParams (chain args) ;;;
  (* infer solver type from binary if not set *)
  solver_type <-
    (match solver_type args with
     | [] =>
         name <- item0 (solver_cmd args) ;;
         if endswith (str "sa-solver") name then ret (str "silentarmy")
         else if search_eq name then ret (str "tromp")
         else fatal (str "Couldn't infer solver type from binary name and type not set with -S") ;;;
              ret (solver_type args)
     | _ :: _ => ret (solver_type args)
     end) ;;
  let args :=
    {| chain := chain args; time := time args; coinname := coinname args;
       timestamp := timestamp args; pszTimestamp := pszTimestamp args;
       pubkey := pubkey args; bits := bits args;
       extranonce := extranonce args; value := value args;
       nonce := nonce args; rounds := rounds args;
       solver_cmd := solver_cmd args; solver_type := solver_type;
       threads := threads args; verbose := verbose args |} in
  (* silentarmy only supports N,K=200,9 *)
  (if str_eqb (solver_type) (str "silentarmy") && str_eqb (chain args) (str "regtest")
   then fatal (str "Silentarmy doesn't support regtest parameters N,K=48,5. Get Tromp's equihash solver.")
   else ret tt) ;;;
  verb (str "Chain: " ++ chain args) ;;;
  verb (str "Time: " ++ format_d (time args)) ;;;
  verb (str "Start Nonce: " ++ b2lx (nonce args)) ;;;
  verb (str "Pubkey: " ++ b2x (pubkey args)) ;;;
  verb (str "Solver: " ++ py_format_list env (solver_cmd args)) ;;;
  verb (str "Solver type: " ++ solver_type) ;;;
  ret args.

(** *** [build_pszTimestamp] *)

(** [be.get_latest(coin)]: the call is recorded with its answer. *)
Definition be_get_latest (coin : pystr) : M (Z * pystr) :=
  fun tr =>
    let answer := get_latest env tr coin in
    (tr ++ [GetLatest coin answer],
     match answer with
     | Some a => Ok a
     | None => Raise LookupFailure
     end).

(** ['{}#{:d} {}'.format(coin, *be.get_latest(coin))] *)
Definition get_latest_block_str (coin : pystr) : M pystr :=
  a <- be_get_latest coin ;;
  ret (coin ++ str "#" ++ format_d (fst a) ++ str " " ++ snd a).

(** The loop [for coin in ...: timestamp = timestamp.replace(coin, ...)]
    over the matches found in the template. *)
Fixpoint substitute (coins : list pystr) (timestamp : pystr) : M pystr :=
  match coins with
  | [] => ret timestamp
  | coin :: coins' =>
      s <- get_latest_block_str (firstn 3 (skipn 1 coin)) ;;
      substitute coins' (replace coin s timestamp)
  end.

Definition build_pszTimestamp (coinname timestamp : pystr) : M pystr :=
  (* Build the timestamp. First, replace all {XYZ} *)
  timestamp <- substitute (findall timestamp) timestamp ;;
  verb (str "timestamp after substitution: " ++ timestamp) ;;;
  data <- lift ValueError (encode_utf8 timestamp) ;;
  ret (coinname ++ Blake2s.hexdigest data).

(** *** [build_EquihashInputHeader] *)

(** [args.extranonce if args.extranonce else bits] *)
Definition pick_extranonce (args : Args) : Z :=
  match extranonce args with
  | Some e => if e =? 0 then bits args else e
  | None => bits args
  end.

(** [args.pszTimestamp if args.pszTimestamp else build_pszTimestamp(...)] *)
Definition pick_pszTimestamp (args : Args) : M pystr :=
  match pszTimestamp args with
  | Some (c :: p) => ret (c :: p)
  | Some [] | None => build_pszTimestamp (coinname args) (timestamp args)
  end.

(** [CScript() + extranonce + b'\x04' + pszTimestamp.encode('UTF-8')] *)
Definition build_scriptSig (extranonce : Z) (pszTimestamp : pystr) : M bytes :=
  a <- lift ValueError (coerce_int extranonce) ;;
  b <- lift ValueError (coerce_bytes [x04]) ;;
  payload <- lift ValueError (encode_utf8 pszTimestamp) ;;
  c <- lift ValueError (coerce_bytes payload) ;;
  ret (a ++ b ++ c).

(** [CScript() + pk + OP_CHECKSIG] *)
Definition build_scriptPubKey (pk : bytes) : M bytes :=
  a <- lift ValueError (coerce_bytes pk) ;;
  ret (a ++ [OP_CHECKSIG]).

Definition build_EquihashInputHeader (args : Args) : M EquihashHeader :=
  pszTimestamp <- pick_pszTimestamp args ;;
  verb (str "pszTimestamp: " ++ pszTimestamp) ;;;
  let pk := pubkey args in
  let bits := bits args in
  let extranonce := pick_extranonce args in
  (* Input transaction *)
  scriptSig <- build_scriptSig extranonce pszTimestamp ;;
  (* Output transaction *)
  scriptPubKey <- build_scriptPubKey pk ;;
  txhash <- lift StructError (GetTxid scriptSig (value args) scriptPubKey) ;;
  verb (str "TX/merkle root hash: " ++ b2lx txhash) ;;;
  ret {| nTime := time args; nBits := bits;
         nNonce := nonce args; hashMerkleRoot := txhash |}.

(** *** [main] *)

(** A constructor call of the [solvers] module. *)
Definition new_solver (s : solver) : M solver :=
  emit (NewSolver s) ;;; ret s.

(** [loop.run_until_complete(solver.run())]; an unbound [solver] raises
    when it is read. *)
Definition run_until_complete (s : option solver) : M (bytes * bytes) :=
  match s with
  | None => raise UnboundLocalError
  | Some s =>
      fun tr =>
        let outcome := run env tr s in
        (tr ++ [RunSolver s outcome], outcome)
  end.

(** The [if]/[elif] of [main] that binds [solver]; with another solver
    type the name stays unbound. *)
Definition select_solver (args : Args) (eh : EquihashHeader) : M (option solver) :=
  if str_eqb (solver_type args) (str "tromp") then
    s <- new_solver (TrompSolver (solver_cmd args) eh (rounds args)
                                 (nonce args) (threads args)) ;;
    ret (Some s)
  else if str_eqb (solver_type args) (str "silentarmy") then
    s <- new_solver (SilentarmySolver (solver_cmd args) eh (rounds args)
                                      (nonce args)) ;;
    ret (Some s)
  else ret None.

(** The [try]/[except]/[finally] of [main]. *)
Definition solve (eh : EquihashHeader) (solver : option solver) : M unit :=
  try_finally
    (try_except
       (r <- run_until_complete solver ;;
        let solution := fst r in
        let nonce := snd r in
        let h := header_hash env eh solution nonce in
        emit (PrintLine (str "Solution found!" ++ nl ++ str "Header Hash: " ++ b2lx h
                     ++ nl ++ str "Nonce: " ++ b2lx nonce
                     ++ nl ++ b2x solution)))
       (fun e => match e with
                 | SolverException cause => Some (warn (cause ++ nl ++ str "Exiting."))
                 | _ => None
                 end))
    (emit CloseLoop).

Definition main (cl : CommandLine) : M unit :=
  args <- parse_args cl ;;
  eh <- build_EquihashInputHeader args ;;
  solver <- select_solver args eh ;;
  emit (NewLoop (win32 env)) ;;;
  solve eh solver.

End Program.

(** ** Notions used by the statements *)

(** [u in s]: [u] occurs in [s] as a substring. *)
Definition contains (u s : pystr) : Prop :=
  exists a b, s = a ++ u ++ b.

(** The token of a three-letter code: the code in braces. *)
Definition token (code : pystr) : pystr := lbrace :: code ++ [rbrace].

(** [t] is a whole match of the token pattern. *)
Definition is_token (t : pystr) : bool :=
  (List.length t =? 5)%nat && token_at t.

(** Some suffix of [s] starts with a match of the token pattern. *)
Fixpoint has_token (s : pystr) : bool :=
  match s with
  | [] => false
  | _ :: s' => token_at s || has_token s'
  end.

(** The matches at every position of [s], without resuming behind them. *)
Fixpoint matches (s : pystr) : list pystr :=
  match s with
  | [] => []
  | _ :: s' => if token_at s then firstn 5 s :: matches s' else matches s'
  end.

(** [s] starts with [n] capital letters and a closing brace. *)
Fixpoint upto (n : nat) (s : pystr) : bool :=
  match n, s with
  | O, c :: _ => (c =? rbrace)%N
  | S n', c :: s' => is_upper c && upto n' s'
  | _, [] => false
  end.

(** What a replacement text must be like for a substitution to leave no
    new token behind and to keep it intact: no opening brace in it, and
    its start cannot close a token that opens before it. *)
Definition inert (u : pystr) : Prop :=
  ~ In lbrace u /\ forall n rest, upto n (u ++ rest) = false.

(** The token of the letters [x], [y], [z]. *)
Definition tok3 (x y z : char) : pystr := [lbrace; x; y; z; rbrace].

(** The events of a call to the block explorer. *)
Definition lookup_event (e : event) : Prop :=
  exists c a, e = GetLatest c a.

(** The events of a computation started on an empty trace. *)
Definition events {A} (m : M A) : trace := fst (m []).
Definition outcome {A} (m : M A) : result A := snd (m []).

(** A computation that emits only events satisfying [P]. *)
Definition emits_only {A} (P : event -> Prop) (m : M A) : Prop :=
  forall tr, exists evs, fst (m tr) = tr ++ evs /\ Forall P evs.

(** A computation that raises only exceptions satisfying [Q]. *)
Definition raises_only {A} (Q : exn -> Prop) (m : M A) : Prop :=
  forall tr tr' e, m tr = (tr', Raise e) -> Q e.

(** The events of the set-up phase: everything but the solver, the event
    loop and the final output. *)
Definition setup_event (e : event) : Prop :=
  match e with
  | NewSolver _ | NewLoop _ | RunSolver _ _ | PrintLine _ | CloseLoop => False
  | _ => True
  end.

(** The events the option parser can cause. *)
Definition parser_event (e : event) : Prop :=
  match e with
  | Warn _ | ParserError => True
  | _ => False
  end.

(** The layout of the input script in the words of the specification: the
    little-endian minimal encoding of the extranonce, one length byte, the
    UTF-8 bytes of the payload. *)
Definition claimed_scriptSig (extranonce : Z) (payload : pystr) (script : bytes) : Prop :=
  exists (len : byte) (data : bytes),
    encode_utf8 payload = Some data
    /\ script = bn2vch extranonce ++ [len] ++ data.

(** The length prefix that a push puts before [n] bytes of data. *)
Definition push_prefix (n : N) : bytes :=
  if (n <? 0x4c)%N then [byte_of_N n]
  else if (n <=? 0xff)%N then [x4c; byte_of_N n]
  else if (n <=? 0xffff)%N then x4d :: le_bytes 2 n
  else x4e :: le_bytes 4 n.

(** The substitution in the words of the specification: in one pass from
    left to right, every occurrence of a token whose code has a text is
    replaced by that text, and everything else is copied. *)
Equations? resolve (text : pystr -> option pystr) (s : pystr) : pystr
  by wf (length s) lt :=
  resolve text [] := [];
  resolve text (c :: s') with token_at (c :: s') := {
    | true with text (firstn 3 s') := {
        | Some u := u ++ resolve text (skipn 4 s');
        | None := c :: resolve text s' };
    | false := c :: resolve text s' }.
Proof.
  destruct s' as [|? [|? [|? [|? ?]]]]; simpl; lia.
Qed.

(** The text for a code and an answer of the block explorer:
    ['{}#{:d} {}'.format(coin, height, hash)]. *)
Definition block_str (code : pystr) (a : Z * pystr) : pystr :=
  code ++ str "#" ++ format_d (fst a) ++ str " " ++ snd a.

(** The first answer that the block explorer gave for a code. *)
Fixpoint first_answer (evs : trace) (code : pystr) : option (Z * pystr) :=
  match evs with
  | [] => None
  | GetLatest c (Some a) :: evs' =>
      if str_eqb c code then Some a else first_answer evs' code
  | _ :: evs' => first_answer evs' code
  end.

(** The text made of the first answer for a code. *)
Definition answer_text (evs : trace) (code : pystr) : option pystr :=
  option_map (block_str code) (first_answer evs code).

(** ** Data of the concrete runs *)

(** A world whose block explorer always gives [answer] and whose solver
    always ends with [r]. *)
Definition example_env (answer : option (Z * pystr)) (r : result (bytes * bytes)) : Env :=
  {| get_latest := fun _ _ => answer;
     run := fun _ _ => r;
     header_hash := fun _ _ _ => repeat x00 32;
     win32 := false;
     now := 1477641360;
     py_int := fun _ _ => None;
     py_split := fun s => [s];
     py_format_list := fun l => concat l;
     re_word := fun _ => false |}.

(** The command line without options. *)
Definition no_options : CommandLine :=
  {| opt_chain := None; opt_time := None; opt_coinname := None;
     opt_timestamp := None; opt_pszTimestamp := None; opt_pubkey := None;
     opt_bits := None; opt_extranonce := None; opt_value := None;
     opt_nonce := None; opt_rounds := None; opt_solver := None;
     opt_solver_type := None; opt_threads := None; opt_verbose := false |}.

(** [-S silentarmy -c regtest] *)
Definition silentarmy_regtest : CommandLine :=
  {| opt_chain := Some (str "regtest"); opt_time := None; opt_coinname := None;
     opt_timestamp := None; opt_pszTimestamp := None; opt_pubkey := None;
     opt_bits := None; opt_extranonce := None; opt_value := None;
     opt_nonce := None; opt_rounds := None; opt_solver := None;
     opt_solver_type := Some (str "silentarmy"); opt_threads := None;
     opt_verbose := false |}.

(** The namespace of the defaults, with the options [-z], [-Z] and [-E]
    as given. *)
Definition example_args (z : pystr) (Z_ : option pystr) (E : option Z) : Args :=
  {| chain := str "mainnet"; time := 1477641360; coinname := str "Zcash";
     timestamp := z; pszTimestamp := Z_; pubkey := default_pubkey;
     bits := 0x1f07ffff; extranonce := E; value := 0;
     nonce := repeat x00 32; rounds := 1;
     solver_cmd := [str "../../equihash/eq14451"]; solver_type := str "tromp";
     threads := 1; verbose := false |}.

(** ** Notions used by the further properties *)

(** Digits and the lowercase letters a to f only. *)
Definition is_lower_hex (s : pystr) : bool :=
  forallb (fun c => ((48 <=? c) && (c <=? 57)) || ((97 <=? c) && (c <=? 102)))%N s.

(** The codes the block explorer was asked for, in order. *)
Definition asked (evs : trace) : list pystr :=
  flat_map (fun e => match e with GetLatest c _ => [c] | _ => [] end) evs.

(** A call to the block explorer that was answered. *)
Definition answered (e : event) : Prop :=
  exists c a, e = GetLatest c (Some a).

(** The code of a match: [coin[1:4]]. *)
Definition code_of (coin : pystr) : pystr := firstn 3 (skipn 1 coin).

(** The namespace with another [-Z] option. *)
Definition set_pszTimestamp (p : option pystr) (args : Args) : Args :=
  {| chain := chain args; time := time args; coinname := coinname args;
     timestamp := timestamp args; pszTimestamp := p;
     pubkey := pubkey args; bits := bits args;
     extranonce := extranonce args; value := value args;
     nonce := nonce args; rounds := rounds args;
     solver_cmd := solver_cmd args; solver_type := solver_type args;
     threads := threads args; verbose := verbose args |}.

(** The namespace with other [-C] and [-z] options. *)
Definition set_template (c z : pystr) (args : Args) : Args :=
  {| chain := chain args; time := time args; coinname := c;
     timestamp := z; pszTimestamp := pszTimestamp args;
     pubkey := pubkey args; bits := bits args;
     extranonce := extranonce args; value := value args;
     nonce := nonce args; rounds := rounds args;
     solver_cmd := solver_cmd args; solver_type := solver_type args;
     threads := threads args; verbose := verbose args |}.

(** [build_EquihashInputHeader] from its second line on, the payload
    being resolved. *)
Definition finish_header (args : Args) (pszTimestamp : pystr) : M EquihashHeader :=
  verb (str "pszTimestamp: " ++ pszTimestamp) ;;;
  scriptSig <- build_scriptSig (pick_extranonce args) pszTimestamp ;;
  scriptPubKey <- build_scriptPubKey (pubkey args) ;;
  txhash <- lift StructError (GetTxid scriptSig (value args) scriptPubKey) ;;
  verb (str "TX/merkle root hash: " ++ b2lx txhash) ;;;
  ret {| nTime := time args; nBits := bits args;
         nNonce := nonce args; hashMerkleRoot := txhash |}.

(** The solver object that [main] makes for a namespace and a header. *)
Definition solver_for (args : Args) (eh : EquihashHeader) : solver :=
  if str_eqb (solver_type args) (str "tromp")
  then TrompSolver (solver_cmd args) eh (rounds args) (nonce args) (threads args)
  else SilentarmySolver (solver_cmd args) eh (rounds args) (nonce args).

(** An option is rejected when it is given and its converter raises on
    the text or the value is not among the choices. *)
Definition rejected {A} (given : option pystr) (type : pystr -> M A)
           (allowed : A -> bool) : bool :=
  match given with
  | None => false
  | Some s =>
      match outcome (type s) with
      | Ok v => negb (allowed v)
      | Raise _ => true
      end
  end.

(** Some option of the command line is rejected: the options as
    [parse_args] declares them. *)
Definition bad_option (env : Env) (cl : CommandLine) : bool :=
  rejected (opt_chain cl) ret (one_of [str "mainnet"; str "testnet"; str "regtest"])
  || rejected (opt_time cl) (int env) any
  || rejected (opt_coinname cl) ret any
  || rejected (opt_timestamp cl) ret any
  || rejected (opt_pszTimestamp cl) (fun s => ret (Some s)) any
  || rejected (opt_pubkey cl) (fun s => lift ValueError (x s)) any
  || rejected (opt_bits cl) (smartint env) any
  || rejected (opt_extranonce cl) (fun s => v <- smartint env s ;; ret (Some v)) any
  || rejected (opt_value cl) (int env) any
  || rejected (opt_nonce cl) lbytes32 any
  || rejected (opt_rounds cl) (int env) any
  || rejected (opt_solver cl) (split env) any
  || rejected (opt_solver_type cl) ret (one_of [str "tromp"; str "silentarmy"])
  || rejected (opt_threads cl) (int env) any.

(** A computation that, when it returns, has emitted only events
    satisfying [P]. *)
Definition returns_with {A} (P : event -> Prop) (m : M A) : Prop :=
  forall tr tr' a, m tr = (tr', Ok a) ->
  exists evs, tr' = tr ++ evs /\ Forall P evs.

(** A warning of the logger. *)
Definition warning (e : event) : Prop := exists m, e = Warn m.

(** A call to the block explorer that raised. *)
Definition failed_lookup (e : event) : Prop :=
  match e with
  | GetLatest _ None => True
  | _ => False
  end.

(** The text of an option, or its default. *)
Definition given_or (given : option pystr) (default : pystr) : pystr :=
  match given with
  | Some s => s
  | None => default
  end.

(** The command line with the option [-n]. *)
Definition with_nonce (s : pystr) : CommandLine :=
  {| opt_chain := None; opt_time := None; opt_coinname := None;
     opt_timestamp := None; opt_pszTimestamp := None; opt_pubkey := None;
     opt_bits := None; opt_extranonce := None; opt_value := None;
     opt_nonce := Some s; opt_rounds := None; opt_solver := None;
     opt_solver_type := None; opt_threads := None; opt_verbose := false |}.

(** The command line with the option [-z]. *)
Definition with_template (z : pystr) : CommandLine :=
  {| opt_chain := None; opt_time := None; opt_coinname := None;
     opt_timestamp := Some z; opt_pszTimestamp := None; opt_pubkey := None;
     opt_bits := None; opt_extranonce := None; opt_value := None;
     opt_nonce := None; opt_rounds := None; opt_solver := None;
     opt_solver_type := None; opt_threads := None; opt_verbose := false |}.

(** * Properties *)

(** ** The model against known values *)

Example sha256_abc :
  hexlify (SHA256.digest (map byte_of_N (str "abc")))
  = str "ba7816bf8f01cfea414140de5dae2223b00361a396177a9cb410ff61f20015ad".
Proof. vm_compute. reflexivity. Qed.

Example blake2s_abc :
  Blake2s.hexdigest (map byte_of_N (str "abc"))
  = str "508c5e8c327c14e2e1a72ba34eeb452f37458b209ed63a294d999b4c86675982".
Proof. vm_compute. reflexivity. Qed.

(** With the defaults of the options the program builds the payload and
    the merkle root of the genesis block of the Zcash main network. *)
Example zcash_genesis :
  let run := build_EquihashInputHeader (example_env None (Raise Interrupted))
               (example_args default_timestamp None None) [] in
  fst run
  = [Verb (str "timestamp after substitution: " ++ default_timestamp);
     Verb (str "pszTimestamp: Zcash0b9c4eef8b7cc417ee5001e3500984b6fea35683a7cac141a043c42064835d34");
     Verb (str "TX/merkle root hash: c4eaa58879081de3c24a7b117ed2b28300e7ec4c4c1dff1d3f1268b7857a4ddb")]
  /\ option_map (fun h => b2lx (hashMerkleRoot h))
       (match snd run with Ok h => Some h | Raise _ => None end)
     = Some (str "c4eaa58879081de3c24a7b117ed2b28300e7ec4c4c1dff1d3f1268b7857a4ddb").
Proof. vm_compute. split; reflexivity. Qed.

(** ** Tokens, [findall] and [replace] *)

Lemma is_upper_range c : is_upper c = true -> (65 <= c <= 90)%N.
Proof.
  unfold is_upper. rewrite andb_true_iff, !N.leb_le. tauto.
Qed.

Lemma is_upper_not_lbrace c : is_upper c = true -> c <> lbrace.
Proof.
  intros H ->. apply is_upper_range in H. unfold lbrace in H. lia.
Qed.

Lemma is_upper_not_rbrace c : is_upper c = true -> c <> rbrace.
Proof.
  intros H ->. apply is_upper_range in H. unfold rbrace in H. lia.
Qed.

Lemma token_at_inv s :
  token_at s = true ->
  exists a b c r,
    s = lbrace :: a :: b :: c :: rbrace :: r
    /\ is_upper a = true /\ is_upper b = true /\ is_upper c = true.
Proof.
  destruct s as [|o [|a [|b [|c [|e r]]]]]; simpl; try discriminate.
  rewrite !andb_true_iff, !N.eqb_eq.
  intros [[[[-> Ha] Hb] Hc] ->]. now exists a, b, c, r.
Qed.

Lemma token_at_intro a b c r :
  is_upper a = true -> is_upper b = true -> is_upper c = true ->
  token_at (lbrace :: a :: b :: c :: rbrace :: r) = true.
Proof.
  intros Ha Hb Hc. unfold token_at. now rewrite Ha, Hb, Hc, !N.eqb_refl.
Qed.

Lemma token_at_head c s : token_at (c :: s) = true -> c = lbrace.
Proof.
  intros H. apply token_at_inv in H as (? & ? & ? & ? & E & _). now inversion E.
Qed.

Lemma token_at_lbrace s : token_at (lbrace :: s) = upto 3 s.
Proof.
  destruct s as [|a [|b [|c [|e r]]]]; simpl; rewrite ?andb_false_r; try reflexivity.
  now rewrite !andb_assoc.
Qed.

Lemma token_at_not_lbrace c s : c <> lbrace -> token_at (c :: s) = false.
Proof.
  intros H. destruct (token_at (c :: s)) eqn:E; [|reflexivity].
  now apply token_at_head in E.
Qed.

(** The scan of a string meets the empty string, a token, or a character
    at which no token starts. *)
Lemma scan_ind (P : pystr -> Prop) :
  P [] ->
  (forall a b c r,
      is_upper a = true -> is_upper b = true -> is_upper c = true ->
      P r -> P (lbrace :: a :: b :: c :: rbrace :: r)) ->
  (forall c s, token_at (c :: s) = false -> P s -> P (c :: s)) ->
  forall s, P s.
Proof.
  intros Hnil Htok Hchar s.
  remember (List.length s) as n eqn:Hn.
  revert s Hn. induction n as [n IH] using lt_wf_ind. intros s Hn.
  destruct s as [|c s]; [exact Hnil|].
  destruct (token_at (c :: s)) eqn:E.
  - apply token_at_inv in E as (a & b & c' & r & E & Ha & Hb & Hc).
    rewrite E. apply Htok; trivial.
    apply (IH (List.length r)); [|reflexivity].
    subst n. rewrite E. simpl. lia.
  - apply Hchar; [exact E|].
    apply (IH (List.length s)); [|reflexivity]. subst n. simpl. lia.
Qed.

Lemma findall_token a b c r :
  is_upper a = true -> is_upper b = true -> is_upper c = true ->
  findall (lbrace :: a :: b :: c :: rbrace :: r)
  = [lbrace; a; b; c; rbrace] :: findall r.
Proof.
  intros Ha Hb Hc. simp findall.
  rewrite (token_at_intro a b c r Ha Hb Hc). reflexivity.
Qed.

Lemma findall_skip c s : token_at (c :: s) = false -> findall (c :: s) = findall s.
Proof.
  intros H. simp findall. rewrite H. reflexivity.
Qed.

Lemma matches_skip c s : token_at (c :: s) = false -> matches (c :: s) = matches s.
Proof.
  intros H. change (matches (c :: s)) with
    (if token_at (c :: s) then firstn 5 (c :: s) :: matches s else matches s).
  now rewrite H.
Qed.

(** Matches cannot overlap, so resuming behind a match loses none. *)
Lemma findall_matches s : findall s = matches s.
Proof.
  induction s as [| a b c r Ha Hb Hc IH | c s Hc IH] using scan_ind.
  - reflexivity.
  - rewrite (findall_token a b c r Ha Hb Hc), IH.
    change (matches (lbrace :: a :: b :: c :: rbrace :: r)) with
      (if token_at (lbrace :: a :: b :: c :: rbrace :: r)
       then [lbrace; a; b; c; rbrace] :: matches (a :: b :: c :: rbrace :: r)
       else matches (a :: b :: c :: rbrace :: r)).
    rewrite (token_at_intro a b c r Ha Hb Hc).
    rewrite (matches_skip a) by (apply token_at_not_lbrace, is_upper_not_lbrace, Ha).
    rewrite (matches_skip b) by (apply token_at_not_lbrace, is_upper_not_lbrace, Hb).
    rewrite (matches_skip c) by (apply token_at_not_lbrace, is_upper_not_lbrace, Hc).
    rewrite matches_skip; [reflexivity|].
    apply token_at_not_lbrace. discriminate.
  - now rewrite (findall_skip c s Hc), (matches_skip c s Hc).
Qed.

Lemma startswith_refl p r : startswith p (p ++ r) = true.
Proof.
  induction p as [|a p IH]; simpl; [reflexivity|].
  now rewrite N.eqb_refl, IH.
Qed.

Lemma startswith_inv p s : startswith p s = true -> exists r, s = p ++ r.
Proof.
  revert s. induction p as [|a p IH]; intros s H.
  - now exists s.
  - destruct s as [|b s]; simpl in H; [discriminate|].
    apply andb_true_iff in H as [E H]. apply N.eqb_eq in E as ->.
    destruct (IH s H) as [r ->]. now exists r.
Qed.

Lemma startswith_head_neq o p c s : o <> c -> startswith (o :: p) (c :: s) = false.
Proof.
  intros H. simpl. destruct (N.eqb_spec o c); [contradiction|reflexivity].
Qed.

Lemma replace_hit o old new c s :
  startswith (o :: old) (c :: s) = true ->
  replace (o :: old) new (c :: s)
  = new ++ replace (o :: old) new (skipn (List.length old) s).
Proof.
  intros H. simp replace. rewrite H. reflexivity.
Qed.

Lemma replace_miss o old new c s :
  startswith (o :: old) (c :: s) = false ->
  replace (o :: old) new (c :: s) = c :: replace (o :: old) new s.
Proof.
  intros H. simp replace. rewrite H. reflexivity.
Qed.

Lemma replace_nil o old new : replace (o :: old) new [] = [].
Proof. now simp replace. Qed.

(** A text without an opening brace is copied when a token is replaced. *)
Lemma replace_copy old new u s :
  ~ In lbrace u ->
  replace (lbrace :: old) new (u ++ s) = u ++ replace (lbrace :: old) new s.
Proof.
  induction u as [|c u IH]; intros H; [reflexivity|].
  simpl. rewrite replace_miss.
  - rewrite IH; [reflexivity|]. intros Hin. apply H. now right.
  - apply startswith_head_neq. intros E. apply H. now left.
Qed.

Lemma findall_copy u s : ~ In lbrace u -> findall (u ++ s) = findall s.
Proof.
  induction u as [|c u IH]; intros H; [reflexivity|].
  simpl. rewrite findall_skip.
  - apply IH. intros Hin. apply H. now right.
  - apply token_at_not_lbrace. intros E. apply H. now left.
Qed.

(** *** The substitution in one pass *)

Lemma resolve_nil f : resolve f [] = [].
Proof. now simp resolve. Qed.

Lemma resolve_skip f c s :
  token_at (c :: s) = false -> resolve f (c :: s) = c :: resolve f s.
Proof. intros H. simp resolve. rewrite H. reflexivity. Qed.

Lemma resolve_copy f u s :
  ~ In lbrace u -> resolve f (u ++ s) = u ++ resolve f s.
Proof.
  induction u as [|c u IH]; intros H; [reflexivity|].
  simpl. rewrite resolve_skip.
  - rewrite IH; [reflexivity|]. intros Hin. apply H. now right.
  - apply token_at_not_lbrace. intros E. apply H. now left.
Qed.

Lemma resolve_token f a b c r :
  is_upper a = true -> is_upper b = true -> is_upper c = true ->
  resolve f (lbrace :: a :: b :: c :: rbrace :: r)
  = match f [a; b; c] with
    | Some u => u
    | None => [lbrace; a; b; c; rbrace]
    end ++ resolve f r.
Proof.
  intros Ha Hb Hc. simp resolve.
  rewrite (token_at_intro a b c r Ha Hb Hc). simpl.
  destruct (f [a; b; c]) as [u|]; simpl; [reflexivity|].
  f_equal. change (a :: b :: c :: rbrace :: r) with ([a; b; c; rbrace] ++ r).
  rewrite resolve_copy; [reflexivity|].
  simpl. intros [E | [E | [E | [E | []]]]].
  - now apply (is_upper_not_lbrace a).
  - now apply (is_upper_not_lbrace b).
  - now apply (is_upper_not_lbrace c).
  - discriminate.
Qed.

Lemma resolve_ext f g (s : pystr) :
  (forall code, f code = g code) -> resolve f s = resolve g s.
Proof.
  intros H. induction s as [| a b c r Ha Hb Hc IH | c s Hc IH] using scan_ind.
  - now rewrite !resolve_nil.
  - rewrite !resolve_token by assumption. now rewrite H, IH.
  - rewrite !resolve_skip by assumption. now rewrite IH.
Qed.

(** Without texts nothing is replaced. *)
Lemma resolve_none f (s : pystr) : (forall code, f code = None) -> resolve f s = s.
Proof.
  intros H. induction s as [| a b c r Ha Hb Hc IH | c s Hc IH] using scan_ind.
  - apply resolve_nil.
  - rewrite resolve_token by assumption. now rewrite H, IH.
  - rewrite resolve_skip by assumption. now rewrite IH.
Qed.

Section OneToken.

(** The token [{xyz}] and its replacement. *)
Variables x y z : char.
Hypothesis Hx : is_upper x = true.
Hypothesis Hy : is_upper y = true.
Hypothesis Hz : is_upper z = true.
Variable new : pystr.

Lemma replace_same r :
  replace (tok3 x y z) new (lbrace :: x :: y :: z :: rbrace :: r)
  = new ++ replace (tok3 x y z) new r.
Proof.
  unfold tok3. rewrite replace_hit; [reflexivity|].
  apply (startswith_refl [lbrace; x; y; z; rbrace] r).
Qed.

Lemma replace_other a b c r :
  is_upper a = true -> is_upper b = true -> is_upper c = true ->
  [lbrace; a; b; c; rbrace] <> tok3 x y z ->
  replace (tok3 x y z) new (lbrace :: a :: b :: c :: rbrace :: r)
  = lbrace :: a :: b :: c :: rbrace :: replace (tok3 x y z) new r.
Proof.
  intros Ha Hb Hc Hne. unfold tok3.
  rewrite replace_miss.
  - change (a :: b :: c :: rbrace :: r) with ([a; b; c; rbrace] ++ r).
    rewrite replace_copy; [reflexivity|].
    simpl. intros [E | [E | [E | [E | []]]]].
    + now apply (is_upper_not_lbrace a).
    + now apply (is_upper_not_lbrace b).
    + now apply (is_upper_not_lbrace c).
    + discriminate.
  - destruct (startswith [lbrace; x; y; z; rbrace]
                (lbrace :: a :: b :: c :: rbrace :: r)) eqn:E; [|reflexivity].
    exfalso. apply Hne. unfold tok3.
    apply startswith_inv in E as [r' E]. now inversion E.
Qed.

Lemma replace_char c s :
  token_at (c :: s) = false ->
  replace (tok3 x y z) new (c :: s) = c :: replace (tok3 x y z) new s.
Proof.
  intros H. unfold tok3. apply replace_miss.
  destruct (startswith [lbrace; x; y; z; rbrace] (c :: s)) eqn:E; [|reflexivity].
  apply startswith_inv in E as [r E]. simpl in E. rewrite E in H.
  rewrite (token_at_intro x y z r Hx Hy Hz) in H. discriminate.
Qed.

(** The replacement cannot close a token that opens before it. *)
Hypothesis Hnew : forall n rest, upto n (new ++ rest) = false.

Lemma upto_replace n : forall s,
  upto n (replace (tok3 x y z) new s) = true -> upto n s = true.
Proof.
  induction n as [|n IH]; intros s H.
  - destruct s as [|c s]; [unfold tok3 in H; rewrite replace_nil in H; discriminate H|].
    destruct (token_at (c :: s)) eqn:E.
    + apply token_at_inv in E as (a & b & c' & r & E & Ha & Hb & Hc).
      rewrite E in *. clear E.
      destruct (list_eq_dec N.eq_dec [lbrace; a; b; c'; rbrace] (tok3 x y z)) as [Eq|Ne].
      * inversion Eq; subst. rewrite replace_same, Hnew in H. discriminate.
      * rewrite replace_other in H by assumption. exact H.
    + rewrite replace_char in H by assumption. exact H.
  - destruct s as [|c s]; [unfold tok3 in H; rewrite replace_nil in H; discriminate H|].
    destruct (token_at (c :: s)) eqn:E.
    + apply token_at_inv in E as (a & b & c' & r & E & Ha & Hb & Hc).
      rewrite E in *. clear E.
      destruct (list_eq_dec N.eq_dec [lbrace; a; b; c'; rbrace] (tok3 x y z)) as [Eq|Ne].
      * inversion Eq; subst. rewrite replace_same, Hnew in H. discriminate.
      * rewrite replace_other in H by assumption. simpl in H. discriminate.
    + rewrite replace_char in H by assumption.
      simpl in H. apply andb_true_iff in H as [Hc H].
      simpl. rewrite Hc. simpl. now apply IH.
Qed.

Hypothesis Hnolb : ~ In lbrace new.

(** Replacing a token removes its matches and touches no other match. *)
Lemma findall_replace s :
  findall (replace (tok3 x y z) new s)
  = filter (fun k => negb (str_eqb k (tok3 x y z))) (findall s).
Proof.
  induction s as [| a b c r Ha Hb Hc IH | c s Hc IH] using scan_ind.
  - unfold tok3. now rewrite replace_nil.
  - rewrite (findall_token a b c r Ha Hb Hc). simpl.
    unfold str_eqb at 1.
    destruct (list_eq_dec N.eq_dec [lbrace; a; b; c; rbrace] (tok3 x y z)) as [Eq|Ne]; simpl.
    + inversion Eq; subst. rewrite replace_same, findall_copy by assumption.
      exact IH.
    + rewrite replace_other by assumption.
      rewrite (findall_token a b c _ Ha Hb Hc). now rewrite IH.
  - rewrite replace_char by assumption.
    rewrite (findall_skip c s Hc), <- IH.
    apply findall_skip.
    destruct (N.eq_dec c lbrace) as [->|Hne].
    + rewrite token_at_lbrace in *.
      destruct (upto 3 (replace (tok3 x y z) new s)) eqn:E; [|reflexivity].
      apply upto_replace in E. congruence.
    + now apply token_at_not_lbrace.
Qed.

(** Where the token is matched, the replacement is put. *)
Lemma replace_puts s :
  In (tok3 x y z) (findall s) -> contains new (replace (tok3 x y z) new s).
Proof.
  induction s as [| a b c r Ha Hb Hc IH | c s Hc IH] using scan_ind.
  - intros [].
  - rewrite (findall_token a b c r Ha Hb Hc). intros Hin.
    destruct (list_eq_dec N.eq_dec [lbrace; a; b; c; rbrace] (tok3 x y z)) as [Eq|Ne].
    + inversion Eq; subst. rewrite replace_same.
      exists [], (replace (tok3 x y z) new r). reflexivity.
    + destruct Hin as [E|Hin]; [contradiction|].
      rewrite replace_other by assumption.
      destruct (IH Hin) as (p & q & E).
      exists ([lbrace; a; b; c; rbrace] ++ p), q. rewrite E. reflexivity.
  - rewrite (findall_skip c s Hc). intros Hin.
    rewrite replace_char by assumption.
    destruct (IH Hin) as (p & q & E).
    exists (c :: p), q. rewrite E. reflexivity.
Qed.

Lemma upto_app n : forall a w,
  upto n (a ++ w) = true -> upto n a = true \/ exists m, upto m w = true.
Proof.
  induction n as [|n IH]; intros [|c a] w H.
  - right. now exists 0%nat.
  - now left.
  - right. now exists (S n).
  - simpl in H. apply andb_true_iff in H as [Hc H].
    destruct (IH a w H) as [Ha|Hw]; [left|now right].
    simpl. now rewrite Hc.
Qed.

(** An inert text that occurs in the string is still there afterwards. *)
Lemma replace_keeps u s :
  inert u -> contains u s -> contains u (replace (tok3 x y z) new s).
Proof.
  intros [Hnl Hup] (a & b & ->).
  enough (exists a', replace (tok3 x y z) new (a ++ u ++ b) = a' ++ u ++ replace (tok3 x y z) new b)
    as [a' E] by (rewrite E; now exists a', (replace (tok3 x y z) new b)).
  pattern a. apply scan_ind; clear a;
    [| intros a1 b1 c1 r Ha Hb Hc IH | intros c a Hc IH].
  - exists []. unfold tok3. simpl. now rewrite replace_copy by assumption.
  - destruct IH as [a' IH]. simpl.
    destruct (list_eq_dec N.eq_dec [lbrace; a1; b1; c1; rbrace] (tok3 x y z)) as [Eq|Ne].
    + inversion Eq; subst. rewrite replace_same, IH.
      exists (new ++ a'). now rewrite <- app_assoc.
    + rewrite replace_other, IH by assumption.
      now exists (lbrace :: a1 :: b1 :: c1 :: rbrace :: a').
  - destruct IH as [a' IH]. simpl.
    rewrite replace_char, IH; [now exists (c :: a')|].
    destruct (N.eq_dec c lbrace) as [->|Hne]; [|now apply token_at_not_lbrace].
    rewrite token_at_lbrace in *.
    destruct (upto 3 (a ++ u ++ b)) eqn:E; [|reflexivity].
    apply upto_app in E as [E|[m E]]; [congruence|].
    now rewrite Hup in E.
Qed.

(** Resolving after one replacement is resolving with the replaced token
    added to the texts, the replacement going first. *)
Lemma resolve_replace f (s : pystr) :
  resolve f (replace (tok3 x y z) new s)
  = resolve (fun code => if str_eqb [x; y; z] code then Some new else f code) s.
Proof.
  induction s as [| a b c r Ha Hb Hc IH | c s Hc IH] using scan_ind.
  - unfold tok3. now rewrite replace_nil, !resolve_nil.
  - rewrite (resolve_token _ a b c r Ha Hb Hc).
    unfold str_eqb.
    destruct (list_eq_dec N.eq_dec [x; y; z] [a; b; c]) as [Eq|Ne].
    + injection Eq as <- <- <-.
      rewrite replace_same, resolve_copy by assumption.
      now rewrite IH.
    + rewrite replace_other by (trivial; unfold tok3; congruence).
      rewrite (resolve_token f a b c _ Ha Hb Hc). now rewrite IH.
  - rewrite replace_char by assumption.
    rewrite (resolve_skip _ c s Hc), <- IH.
    apply resolve_skip.
    destruct (N.eq_dec c lbrace) as [->|Hne].
    + rewrite token_at_lbrace in *.
      destruct (upto 3 (replace (tok3 x y z) new s)) eqn:E; [|reflexivity].
      apply upto_replace in E. congruence.
    + now apply token_at_not_lbrace.
Qed.

End OneToken.

Lemma upto_lbrace n s : upto n (lbrace :: s) = false.
Proof. now destruct n. Qed.

(** A token cannot reach into the token that follows it, so what stands
    before an occurrence of a token is resolved on its own. *)
Lemma resolve_app_token f (a : pystr) x y z r :
  resolve f (a ++ lbrace :: x :: y :: z :: rbrace :: r)
  = resolve f a ++ resolve f (lbrace :: x :: y :: z :: rbrace :: r).
Proof.
  induction a as [| a1 b1 c1 s Ha Hb Hc IH | c s Hc IH] using scan_ind.
  - now rewrite resolve_nil.
  - change ((lbrace :: a1 :: b1 :: c1 :: rbrace :: s) ++ lbrace :: x :: y :: z :: rbrace :: r)
      with (lbrace :: a1 :: b1 :: c1 :: rbrace :: (s ++ lbrace :: x :: y :: z :: rbrace :: r)).
    rewrite !(resolve_token f a1 b1 c1) by assumption.
    now rewrite IH, app_assoc.
  - change ((c :: s) ++ lbrace :: x :: y :: z :: rbrace :: r)
      with (c :: (s ++ lbrace :: x :: y :: z :: rbrace :: r)).
    rewrite (resolve_skip f c s Hc), resolve_skip; [now rewrite IH|].
    destruct (N.eq_dec c lbrace) as [->|Hne]; [|now apply token_at_not_lbrace].
    rewrite token_at_lbrace in *.
    destruct (upto 3 (s ++ lbrace :: x :: y :: z :: rbrace :: r)) eqn:E; [|reflexivity].
    apply upto_app in E as [E|[m E]]; [congruence|].
    now rewrite upto_lbrace in E.
Qed.

(** Every occurrence of a token that has a text is replaced by the text,
    what stands before and behind it being resolved likewise. *)
Lemma resolve_occurrence f a code b u :
  List.length code = 3%nat -> forallb is_upper code = true ->
  f code = Some u ->
  resolve f (a ++ token code ++ b) = resolve f a ++ u ++ resolve f b.
Proof.
  destruct code as [|x [|y [|z [|]]]]; try discriminate. intros _ H Hf.
  simpl in H. rewrite !andb_true_iff in H. destruct H as (Hx & Hy & Hz & _).
  change (token [x; y; z] ++ b) with (lbrace :: x :: y :: z :: rbrace :: b).
  rewrite resolve_app_token, (resolve_token f x y z b Hx Hy Hz), Hf.
  reflexivity.
Qed.

(** *** Matches, tokens and substrings *)

Lemma is_token_inv t :
  is_token t = true ->
  exists a b c,
    t = [lbrace; a; b; c; rbrace]
    /\ is_upper a = true /\ is_upper b = true /\ is_upper c = true.
Proof.
  unfold is_token. rewrite andb_true_iff, Nat.eqb_eq. intros [Hlen H].
  apply token_at_inv in H as (a & b & c & r & -> & Ha & Hb & Hc).
  destruct r; [|discriminate]. now exists a, b, c.
Qed.

Lemma is_token_intro a b c :
  is_upper a = true -> is_upper b = true -> is_upper c = true ->
  is_token [lbrace; a; b; c; rbrace] = true.
Proof.
  intros Ha Hb Hc. unfold is_token.
  now rewrite (token_at_intro a b c [] Ha Hb Hc).
Qed.

Lemma token_is_token code :
  List.length code = 3%nat -> forallb is_upper code = true ->
  is_token (token code) = true.
Proof.
  destruct code as [|a [|b [|c [|]]]]; try discriminate. intros _ H.
  simpl in H. rewrite !andb_true_iff in H. destruct H as (Ha & Hb & Hc & _).
  now apply is_token_intro.
Qed.

Lemma matches_cons c s :
  matches (c :: s)
  = if token_at (c :: s) then firstn 5 (c :: s) :: matches s else matches s.
Proof. reflexivity. Qed.

Lemma has_token_cons c s : has_token (c :: s) = token_at (c :: s) || has_token s.
Proof. reflexivity. Qed.

Lemma matches_In k s :
  In k (matches s) <->
  is_token k = true /\ exists a b, s = a ++ k ++ b.
Proof.
  split.
  - induction s as [|c s IH]; [intros []|].
    rewrite matches_cons. destruct (token_at (c :: s)) eqn:E.
    + intros [<-|Hin].
      * apply token_at_inv in E as (a & b & c' & r & -> & Ha & Hb & Hc).
        split; [now apply is_token_intro|]. now exists [], r.
      * destruct (IH Hin) as (Hk & a & b & ->).
        split; [exact Hk|]. now exists (c :: a), b.
    + intros Hin. destruct (IH Hin) as (Hk & a & b & ->).
      split; [exact Hk|]. now exists (c :: a), b.
  - intros (Hk & a & b & ->).
    apply is_token_inv in Hk as (x & y & z & -> & Hx & Hy & Hz).
    induction a as [|c a IH].
    + simpl app. rewrite matches_cons.
      rewrite (token_at_intro x y z b Hx Hy Hz). now left.
    + change ((c :: a) ++ [lbrace; x; y; z; rbrace] ++ b)
        with (c :: a ++ [lbrace; x; y; z; rbrace] ++ b).
      rewrite matches_cons. destruct (token_at _); [right|]; exact IH.
Qed.

(** The matches found are the tokens that occur in the string. *)
Lemma findall_In k s :
  In k (findall s) <-> is_token k = true /\ contains k s.
Proof. rewrite findall_matches. apply matches_In. Qed.

Lemma has_token_matches s : has_token s = false <-> matches s = [].
Proof.
  induction s as [|c s IH]; [tauto|].
  rewrite has_token_cons, matches_cons. destruct (token_at (c :: s)); simpl.
  - split; discriminate.
  - exact IH.
Qed.

(** [has_token] decides whether a match of the pattern occurs. *)
Lemma has_token_spec s :
  has_token s = true <-> exists k, is_token k = true /\ contains k s.
Proof.
  split.
  - intros H. destruct (matches s) as [|k l] eqn:E.
    + apply has_token_matches in E. congruence.
    + exists k. apply matches_In. rewrite E. now left.
  - intros (k & Hk & Hc). destruct (has_token s) eqn:E; [reflexivity|].
    apply has_token_matches in E.
    assert (Hin : In k (matches s)) by now apply matches_In.
    rewrite E in Hin. destruct Hin.
Qed.

Lemma findall_none s : has_token s = false <-> findall s = [].
Proof. rewrite findall_matches. apply has_token_matches. Qed.

(** *** The replacement text is inert *)

Lemma str_uint_no_lbrace d :
  ~ In lbrace (str (NilEmpty.string_of_uint d)).
Proof.
  induction d; simpl; [intros [] | intros [E|H]; [discriminate | auto] ..].
Qed.

Lemma format_d_no_lbrace n : ~ In lbrace (format_d n).
Proof.
  unfold format_d, NilZero.string_of_int.
  destruct (Z.to_int n) as [d|d]; unfold NilZero.string_of_uint.
  - destruct d; try apply str_uint_no_lbrace.
    simpl. intros [E|[]]. discriminate.
  - destruct d; simpl; intros [E|H]; try discriminate.
    + destruct H as [E|[]]. discriminate.
    + revert H. apply (str_uint_no_lbrace (Decimal.D0 d)).
    + revert H. apply (str_uint_no_lbrace (Decimal.D1 d)).
    + revert H. apply (str_uint_no_lbrace (Decimal.D2 d)).
    + revert H. apply (str_uint_no_lbrace (Decimal.D3 d)).
    + revert H. apply (str_uint_no_lbrace (Decimal.D4 d)).
    + revert H. apply (str_uint_no_lbrace (Decimal.D5 d)).
    + revert H. apply (str_uint_no_lbrace (Decimal.D6 d)).
    + revert H. apply (str_uint_no_lbrace (Decimal.D7 d)).
    + revert H. apply (str_uint_no_lbrace (Decimal.D8 d)).
    + revert H. apply (str_uint_no_lbrace (Decimal.D9 d)).
Qed.

Lemma is_hex_no_lbrace h : is_hex h = true -> ~ In lbrace h.
Proof.
  unfold is_hex. rewrite forallb_forall. intros H Hin.
  specialize (H _ Hin). discriminate.
Qed.

(** The text put for a token: the code, [#], the height, a space, the hash. *)
Lemma block_str_inert a b c h hash :
  is_upper a = true -> is_upper b = true -> is_upper c = true ->
  ~ In lbrace hash ->
  inert ([a; b; c] ++ str "#" ++ format_d h ++ str " " ++ hash).
Proof.
  intros Ha Hb Hc Hh. split.
  - rewrite !in_app_iff. intros [H|[H|[H|[H|H]]]].
    + destruct H as [E|[E|[E|[]]]]; subst.
      * now apply (is_upper_not_lbrace lbrace).
      * now apply (is_upper_not_lbrace lbrace).
      * now apply (is_upper_not_lbrace lbrace).
    + destruct H as [E|[]]. discriminate.
    + now apply (format_d_no_lbrace h).
    + destruct H as [E|[]]. discriminate.
    + now apply Hh.
  - intros n rest. simpl.
    pose proof (is_upper_not_rbrace a Ha) as Na.
    pose proof (is_upper_not_rbrace b Hb) as Nb.
    pose proof (is_upper_not_rbrace c Hc) as Nc.
    apply N.eqb_neq in Na, Nb, Nc.
    destruct n as [|[|[|[|n]]]]; simpl; rewrite ?Ha, ?Hb, ?Hc, ?Na, ?Nb, ?Nc;
      reflexivity.
Qed.

(** ** Computations *)

Lemma bind_unfold {A B} (m : M A) (k : A -> M B) tr :
  bind m k tr
  = match m tr with
    | (tr', Ok a) => k a tr'
    | (tr', Raise e) => (tr', Raise e)
    end.
Proof. reflexivity. Qed.

Lemma bind_ok {A B} (m : M A) (k : A -> M B) tr tr' a :
  m tr = (tr', Ok a) -> bind m k tr = k a tr'.
Proof. intros H. now rewrite bind_unfold, H. Qed.

Lemma bind_raise {A B} (m : M A) (k : A -> M B) tr tr' e :
  m tr = (tr', Raise e) -> bind m k tr = (tr', Raise e).
Proof. intros H. now rewrite bind_unfold, H. Qed.

Lemma emits_only_ret {A} P (a : A) : emits_only P (ret a).
Proof. intros tr. exists []. simpl. now rewrite app_nil_r. Qed.

Lemma emits_only_raise {A} P e : emits_only P (@raise A e).
Proof. intros tr. exists []. simpl. now rewrite app_nil_r. Qed.

Lemma emits_only_emit (P : event -> Prop) e : P e -> emits_only P (emit e).
Proof. intros H tr. exists [e]. simpl. auto. Qed.

Lemma emits_only_lift {A} P e (o : option A) : emits_only P (lift e o).
Proof. destruct o; [apply emits_only_ret | apply emits_only_raise]. Qed.

Lemma emits_only_bind {A B} P (m : M A) (k : A -> M B) :
  emits_only P m -> (forall a, emits_only P (k a)) -> emits_only P (bind m k).
Proof.
  intros Hm Hk tr. destruct (Hm tr) as (e1 & E1 & F1).
  rewrite bind_unfold. destruct (m tr) as [tr1 [a|e]]; simpl in E1; subst tr1.
  - destruct (Hk a (tr ++ e1)) as (e2 & E2 & F2).
    exists (e1 ++ e2). rewrite E2, app_assoc. split; [reflexivity|].
    apply Forall_app. now split.
  - now exists e1.
Qed.

Lemma emits_only_try_except {A} P (m : M A) h :
  emits_only P m ->
  (forall e k, h e = Some k -> emits_only P k) ->
  emits_only P (try_except m h).
Proof.
  intros Hm Hh tr. destruct (Hm tr) as (e1 & E1 & F1).
  unfold try_except. destruct (m tr) as [tr1 [a|e]]; simpl in E1; subst tr1.
  - now exists e1.
  - destruct (h e) as [k|] eqn:Ek; [|now exists e1].
    destruct (Hh e k Ek (tr ++ e1)) as (e2 & E2 & F2).
    exists (e1 ++ e2). rewrite E2, app_assoc. split; [reflexivity|].
    apply Forall_app. now split.
Qed.

Lemma emits_only_weaken {A} (P Q : event -> Prop) (m : M A) :
  (forall e, P e -> Q e) -> emits_only P m -> emits_only Q m.
Proof.
  intros H Hm tr. destruct (Hm tr) as (evs & E & F).
  exists evs. split; [exact E|]. revert F. apply Forall_impl. exact H.
Qed.

(** The events of a run whose final trace is known. *)
Lemma emits_only_run {A} P (m : M A) tr evs r :
  emits_only P m -> m tr = (tr ++ evs, r) -> Forall P evs.
Proof.
  intros Hm E. destruct (Hm tr) as (evs' & E' & F).
  rewrite E in E'. simpl in E'. apply app_inv_head in E'. now subst.
Qed.

Lemma emits_only_shape {A} P (m : M A) tr :
  emits_only P m -> exists evs r, m tr = (tr ++ evs, r) /\ Forall P evs.
Proof.
  intros Hm. destruct (Hm tr) as (evs & E & F).
  exists evs, (snd (m tr)). split; [|exact F].
  rewrite <- E. now destruct (m tr).
Qed.

Lemma raises_only_ret {A} Q (a : A) : raises_only Q (ret a).
Proof. intros tr tr' e H. discriminate H. Qed.

Lemma raises_only_raise {A} (Q : exn -> Prop) e : Q e -> raises_only Q (@raise A e).
Proof. intros H tr tr' e' E. injection E as _ <-. exact H. Qed.

Lemma raises_only_emit Q ev : raises_only Q (emit ev).
Proof. intros tr tr' e H. discriminate H. Qed.

Lemma raises_only_lift {A} (Q : exn -> Prop) e (o : option A) :
  Q e -> raises_only Q (lift e o).
Proof.
  intros H. destruct o; [apply raises_only_ret | now apply raises_only_raise].
Qed.

Lemma raises_only_bind {A B} Q (m : M A) (k : A -> M B) :
  raises_only Q m -> (forall a, raises_only Q (k a)) -> raises_only Q (bind m k).
Proof.
  intros Hm Hk tr tr' e. rewrite bind_unfold.
  destruct (m tr) as [tr1 [a|e1]] eqn:E.
  - apply Hk.
  - intros H. injection H as _ <-. exact (Hm _ _ _ E).
Qed.

Section ProgramFacts.

Variable env : Env.

(** *** The substitution loop *)

Lemma be_get_latest_run coin tr :
  get_latest_block_str env coin tr
  = (tr ++ [GetLatest coin (get_latest env tr coin)],
     match get_latest env tr coin with
     | Some a => Ok (coin ++ str "#" ++ format_d (fst a) ++ str " " ++ snd a)
     | None => Raise LookupFailure
     end).
Proof.
  unfold get_latest_block_str, be_get_latest. rewrite bind_unfold.
  now destruct (get_latest env tr coin).
Qed.

Lemma substitute_cons coin coins t tr :
  substitute env (coin :: coins) t tr
  = match get_latest env tr (firstn 3 (skipn 1 coin)) with
    | Some a =>
        substitute env coins
          (replace coin (firstn 3 (skipn 1 coin) ++ str "#" ++ format_d (fst a)
                         ++ str " " ++ snd a) t)
          (tr ++ [GetLatest (firstn 3 (skipn 1 coin)) (Some a)])
    | None => (tr ++ [GetLatest (firstn 3 (skipn 1 coin)) None], Raise LookupFailure)
    end.
Proof.
  change (substitute env (coin :: coins) t)
    with (bind (get_latest_block_str env (firstn 3 (skipn 1 coin)))
               (fun s => substitute env coins (replace coin s t))).
  rewrite bind_unfold, be_get_latest_run.
  now destruct (get_latest env tr (firstn 3 (skipn 1 coin))).
Qed.

Lemma substitute_emits coins : forall t, emits_only lookup_event (substitute env coins t).
Proof.
  induction coins as [|coin coins IH]; intros t tr.
  - exists []. simpl. now rewrite app_nil_r.
  - rewrite substitute_cons.
    destruct (get_latest env tr _) as [a|].
    + destruct (IH (replace coin (firstn 3 (skipn 1 coin) ++ str "#"
                      ++ format_d (fst a) ++ str " " ++ snd a) t)
                   (tr ++ [GetLatest (firstn 3 (skipn 1 coin)) (Some a)]))
        as (evs & E & F).
      exists (GetLatest (firstn 3 (skipn 1 coin)) (Some a) :: evs).
      rewrite E, <- app_assoc. split; [reflexivity|].
      constructor; [|exact F]. now eexists _, _.
    + eexists [_]. split; [reflexivity|].
      constructor; [|constructor]. now eexists _, _.
Qed.

Lemma filter_twice (coin : pystr) coins l :
  filter (fun k => negb (existsb (str_eqb k) coins))
         (filter (fun k => negb (str_eqb k coin)) l)
  = filter (fun k => negb (existsb (str_eqb k) (coin :: coins))) l.
Proof.
  induction l as [|k l IH]; [reflexivity|].
  simpl. destruct (str_eqb k coin); simpl; [exact IH|].
  destruct (existsb (str_eqb k) coins); simpl; now rewrite IH.
Qed.

(** What the loop over the matches [coins] makes of [t]: the matches of
    the substituted tokens are gone and no other match is touched; an
    inert text stays; and every token that was matched has been replaced
    by the text made of an answer of the block explorer. *)
Lemma substitute_spec coins : forall t tr evs t',
  Forall (fun k => is_token k = true) coins ->
  substitute env coins t tr = (tr ++ evs, Ok t') ->
  (forall c h hash, In (GetLatest c (Some (h, hash))) evs -> ~ In lbrace hash) ->
  findall t' = filter (fun k => negb (existsb (str_eqb k) coins)) (findall t)
  /\ (forall u, inert u -> contains u t -> contains u t')
  /\ (forall k, In k coins -> In k (findall t) ->
      exists h hash,
        In (GetLatest (firstn 3 (skipn 1 k)) (Some (h, hash))) evs
        /\ contains (firstn 3 (skipn 1 k) ++ str "#" ++ format_d h
                     ++ str " " ++ hash) t').
Proof.
  induction coins as [|coin coins IH]; intros t tr evs t' Htok Hrun Hhex.
  - simpl in Hrun. injection Hrun as _ <-.
    repeat split.
    + simpl. induction (findall t) as [|k l IHl]; [reflexivity|].
      simpl. now rewrite <- IHl.
    + auto.
    + intros k [].
  - apply Forall_cons_iff in Htok as [Hcoin Hrest].
    apply is_token_inv in Hcoin as (a & b & c & -> & Ha & Hb & Hc).
    rewrite substitute_cons in Hrun. simpl firstn in Hrun. simpl skipn in Hrun.
    change [lbrace; a; b; c; rbrace] with (tok3 a b c) in *.
    destruct (get_latest env tr [a; b; c]) as [[h hash]|] eqn:Eans;
      [|discriminate Hrun].
    simpl fst in Hrun. simpl snd in Hrun.
    set (new := [a; b; c] ++ str "#" ++ format_d h ++ str " " ++ hash) in *.
    set (ev := GetLatest [a; b; c] (Some (h, hash))) in *.
    destruct (emits_only_shape lookup_event
                (substitute env coins (replace (tok3 a b c) new t))
                (tr ++ [ev]) (substitute_emits coins _)) as (evs' & r & E & _).
    rewrite Hrun in E. injection E as E1 E2. subst r.
    rewrite <- app_assoc in E1. apply app_inv_head in E1. simpl in E1. subst evs.
    assert (Hnew : inert new).
    { apply block_str_inert; trivial. apply (Hhex [a; b; c] h). now left. }
    assert (Hrun' : substitute env coins (replace (tok3 a b c) new t)
                      (tr ++ [ev]) = ((tr ++ [ev]) ++ evs', Ok t'))
      by (rewrite Hrun, <- app_assoc; reflexivity).
    destruct (IH _ _ evs' t' Hrest Hrun') as (IH1 & IH2 & IH3).
    { intros c0 h0 hash0 Hin. apply (Hhex c0 h0). now right. }
    repeat split.
    + rewrite IH1.
      rewrite (findall_replace a b c Ha Hb Hc new (proj2 Hnew) (proj1 Hnew) t).
      apply filter_twice.
    + intros u Hu Hc0. apply IH2; [exact Hu|].
      now apply (replace_keeps a b c Ha Hb Hc new).
    + intros k Hk Hin.
      destruct (list_eq_dec N.eq_dec k (tok3 a b c)) as [->|Hne].
      * exists h, hash. split; [now left|].
        apply IH2; [exact Hnew|].
        now apply (replace_puts a b c Ha Hb Hc new).
      * destruct Hk as [Hk|Hk]; [congruence|].
        destruct (IH3 k Hk) as (h0 & hash0 & Hev & Hcont).
        { rewrite (findall_replace a b c Ha Hb Hc new (proj2 Hnew) (proj1 Hnew) t).
          apply filter_In. split; [exact Hin|].
          unfold str_eqb. now destruct (list_eq_dec N.eq_dec k _). }
        exists h0, hash0. split; [now right|exact Hcont].
Qed.

(** A run of the loop: every call is answered and the calls are those of
    the matches in order, or the run stops at the first call that fails. *)
Lemma substitute_shape coins : forall t tr,
  exists evs r,
    substitute env coins t tr = (tr ++ evs, r)
    /\ match r with
       | Ok _ => Forall answered evs /\ asked evs = map code_of coins
       | Raise e =>
           e = LookupFailure
           /\ exists before c rest,
               evs = before ++ [GetLatest c None]
               /\ Forall answered before
               /\ map code_of coins = asked before ++ c :: rest
       end.
Proof.
  induction coins as [|coin coins IH]; intros t tr.
  - exists [], (Ok t). simpl. rewrite app_nil_r. repeat split. constructor.
  - rewrite substitute_cons. fold (code_of coin).
    destruct (get_latest env tr (code_of coin)) as [a|] eqn:Ea.
    + destruct (IH (replace coin (code_of coin ++ str "#" ++ format_d (fst a)
                                  ++ str " " ++ snd a) t)
                   (tr ++ [GetLatest (code_of coin) (Some a)]))
        as (evs & r & E & H).
      exists (GetLatest (code_of coin) (Some a) :: evs), r.
      rewrite E, <- app_assoc. split; [reflexivity|].
      destruct r as [t'|e].
      * destruct H as [F A]. split.
        -- constructor; [now exists (code_of coin), a|exact F].
        -- simpl. now rewrite <- A.
      * destruct H as (-> & before & c & rest & -> & F & A).
        split; [reflexivity|].
        exists (GetLatest (code_of coin) (Some a) :: before), c, rest.
        repeat split.
        -- constructor; [now exists (code_of coin), a|exact F].
        -- simpl. now rewrite A.
    + exists [GetLatest (code_of coin) None], (Raise LookupFailure).
      split; [reflexivity|]. split; [reflexivity|].
      exists [], (code_of coin), (map code_of coins). repeat split. constructor.
Qed.

(** The loop over the matches does what one pass does with the first
    answer for every code: a token that is matched again finds nothing
    left to replace. *)
Lemma substitute_resolve coins : forall t tr evs t',
  Forall (fun k => is_token k = true) coins ->
  substitute env coins t tr = (tr ++ evs, Ok t') ->
  (forall c h hash, In (GetLatest c (Some (h, hash))) evs -> ~ In lbrace hash) ->
  t' = resolve (answer_text evs) t.
Proof.
  induction coins as [|coin coins IH]; intros t tr evs t' Htok Hrun Hhex.
  - simpl in Hrun. injection Hrun as Hevs <-.
    rewrite <- (app_nil_r tr) in Hevs at 1. apply app_inv_head in Hevs. subst evs.
    symmetry. now apply resolve_none.
  - apply Forall_cons_iff in Htok as [Hcoin Hrest].
    apply is_token_inv in Hcoin as (a & b & c & -> & Ha & Hb & Hc).
    rewrite substitute_cons in Hrun. simpl firstn in Hrun. simpl skipn in Hrun.
    change [lbrace; a; b; c; rbrace] with (tok3 a b c) in *.
    destruct (get_latest env tr [a; b; c]) as [[h hash]|] eqn:Eans;
      [|discriminate Hrun].
    simpl fst in Hrun. simpl snd in Hrun.
    set (new := [a; b; c] ++ str "#" ++ format_d h ++ str " " ++ hash) in *.
    set (ev := GetLatest [a; b; c] (Some (h, hash))) in *.
    destruct (emits_only_shape lookup_event
                (substitute env coins (replace (tok3 a b c) new t))
                (tr ++ [ev]) (substitute_emits coins _)) as (evs' & r & E & _).
    rewrite Hrun in E. injection E as E1 E2. subst r.
    rewrite <- app_assoc in E1. apply app_inv_head in E1. simpl in E1. subst evs.
    assert (Hnew : inert new).
    { apply block_str_inert; trivial. apply (Hhex [a; b; c] h). now left. }
    assert (Hrun' : substitute env coins (replace (tok3 a b c) new t)
                      (tr ++ [ev]) = ((tr ++ [ev]) ++ evs', Ok t'))
      by (rewrite Hrun, <- app_assoc; reflexivity).
    rewrite (IH _ _ evs' t' Hrest Hrun').
    2:{ intros c0 h0 hash0 Hin. apply (Hhex c0 h0). now right. }
    rewrite (resolve_replace a b c Ha Hb Hc new (proj2 Hnew) (proj1 Hnew)).
    apply resolve_ext. intros code. unfold answer_text, ev. simpl.
    unfold str_eqb. now destruct (list_eq_dec N.eq_dec [a; b; c] code) as [<-|].
Qed.

End ProgramFacts.

(** ** The timestamp builder *)

Lemma build_pszTimestamp_run env coinName template tr :
  build_pszTimestamp env coinName template tr
  = match substitute env (findall template) template tr with
    | (tr1, Ok t') =>
        (tr1 ++ [Verb (str "timestamp after substitution: " ++ t')],
         match encode_utf8 t' with
         | Some data => Ok (coinName ++ Blake2s.hexdigest data)
         | None => Raise ValueError
         end)
    | (tr1, Raise e) => (tr1, Raise e)
    end.
Proof.
  unfold build_pszTimestamp. rewrite bind_unfold.
  destruct (substitute env (findall template) template tr) as [tr1 [t'|e]];
    [|reflexivity].
  rewrite bind_unfold. unfold verb, emit. cbv beta iota.
  rewrite bind_unfold. now destruct (encode_utf8 t').
Qed.

(** C4. For every coin name and every template in which no match of the
    token pattern occurs, [build_pszTimestamp] returns the coin name followed
    by the lowercase hexadecimal BLAKE2s digest of the UTF-8 bytes of the
    template (and raises where the template has no UTF-8 encoding); the only
    event of the call is the log line, so the block explorer is not called and
    the result does not depend on the environment. *)
Theorem build_pszTimestamp_without_token env coinName template tr :
  has_token template = false ->
  build_pszTimestamp env coinName template tr
  = (tr ++ [Verb (str "timestamp after substitution: " ++ template)],
     match encode_utf8 template with
     | Some data => Ok (coinName ++ Blake2s.hexdigest data)
     | None => Raise ValueError
     end).
Proof.
  intros H. apply findall_none in H.
  rewrite build_pszTimestamp_run, H. reflexivity.
Qed.

Lemma build_pszTimestamp_without_token_witness :
  has_token (str "Known unknown") = false
  /\ build_pszTimestamp (example_env None (Raise Interrupted))
       (str "Zcash") (str "Known unknown") []
     = ([Verb (str "timestamp after substitution: Known unknown")],
        Ok (str "Zcash" ++ Blake2s.hexdigest
              (map byte_of_N (str "Known unknown")))).
Proof.
  split; [reflexivity|].
  rewrite (build_pszTimestamp_without_token
             (example_env None (Raise Interrupted))
             (str "Zcash") (str "Known unknown") []); reflexivity.
Defined.

Lemma filter_members (L l : list pystr) :
  (forall k, In k l -> In k L) ->
  filter (fun k => negb (existsb (str_eqb k) L)) l = [].
Proof.
  induction l as [|k l IH]; intros Hin; [reflexivity|].
  simpl. destruct (existsb (str_eqb k) L) eqn:Ek.
  - simpl. apply IH. intros q Hq. apply Hin. now right.
  - exfalso. apply Bool.not_true_iff_false in Ek. apply Ek.
    apply existsb_exists. exists k. split; [apply Hin; now left|].
    unfold str_eqb. now destruct (list_eq_dec N.eq_dec k k).
Qed.

Lemma first_answer_In evs code a :
  first_answer evs code = Some a -> In (GetLatest code (Some a)) evs.
Proof.
  induction evs as [|e evs IH]; [discriminate|].
  destruct e as [ | | | | | | c o | | | | | ]; simpl;
    try (intros H; right; now apply IH).
  destruct o as [a0|]; [|intros H; right; now apply IH].
  unfold str_eqb. destruct (list_eq_dec N.eq_dec c code) as [->|_]; intros H.
  - injection H as ->. now left.
  - right. now apply IH.
Qed.

Lemma first_answer_asked evs code :
  Forall answered evs -> In code (asked evs) ->
  exists a, first_answer evs code = Some a.
Proof.
  induction 1 as [|e evs (c & a & ->) F IH]; [intros []|].
  simpl. intros [<-|Hin].
  - exists a. unfold str_eqb. now destruct (list_eq_dec N.eq_dec c c).
  - destruct (str_eqb c code); [now exists a|auto].
Qed.

(** C5, as the code has it. When [build_pszTimestamp] returns and no hash
    that the block explorer gave contains an opening brace (a hexadecimal
    hash never does), the substituted template, which is the one logged and
    digested, is the template resolved in one pass with the first answer
    for every code; no match of the token pattern is left in it; and for
    every three-letter code whose token occurs in the template, the block
    explorer was asked for that code and every occurrence of the token is
    replaced by the text [CODE#height hash] of the first answer for it, so
    that the text occurs in the substituted template and the token does
    not. *)
Theorem build_pszTimestamp_substitutes env coinName template tr evs payload :
  build_pszTimestamp env coinName template tr = (tr ++ evs, Ok payload) ->
  (forall c h hash, In (GetLatest c (Some (h, hash))) evs -> ~ In lbrace hash) ->
  exists t' lookups data,
    evs = lookups ++ [Verb (str "timestamp after substitution: " ++ t')]
    /\ Forall answered lookups
    /\ encode_utf8 t' = Some data
    /\ payload = coinName ++ Blake2s.hexdigest data
    /\ t' = resolve (answer_text lookups) template
    /\ has_token t' = false
    /\ forall code,
        List.length code = 3%nat -> forallb is_upper code = true ->
        contains (token code) template ->
        (exists a,
            first_answer lookups code = Some a
            /\ In (GetLatest code (Some a)) lookups
            /\ (forall p q,
                   template = p ++ token code ++ q ->
                   t' = resolve (answer_text lookups) p ++ block_str code a
                        ++ resolve (answer_text lookups) q)
            /\ contains (block_str code a) t')
        /\ ~ contains (token code) t'.
Proof.
  intros Hrun Hhex. rewrite build_pszTimestamp_run in Hrun.
  destruct (substitute_shape env (findall template) template tr)
    as (lookups & r & E & H).
  rewrite E in Hrun. destruct r as [t'|e]; [|discriminate Hrun].
  destruct H as [Fans Hasked].
  destruct (encode_utf8 t') as [data|] eqn:Edata; [|discriminate Hrun].
  injection Hrun as Hevs Hpay.
  rewrite <- app_assoc in Hevs. apply app_inv_head in Hevs. subst evs payload.
  assert (Htok : Forall (fun k => is_token k = true) (findall template)).
  { apply Forall_forall. intros k Hk. now apply findall_In in Hk. }
  assert (Hhex' : forall c h hash,
             In (GetLatest c (Some (h, hash))) lookups -> ~ In lbrace hash).
  { intros c h hash Hin. apply (Hhex c h). apply in_or_app. now left. }
  pose proof (substitute_resolve env _ _ _ _ _ Htok E Hhex') as Hres.
  destruct (substitute_spec env (findall template) template tr lookups t' Htok E Hhex')
    as (H1 & _ & _).
  assert (Hnone : has_token t' = false).
  { apply findall_none. rewrite H1. apply filter_members. auto. }
  exists t', lookups, data.
  do 6 (split; [trivial|]).
  intros code Hlen Hup Hcont.
  assert (Hk : is_token (token code) = true) by now apply token_is_token.
  split.
  - assert (Hin : In code (asked lookups)).
    { rewrite Hasked.
      replace code with (code_of (token code))
        by (destruct code as [|a [|b [|c [|]]]]; try discriminate; reflexivity).
      apply in_map. apply findall_In. now split. }
    destruct (first_answer_asked lookups code Fans Hin) as (a & Ha).
    assert (Hocc : forall p q,
               template = p ++ token code ++ q ->
               t' = resolve (answer_text lookups) p ++ block_str code a
                    ++ resolve (answer_text lookups) q).
    { intros p q ->. rewrite Hres. apply resolve_occurrence; trivial.
      unfold answer_text. now rewrite Ha. }
    exists a. split; [exact Ha|]. split; [now apply first_answer_In|].
    split; [exact Hocc|].
    destruct Hcont as (p & q & Ht). rewrite (Hocc p q Ht).
    now eexists _, _.
  - intros Hc. apply Bool.not_true_iff_false in Hnone. apply Hnone.
    apply has_token_spec. exists (token code). now split.
Qed.

Lemma build_pszTimestamp_substitutes_witness :
  let env := example_env (Some (436254, str "00ab")) (Raise Interrupted) in
  let evs :=
    [GetLatest (str "BTC") (Some (436254, str "00ab"));
     GetLatest (str "BTC") (Some (436254, str "00ab"));
     Verb (str "timestamp after substitution: aBTC#436254 00abbBTC#436254 00ab")] in
  let payload :=
    str "Zcash" ++ Blake2s.hexdigest
                     (map byte_of_N (str "aBTC#436254 00abbBTC#436254 00ab")) in
  build_pszTimestamp env (str "Zcash") (str "a{BTC}b{BTC}") [] = ([] ++ evs, Ok payload)
  /\ (forall c h hash, In (GetLatest c (Some (h, hash))) evs -> ~ In lbrace hash)
  /\ exists t' lookups data,
      evs = lookups ++ [Verb (str "timestamp after substitution: " ++ t')]
      /\ Forall answered lookups
      /\ encode_utf8 t' = Some data
      /\ payload = str "Zcash" ++ Blake2s.hexdigest data
      /\ t' = resolve (answer_text lookups) (str "a{BTC}b{BTC}")
      /\ has_token t' = false
      /\ forall code,
          List.length code = 3%nat -> forallb is_upper code = true ->
          contains (token code) (str "a{BTC}b{BTC}") ->
          (exists a,
              first_answer lookups code = Some a
              /\ In (GetLatest code (Some a)) lookups
              /\ (forall p q,
                     str "a{BTC}b{BTC}" = p ++ token code ++ q ->
                     t' = resolve (answer_text lookups) p ++ block_str code a
                          ++ resolve (answer_text lookups) q)
              /\ contains (block_str code a) t')
          /\ ~ contains (token code) t'.
Proof.
  intros env evs payload.
  assert (Hrun : build_pszTimestamp env (str "Zcash") (str "a{BTC}b{BTC}") []
                 = ([] ++ evs, Ok payload)) by (vm_compute; reflexivity).
  assert (Hhex : forall c h hash,
             In (GetLatest c (Some (h, hash))) evs -> ~ In lbrace hash).
  { intros c h hash [E|[E|[E|[]]]]; try discriminate E;
      injection E as _ _ <-; intros [F|[F|[F|[F|[]]]]]; discriminate F. }
  split; [exact Hrun|]. split; [exact Hhex|].
  exact (build_pszTimestamp_substitutes env (str "Zcash") (str "a{BTC}b{BTC}")
           [] evs payload Hrun Hhex).
Defined.

(** C5, as the specification words it, fails when the block explorer
    answers with a hash that is itself a token: the text put for [{BTC}]
    then ends with the token, which the loop does not meet again, and the
    substituted template that is logged and digested contains it. *)
Lemma build_pszTimestamp_token_in_hash :
  exists payload,
    build_pszTimestamp (example_env (Some (1, str "{BTC}")) (Raise Interrupted))
      (str "Zcash") (str "{BTC}") []
    = ([GetLatest (str "BTC") (Some (1, str "{BTC}"));
        Verb (str "timestamp after substitution: BTC#1 {BTC}")], Ok payload)
    /\ contains (token (str "BTC")) (str "BTC#1 {BTC}")
    /\ has_token (str "BTC#1 {BTC}") = true.
Proof.
  eexists. split; [vm_compute; reflexivity|].
  split; [|reflexivity]. now exists (str "BTC#1 "), [].
Qed.

(** ** The nonce parser *)

Lemma unhexlify_hex n : forall s,
  List.length s = (2 * n)%nat -> is_hex s = true ->
  exists b, unhexlify s = Some b /\ List.length b = n.
Proof.
  induction n as [|n IH]; intros s Hlen Hhex.
  - destruct s; [|discriminate]. now exists [].
  - destruct s as [|h [|l s]]; simpl in Hlen; try lia.
    assert (Hs : List.length s = (2 * n)%nat) by lia.
    unfold is_hex in Hhex. simpl in Hhex.
    destruct (hexval h) as [a|] eqn:Eh; [|discriminate].
    destruct (hexval l) as [b|] eqn:El; [|discriminate].
    destruct (IH s Hs Hhex) as (r & Er & Hr).
    exists (byte_of_N (16 * a + b) :: r). simpl. rewrite Eh, El, Er.
    split; [reflexivity|]. simpl. now rewrite Hr.
Qed.

Lemma lx_hex n s :
  List.length s = (2 * n)%nat -> is_hex s = true ->
  exists b, lx s = Some b /\ List.length b = n.
Proof.
  intros Hlen Hhex. destruct (unhexlify_hex n s Hlen Hhex) as (b & E & Hb).
  exists (rev b). unfold lx. rewrite E. split; [reflexivity|].
  now rewrite length_rev.
Qed.

(** Up to 32 hexadecimal digits are padded with zeros on the left to 64
    digits and give 32 bytes, without a warning. *)
Lemma lbytes32_at_most_32 s tr :
  (List.length s <= 32)%nat -> is_hex s = true ->
  exists b,
    lbytes32 s tr = (tr, Ok b)
    /\ lx (repeat 48%N (64 - List.length s) ++ s) = Some b
    /\ List.length b = 32%nat.
Proof.
  intros Hlen Hhex. unfold lbytes32.
  destruct (Nat.ltb_spec 32 (List.length s)) as [Hlt|_]; [lia|].
  destruct (lx_hex 32 (repeat 48%N (64 - List.length s) ++ s)) as (b & E & Hb).
  - rewrite length_app, repeat_length. unfold char in *. lia.
  - unfold is_hex in *. rewrite forallb_app. apply andb_true_iff.
    split; [|exact Hhex].
    apply forallb_forall. intros c Hc. apply repeat_spec in Hc. now subst c.
  - exists b. rewrite E. now repeat split.
Qed.

(** From 64 hexadecimal digits on, the first 64 give 32 bytes, with the
    warning. *)
Lemma lbytes32_at_least_64 s tr :
  (64 <= List.length s)%nat -> is_hex (firstn 64 s) = true ->
  exists b,
    lbytes32 s tr
    = (tr ++ [Warn (str "Nonce can be at most 32 bytes long, is "
                    ++ format_d (Z.of_nat (List.length s))
                    ++ str "! Will be truncated")], Ok b)
    /\ lx (firstn 64 s) = Some b
    /\ List.length b = 32%nat.
Proof.
  intros Hlen Hhex. unfold lbytes32.
  destruct (Nat.ltb_spec 32 (List.length s)) as [_|Hle]; [|lia].
  destruct (lx_hex 32 (firstn 64 s)) as (b & E & Hb); trivial.
  - rewrite length_firstn. lia.
  - exists b. rewrite bind_unfold. unfold warn, emit. rewrite E.
    now repeat split.
Qed.

(** C1. A nonce of 34 hexadecimal digits, which is at most 64 characters
    long, takes the truncating branch: the warning is given and the result
    is the 17 bytes of the digits, not 32 bytes. *)
Theorem lbytes32_of_34_digits :
  exists b,
    lbytes32 (str "0123456789abcdef0123456789abcdef01") []
    = ([Warn (str "Nonce can be at most 32 bytes long, is 34! Will be truncated")],
       Ok b)
    /\ lx (str "0123456789abcdef0123456789abcdef01") = Some b
    /\ List.length b = 17%nat.
Proof.
  eexists. split; [vm_compute; reflexivity|]. split; reflexivity.
Qed.

(** ** The header builder *)

Lemma pick_extranonce_given args e :
  extranonce args = Some e -> e <> 0 -> pick_extranonce args = e.
Proof.
  intros H Hne. unfold pick_extranonce. rewrite H.
  now destruct (Z.eqb_spec e 0).
Qed.

Lemma pick_extranonce_absent args :
  extranonce args = None -> pick_extranonce args = bits args.
Proof. intros H. unfold pick_extranonce. now rewrite H. Qed.

(** C2. With the override [-E 0] the extranonce is not 0 but the
    difficulty bits: the script starts with the push of 0x1f07ffff, where the
    encoding of 0 would be the single byte 0x00. *)
Theorem extranonce_zero_gives_bits :
  pick_extranonce (example_args default_timestamp (Some (str "x")) (Some 0))
  = 0x1f07ffff
  /\ build_scriptSig
       (pick_extranonce (example_args default_timestamp (Some (str "x")) (Some 0)))
       (str "x") []
     = ([], Ok [x04; xff; xff; x07; x1f; x01; x04; x01; x78])
  /\ coerce_int 0 = Some [x00].
Proof. repeat split. Qed.

Lemma pick_pszTimestamp_given env args c p tr :
  pszTimestamp args = Some (c :: p) ->
  pick_pszTimestamp env args tr = (tr, Ok (c :: p)).
Proof. intros H. unfold pick_pszTimestamp. now rewrite H. Qed.

Lemma pick_pszTimestamp_absent env args tr :
  pszTimestamp args = None ->
  pick_pszTimestamp env args tr
  = build_pszTimestamp env (coinname args) (timestamp args) tr.
Proof. intros H. unfold pick_pszTimestamp. now rewrite H. Qed.

(** C3. With the empty string as override, [build_pszTimestamp] is
    called all the same: the block explorer is asked for the token of the
    template and the payload is the coin name with a digest, not the empty
    string. *)
Theorem empty_pszTimestamp_is_rebuilt :
  let env := example_env (Some (436254, str "00ab")) (Raise Interrupted) in
  let args := example_args (str "{BTC}") (Some []) None in
  pick_pszTimestamp env args []
  = build_pszTimestamp env (str "Zcash") (str "{BTC}") []
  /\ events (pick_pszTimestamp env args)
     = [GetLatest (str "BTC") (Some (436254, str "00ab"));
        Verb (str "timestamp after substitution: BTC#436254 00ab")]
  /\ outcome (pick_pszTimestamp env args)
     = Ok (str "Zcash" ++ Blake2s.hexdigest (map byte_of_N (str "BTC#436254 00ab"))).
Proof. repeat split. Qed.

Lemma build_scriptSig_pure e p tr :
  build_scriptSig e p tr = (tr, snd (build_scriptSig e p [])).
Proof.
  unfold build_scriptSig, bind, lift, ret, raise.
  destruct (coerce_int e); [|reflexivity].
  destruct (coerce_bytes [x04]); [|reflexivity].
  destruct (encode_utf8 p) as [d|]; [|reflexivity].
  destruct (coerce_bytes d); reflexivity.
Qed.

(** With a non-empty override the header is made of the arguments alone:
    the block explorer is not asked and the same arguments give the same
    header in every environment. *)
Lemma header_of_given_payload env1 env2 args c p tr1 tr2 :
  pszTimestamp args = Some (c :: p) ->
  snd (build_EquihashInputHeader env1 args tr1)
  = snd (build_EquihashInputHeader env2 args tr2)
  /\ exists evs,
      fst (build_EquihashInputHeader env1 args tr1) = tr1 ++ evs
      /\ Forall (fun e => exists m, e = Verb m) evs.
Proof.
  intros H. unfold build_EquihashInputHeader.
  rewrite !bind_unfold, !(pick_pszTimestamp_given _ args c p _ H).
  rewrite !bind_unfold. unfold verb, emit. cbv beta iota.
  rewrite !bind_unfold.
  rewrite (build_scriptSig_pure _ _ (tr1 ++ _)), (build_scriptSig_pure _ _ (tr2 ++ _)).
  destruct (snd (build_scriptSig (pick_extranonce args) (c :: p) [])) as [sig|e];
    [|split; [reflexivity|eexists [_]; split; [reflexivity|repeat constructor; eauto]]].
  rewrite !bind_unfold. unfold build_scriptPubKey. rewrite !bind_unfold.
  destruct (coerce_bytes (pubkey args)) as [pk|]; simpl;
    [|split; [reflexivity|eexists [_]; split; [reflexivity|repeat constructor; eauto]]].
  rewrite !bind_unfold.
  destruct (GetTxid sig (value args) (pk ++ [OP_CHECKSIG])) as [txid|]; simpl;
    [|split; [reflexivity|eexists [_]; split; [reflexivity|repeat constructor; eauto]]].
  split; [reflexivity|].
  eexists [_; _]. rewrite <- app_assoc. split; [reflexivity|].
  repeat constructor; eauto.
Qed.

(** C7. Two runs with the same arguments, the override being the empty
    string, give headers with different merkle roots when the block explorer
    answers differently. *)
Theorem header_of_empty_payload_varies :
  let args := example_args (str "{BTC}") (Some []) None in
  exists h1 h2,
    outcome (build_EquihashInputHeader
               (example_env (Some (436254, str "00ab")) (Raise Interrupted)) args)
    = Ok h1
    /\ outcome (build_EquihashInputHeader
                  (example_env (Some (436255, str "00cd")) (Raise Interrupted)) args)
       = Ok h2
    /\ hashMerkleRoot h1 <> hashMerkleRoot h2.
Proof.
  eexists. eexists. split; [vm_compute; reflexivity|].
  split; [vm_compute; reflexivity|]. discriminate.
Qed.

(** *** The input script *)

Lemma encode_op_pushdata_prefix d :
  (N.of_nat (List.length d) <= 0xffffffff)%N ->
  encode_op_pushdata d = Some (push_prefix (N.of_nat (List.length d)) ++ d).
Proof.
  intros H. unfold encode_op_pushdata, push_prefix.
  destruct (N.of_nat (List.length d) <? 0x4c)%N; [reflexivity|].
  destruct (N.of_nat (List.length d) <=? 0xff)%N; [reflexivity|].
  destruct (N.of_nat (List.length d) <=? 0xffff)%N; [reflexivity|].
  destruct (N.leb_spec (N.of_nat (List.length d)) 0xffffffff); [reflexivity|lia].
Qed.

(** C6, as the code has it. For every extranonce and every payload that
    a push can hold, the input script is: the extranonce as a script number,
    which is the single opcode 0x00 for 0, 0x4f for -1 and 0x50 + n for n from
    1 to 16, and for every other number the push of its little-endian minimal
    encoding, a length prefix and the encoding; the two bytes 0x01 0x04,
    which push the constant byte 4; and the push of the UTF-8 bytes of the
    payload, a length prefix and the bytes.  The length prefix of a push is
    the single byte of the length below 76 bytes only; up to 255 bytes it is
    0x4c and one length byte, up to 65535 bytes 0x4d and two length bytes,
    beyond that 0x4e and four. *)
Theorem scriptSig_layout e payload data tr :
  encode_utf8 payload = Some data ->
  (N.of_nat (List.length data) <= 0xffffffff)%N ->
  (N.of_nat (List.length (bn2vch e)) <= 0xffffffff)%N ->
  exists number,
    build_scriptSig e payload tr
    = (tr, Ok (number ++ [x01; x04]
               ++ push_prefix (N.of_nat (List.length data)) ++ data))
    /\ (e = 0 -> number = [x00])
    /\ (e = -1 -> number = [x4f])
    /\ (1 <= e <= 16 -> number = [byte_of_Z (0x50 + e)])
    /\ (~ (-1 <= e <= 16) ->
        number = push_prefix (N.of_nat (List.length (bn2vch e))) ++ bn2vch e)
    /\ (forall n, (n < 76)%N -> push_prefix n = [byte_of_N n])
    /\ (forall n, (76 <= n <= 255)%N -> push_prefix n = [x4c; byte_of_N n])
    /\ (forall n, (256 <= n <= 65535)%N -> push_prefix n = x4d :: le_bytes 2 n)
    /\ (forall n, (65535 < n)%N -> push_prefix n = x4e :: le_bytes 4 n).
Proof.
  intros Hdata Hlen Hvch.
  assert (Hrun : forall number,
             coerce_int e = Some number ->
             build_scriptSig e payload tr
             = (tr, Ok (number ++ [x01; x04]
                        ++ push_prefix (N.of_nat (List.length data)) ++ data))).
  { intros number Hint. unfold build_scriptSig, bind, lift, ret, raise.
    rewrite Hint, Hdata. unfold coerce_bytes at 2.
    rewrite (encode_op_pushdata_prefix data Hlen).
    change (coerce_bytes [x04]) with (Some [x01; x04]).
    reflexivity. }
  assert (Hprefix :
            (forall n, (n < 76)%N -> push_prefix n = [byte_of_N n])
            /\ (forall n, (76 <= n <= 255)%N -> push_prefix n = [x4c; byte_of_N n])
            /\ (forall n, (256 <= n <= 65535)%N -> push_prefix n = x4d :: le_bytes 2 n)
            /\ (forall n, (65535 < n)%N -> push_prefix n = x4e :: le_bytes 4 n)).
  { repeat split; intros n H; unfold push_prefix;
      destruct (N.ltb_spec n 0x4c); try lia; try reflexivity;
      destruct (N.leb_spec n 0xff); try lia; try reflexivity;
      destruct (N.leb_spec n 0xffff); try lia; reflexivity. }
  unfold coerce_int in Hrun.
  destruct (Z.leb_spec 0 e) as [H0|H0]; destruct (Z.leb_spec e 16) as [H16|H16];
    cbn [andb] in Hrun.
  - exists [encode_op_n e]. split; [now apply Hrun|].
    unfold encode_op_n.
    refine (conj _ (conj _ (conj _ (conj _ Hprefix)))); intros H.
    + now subst e.
    + lia.
    + destruct (Z.eqb_spec e 0) as [->|Hne]; [lia|]. do 2 f_equal. lia.
    + lia.
  - destruct (Z.eqb_spec e (-1)) as [->|_]; [lia|].
    exists (push_prefix (N.of_nat (List.length (bn2vch e))) ++ bn2vch e).
    split; [apply Hrun, encode_op_pushdata_prefix, Hvch|].
    refine (conj _ (conj _ (conj _ (conj _ Hprefix)))); intros H;
      first [lia | reflexivity].
  - destruct (Z.eqb_spec e (-1)) as [->|Hne].
    + exists [OP_1NEGATE]. split; [now apply Hrun|].
      refine (conj _ (conj _ (conj _ (conj _ Hprefix)))); intros H;
        first [lia | reflexivity].
    + exists (push_prefix (N.of_nat (List.length (bn2vch e))) ++ bn2vch e).
      split; [apply Hrun, encode_op_pushdata_prefix, Hvch|].
      refine (conj _ (conj _ (conj _ (conj _ Hprefix)))); intros H;
        first [lia | reflexivity].
  - lia.
Qed.

Lemma scriptSig_layout_witness :
  build_scriptSig 0x1f07ffff (str "Zcash") []
  = ([], Ok [x04; xff; xff; x07; x1f; x01; x04; x05; x5a; x63; x61; x73; x68])
  /\ build_scriptSig 7 (str "Zcash") []
     = ([], Ok [x57; x01; x04; x05; x5a; x63; x61; x73; x68]).
Proof.
  split.
  - destruct (scriptSig_layout 0x1f07ffff (str "Zcash")
                (map byte_of_N (str "Zcash")) [])
      as (number & Hrun & _ & _ & _ & Hnum & _);
      [reflexivity | vm_compute; discriminate | vm_compute; discriminate |].
    rewrite Hrun, Hnum by lia. reflexivity.
  - destruct (scriptSig_layout 7 (str "Zcash") (map byte_of_N (str "Zcash")) [])
      as (number & Hrun & _ & _ & Hnum & _);
      [reflexivity | vm_compute; discriminate | vm_compute; discriminate |].
    rewrite Hrun, Hnum by lia. reflexivity.
Defined.

(** C6, as the specification words it, fails for the difficulty bits
    0x1f07ffff and a payload of 300 letters: the script is longer than the
    encoding, one byte and the payload, and the length of the payload takes
    the two bytes 0x2c 0x01 behind the opcode 0x4d. *)
Lemma scriptSig_of_long_payload :
  exists script,
    build_scriptSig 0x1f07ffff (repeat 97%N 300) [] = ([], Ok script)
    /\ firstn 10 script = [x04; xff; xff; x07; x1f; x01; x04; x4d; x2c; x01]
    /\ ~ claimed_scriptSig 0x1f07ffff (repeat 97%N 300) script.
Proof.
  eexists. split; [vm_compute; reflexivity|]. split; [reflexivity|].
  intros (len & data & Hdata & Hscript).
  apply (f_equal (@List.length byte)) in Hscript.
  assert (Hlen : List.length data = 300%nat).
  { vm_compute in Hdata. injection Hdata as <-. reflexivity. }
  rewrite !length_app, Hlen in Hscript. vm_compute in Hscript. discriminate.
Qed.

(** ** Argument processing *)

Lemma bind_inv {A B} (m : M A) (k : A -> M B) tr tr' b :
  bind m k tr = (tr', Ok b) ->
  exists tr1 a, m tr = (tr1, Ok a) /\ k a tr1 = (tr', Ok b).
Proof.
  rewrite bind_unfold. destruct (m tr) as [tr1 [a|e]]; [|discriminate].
  intros H. now exists tr1, a.
Qed.

Lemma parser_error_emits {A} : emits_only parser_event (@parser_error A).
Proof.
  apply emits_only_bind; [now apply emits_only_emit|].
  intros _. apply emits_only_raise.
Qed.

Lemma option_arg_emits {A} given (d : A) type allowed :
  (forall s, emits_only parser_event (type s)) ->
  emits_only parser_event (option_arg given d type allowed).
Proof.
  intros Htype. destruct given as [s|]; simpl; [|apply emits_only_ret].
  apply emits_only_bind.
  - apply emits_only_try_except; [apply Htype|].
    intros e k Hk. destruct e; try discriminate.
    injection Hk as <-. apply parser_error_emits.
  - intros v. destruct (allowed v); [apply emits_only_ret|apply parser_error_emits].
Qed.

Lemma lbytes32_emits s : emits_only parser_event (lbytes32 s).
Proof.
  unfold lbytes32. destruct (32 <? List.length s)%nat; [|apply emits_only_lift].
  apply emits_only_bind; [now apply emits_only_emit|].
  intros _. apply emits_only_lift.
Qed.

Section Parser.

Variable env : Env.

Lemma smartint_emits s : emits_only parser_event (smartint env s).
Proof. unfold smartint. destruct (startswith _ _); apply emits_only_lift. Qed.

Lemma parser_emits cl : emits_only parser_event (parser_parse_args env cl).
Proof.
  unfold parser_parse_args.
  repeat (apply emits_only_bind;
          [apply option_arg_emits; intros s;
           first [ apply emits_only_ret | apply emits_only_lift
                 | apply smartint_emits | apply lbytes32_emits
                 | apply emits_only_bind;
                   [apply smartint_emits | intros; apply emits_only_ret] ]
          | intros ?]).
  apply emits_only_ret.
Qed.

Lemma parser_error_raises {A} : raises_only (eq (SystemExit 2)) (@parser_error A).
Proof.
  apply raises_only_bind; [apply raises_only_emit|].
  intros _. now apply raises_only_raise.
Qed.

Lemma option_arg_raises {A} given (d : A) type allowed :
  (forall s, raises_only (eq ValueError) (type s)) ->
  raises_only (eq (SystemExit 2)) (option_arg given d type allowed).
Proof.
  intros Htype. destruct given as [s|]; simpl; [|apply raises_only_ret].
  apply raises_only_bind.
  - intros tr tr' e. unfold try_except.
    destruct (type s tr) as [tr1 [a|e1]] eqn:E; [discriminate|].
    rewrite <- (Htype s _ _ _ E). apply parser_error_raises.
  - intros v. destruct (allowed v); [apply raises_only_ret|apply parser_error_raises].
Qed.

Lemma smartint_raises s : raises_only (eq ValueError) (smartint env s).
Proof. unfold smartint. destruct (startswith _ _); now apply raises_only_lift. Qed.

Lemma lbytes32_raises s : raises_only (eq ValueError) (lbytes32 s).
Proof.
  unfold lbytes32. destruct (32 <? List.length s)%nat; [|now apply raises_only_lift].
  apply raises_only_bind; [apply raises_only_emit|].
  intros _. now apply raises_only_lift.
Qed.

(** The parser ends only by returning or through [parser.error]. *)
Lemma parser_raises cl : raises_only (eq (SystemExit 2)) (parser_parse_args env cl).
Proof.
  unfold parser_parse_args.
  repeat (apply raises_only_bind;
          [apply option_arg_raises; intros s;
           first [ apply raises_only_ret | now apply raises_only_lift
                 | apply smartint_raises | apply lbytes32_raises
                 | apply raises_only_bind;
                   [apply smartint_raises | intros; apply raises_only_ret] ]
          | intros ?]).
  apply raises_only_ret.
Qed.

Lemma option_arg_choice given d choices tr tr' v :
  option_arg given d ret (one_of choices) tr = (tr', Ok v) ->
  one_of choices d = true ->
  v = match given with Some s => s | None => d end
  /\ one_of choices v = true.
Proof.
  destruct given as [s|]; simpl.
  - intros H _. unfold try_except, bind, ret in H.
    destruct (one_of choices s) eqn:E; [|discriminate H].
    injection H as _ <-. now split.
  - intros H Hd. injection H as _ <-. now split.
Qed.

(** What the parser returns has the network and the solver type of the
    command line, or their defaults, and both are among the choices. *)
Lemma parser_returns cl tr tr1 a :
  parser_parse_args env cl tr = (tr1, Ok a) ->
  chain a = match opt_chain cl with Some s => s | None => str "mainnet" end
  /\ one_of [str "mainnet"; str "testnet"; str "regtest"] (chain a) = true
  /\ solver_type a
     = match opt_solver_type cl with Some s => s | None => str "tromp" end
  /\ one_of [str "tromp"; str "silentarmy"] (solver_type a) = true.
Proof.
  unfold parser_parse_args. intros H.
  apply bind_inv in H as (t1 & chain0 & Hchain & H).
  do 11 (apply bind_inv in H as (? & ? & _ & H)).
  apply bind_inv in H as (t2 & st & Hst & H).
  apply bind_inv in H as (? & ? & _ & H).
  injection H as _ <-. simpl.
  apply option_arg_choice in Hchain as [-> Hc]; [|reflexivity].
  apply option_arg_choice in Hst as [-> Hs]; [|reflexivity].
  now repeat split.
Qed.

Lemma one_of_inv choices s : one_of choices s = true -> In s choices.
Proof.
  unfold one_of. rewrite existsb_exists. intros (c & Hin & E).
  unfold str_eqb in E. destruct (list_eq_dec N.eq_dec s c); [now subst|discriminate].
Qed.

(** After the parser, [parse_args] ends the process for silentarmy on
    regtest and otherwise logs the settings and returns the namespace;
    the branch that infers the solver type is not entered. *)
Lemma parse_args_run cl tr tr1 a :
  parser_parse_args env cl tr = (tr1, Ok a) ->
  parse_args env cl tr
  = if str_eqb (solver_type a) (str "silentarmy")
       && str_eqb (chain a) (str "regtest")
    then (tr1 ++ [SetVerbose (verbose a); CoreParams (chain a);
                  Fatal (str "Silentarmy doesn't support regtest parameters N,K=48,5. Get Tromp's equihash solver.")],
          Raise (SystemExit 1))
    else (tr1 ++ [SetVerbose (verbose a); CoreParams (chain a);
                  Verb (str "Chain: " ++ chain a);
                  Verb (str "Time: " ++ format_d (time a));
                  Verb (str "Start Nonce: " ++ b2lx (nonce a));
                  Verb (str "Pubkey: " ++ b2x (pubkey a));
                  Verb (str "Solver: " ++ py_format_list env (solver_cmd a));
                  Verb (str "Solver type: " ++ solver_type a)],
          Ok a).
Proof.
  intros H. destruct (parser_returns cl tr tr1 a H) as (_ & Hc & _ & Hs).
  unfold parse_args. rewrite (bind_ok _ _ _ _ _ H).
  apply one_of_inv in Hc, Hs. destruct a; simpl in *.
  destruct Hs as [<-|[<-|[]]]; destruct Hc as [<-|[<-|[<-|[]]]];
    unfold bind, emit, SelectCoreParams, verb, fatal, ret, raise; simpl;
    rewrite <- ?app_assoc; reflexivity.
Qed.

End Parser.

(** ** The driver *)

Lemma parser_event_setup e : parser_event e -> setup_event e.
Proof. now destruct e. Qed.

Lemma lookup_event_setup e : lookup_event e -> setup_event e.
Proof. now intros (c & a & ->). Qed.

Section Driver.

Variable env : Env.

Lemma parse_args_emits cl : emits_only setup_event (parse_args env cl).
Proof.
  intros tr.
  destruct (emits_only_shape parser_event (parser_parse_args env cl) tr
              (parser_emits env cl)) as (evs & r & E & F).
  apply (Forall_impl _ parser_event_setup) in F.
  destruct r as [a|e].
  - rewrite (parse_args_run env cl tr _ a E).
    destruct (str_eqb (solver_type a) (str "silentarmy")
              && str_eqb (chain a) (str "regtest")); simpl;
      rewrite <- app_assoc; eexists; (split; [reflexivity|]);
      apply Forall_app; (split; [exact F|]); repeat constructor.
  - unfold parse_args. rewrite (bind_raise _ _ _ _ _ E). now exists evs.
Qed.

Lemma build_pszTimestamp_emits coinName template :
  emits_only setup_event (build_pszTimestamp env coinName template).
Proof.
  unfold build_pszTimestamp. apply emits_only_bind.
  - apply (emits_only_weaken lookup_event); [apply lookup_event_setup|].
    apply substitute_emits.
  - intros t. apply emits_only_bind; [now apply emits_only_emit|].
    intros _. apply emits_only_bind; [apply emits_only_lift|].
    intros d. apply emits_only_ret.
Qed.

Lemma build_header_emits args :
  emits_only setup_event (build_EquihashInputHeader env args).
Proof.
  unfold build_EquihashInputHeader. apply emits_only_bind.
  - unfold pick_pszTimestamp.
    destruct (pszTimestamp args) as [[|c p]|];
      first [apply emits_only_ret | apply build_pszTimestamp_emits].
  - intros p. apply emits_only_bind; [now apply emits_only_emit|].
    intros _. apply emits_only_bind.
    + unfold build_scriptSig.
      repeat (apply emits_only_bind; [apply emits_only_lift|intros ?]).
      apply emits_only_ret.
    + intros sig. apply emits_only_bind.
      * unfold build_scriptPubKey.
        apply emits_only_bind; [apply emits_only_lift|intros ?].
        apply emits_only_ret.
      * intros pk. apply emits_only_bind; [apply emits_only_lift|].
        intros txid. apply emits_only_bind; [now apply emits_only_emit|].
        intros _. apply emits_only_ret.
Qed.

(** With one of the two solver types a solver object is made and bound. *)
Lemma select_solver_run args eh tr :
  solver_type args = str "tromp" \/ solver_type args = str "silentarmy" ->
  exists s,
    select_solver args eh tr = (tr ++ [NewSolver s], Ok (Some s))
    /\ s = (if str_eqb (solver_type args) (str "tromp")
            then TrompSolver (solver_cmd args) eh (rounds args) (nonce args)
                             (threads args)
            else SilentarmySolver (solver_cmd args) eh (rounds args) (nonce args)).
Proof.
  intros [H|H]; unfold select_solver; rewrite H; eexists; split; reflexivity.
Qed.

(** The three ways through the [try] statement. *)
Lemma solve_run eh s tr :
  solve env eh (Some s) tr
  = match run env tr s with
    | Ok r =>
        (tr ++ [RunSolver s (Ok r);
                PrintLine (str "Solution found!" ++ nl ++ str "Header Hash: "
                       ++ b2lx (header_hash env eh (fst r) (snd r))
                       ++ nl ++ str "Nonce: " ++ b2lx (snd r)
                       ++ nl ++ b2x (fst r));
                CloseLoop], Ok tt)
    | Raise (SolverException cause) =>
        (tr ++ [RunSolver s (Raise (SolverException cause));
                Warn (cause ++ nl ++ str "Exiting.");
                CloseLoop], Ok tt)
    | Raise e => (tr ++ [RunSolver s (Raise e); CloseLoop], Raise e)
    end.
Proof.
  unfold solve, try_finally, try_except, run_until_complete, bind, warn.
  unfold emit.
  destruct (run env tr s) as [r|[]]; rewrite <- ?app_assoc; reflexivity.
Qed.

Lemma main_run cl tr :
  main env cl tr
  = match parse_args env cl tr with
    | (tr1, Ok args) =>
        match build_EquihashInputHeader env args tr1 with
        | (tr2, Ok eh) =>
            match select_solver args eh tr2 with
            | (tr3, Ok s) => solve env eh s (tr3 ++ [NewLoop (win32 env)])
            | (tr3, Raise e) => (tr3, Raise e)
            end
        | (tr2, Raise e) => (tr2, Raise e)
        end
    | (tr1, Raise e) => (tr1, Raise e)
    end.
Proof.
  unfold main. rewrite bind_unfold.
  destruct (parse_args env cl tr) as [tr1 [args|e]]; [|reflexivity].
  rewrite bind_unfold.
  destruct (build_EquihashInputHeader env args tr1) as [tr2 [eh|e]]; [|reflexivity].
  rewrite bind_unfold.
  destruct (select_solver args eh tr2) as [tr3 [s|e]]; reflexivity.
Qed.

(** What [parse_args] returns is what the parser returned, with one of
    the two solver types. *)
Lemma parse_args_returns cl tr tr' args :
  parse_args env cl tr = (tr', Ok args) ->
  solver_type args = str "tromp" \/ solver_type args = str "silentarmy".
Proof.
  intros H.
  destruct (emits_only_shape parser_event (parser_parse_args env cl) tr
              (parser_emits env cl)) as (evs & r & E & _).
  destruct r as [a|e].
  - rewrite (parse_args_run env cl tr _ a E) in H.
    destruct (parser_returns env cl tr _ a E) as (_ & _ & _ & Hs).
    destruct (str_eqb (solver_type a) (str "silentarmy")
              && str_eqb (chain a) (str "regtest")); [discriminate H|].
    injection H as _ <-. apply one_of_inv in Hs.
    destruct Hs as [Hs|[Hs|[]]]; auto.
  - unfold parse_args in H. rewrite (bind_raise _ _ _ _ _ E) in H. discriminate H.
Qed.

(** A run of [main]: it stops in the set-up phase, or it goes through
    the [try] statement with a solver object. *)
Lemma main_cases cl :
  (Forall setup_event (events (main env cl))
   /\ exists e, outcome (main env cl) = Raise e)
  \/ exists before s,
      Forall setup_event before
      /\ main env cl []
         = solve env
             (match s with
              | TrompSolver _ eh _ _ _ | SilentarmySolver _ eh _ _ => eh
              end)
             (Some s) (before ++ [NewSolver s; NewLoop (win32 env)]).
Proof.
  unfold events, outcome. rewrite main_run.
  destruct (emits_only_shape setup_event (parse_args env cl) []
              (parse_args_emits cl)) as (evs1 & r1 & E1 & F1).
  rewrite E1. destruct r1 as [args|e]; [|left; split; [exact F1|now exists e]].
  destruct (emits_only_shape setup_event (build_EquihashInputHeader env args)
              ([] ++ evs1) (build_header_emits args)) as (evs2 & r2 & E2 & F2).
  rewrite E2. destruct r2 as [eh|e].
  - right.
    destruct (select_solver_run args eh (([] ++ evs1) ++ evs2)
                (parse_args_returns cl [] _ args E1)) as (s & Es & Hs).
    rewrite Es. exists (evs1 ++ evs2), s. split; [now apply Forall_app|].
    rewrite <- app_assoc. simpl.
    destruct (str_eqb (solver_type args) (str "tromp")); subst s; reflexivity.
  - left. simpl. split; [now apply Forall_app|now exists e].
Qed.

End Driver.

Lemma in_try_tail before s w tail e :
  Forall setup_event before ->
  In e ((before ++ [NewSolver s; NewLoop w]) ++ tail) ->
  match e with
  | RunSolver _ _ | PrintLine _ | CloseLoop => True
  | _ => False
  end ->
  In e tail.
Proof.
  intros F Hin He. apply in_app_or in Hin as [Hin|Hin]; [|exact Hin].
  apply in_app_or in Hin as [Hin|Hin].
  - rewrite Forall_forall in F. apply F in Hin. now destruct e.
  - destruct Hin as [<-|[<-|[]]]; contradiction.
Qed.

(** C8. In every run of [main]: when [solver.run()] raised
    [SolverException], [main] returns normally, the run ends with the
    warning made of the cause and the closing of the event loop, and nothing
    was printed; when the solver returned, the run ends with the printed
    result and the closing of the loop; and whenever the event loop was
    obtained, closing it is the last event, whatever the [try] block did. *)
Theorem main_closes_loop env cl :
  (forall s cause,
      In (RunSolver s (Raise (SolverException cause))) (events (main env cl)) ->
      outcome (main env cl) = Ok tt
      /\ (exists before,
             events (main env cl)
             = before ++ [RunSolver s (Raise (SolverException cause));
                          Warn (cause ++ nl ++ str "Exiting."); CloseLoop])
      /\ (forall m, ~ In (PrintLine m) (events (main env cl))))
  /\ (forall s r,
         In (RunSolver s (Ok r)) (events (main env cl)) ->
         outcome (main env cl) = Ok tt
         /\ exists before msg,
             events (main env cl)
             = before ++ [RunSolver s (Ok r); PrintLine msg; CloseLoop])
  /\ (forall w,
         In (NewLoop w) (events (main env cl)) ->
         exists before, events (main env cl) = before ++ [CloseLoop]).
Proof.
  destruct (main_cases env cl) as [[F _]|(before & s & F & E)].
  - rewrite Forall_forall in F.
    repeat split; intros; exfalso;
      match goal with H : In _ _ |- _ => apply F in H; exact H end.
  - unfold events, outcome. rewrite E, solve_run. clear E.
    set (pre := before ++ [NewSolver s; NewLoop (win32 env)]).
    split; [|split].
    + intros s' c Hin.
      assert (Hpr : forall m, In (PrintLine m) (fst (pre ++ [RunSolver s' (Raise (SolverException c)); Warn (c ++ nl ++ str "Exiting."); CloseLoop], Ok tt : result unit)) -> False).
      { intros m Hm. apply (in_try_tail before s _ _ _ F) in Hm; [|exact I].
        destruct Hm as [Hm|[Hm|[Hm|[]]]]; discriminate Hm. }
      destruct (run env pre s) as [r|[]];
        apply (in_try_tail before s _ _ _ F) in Hin; try exact I;
        simpl in Hin;
        repeat (destruct Hin as [Hin|Hin]; [try discriminate Hin|]);
        try contradiction Hin.
      injection Hin as <- <-. split; [reflexivity|].
      split; [now exists pre|exact Hpr].
    + intros s' r' Hin.
      destruct (run env pre s) as [r|[]];
        apply (in_try_tail before s _ _ _ F) in Hin; try exact I;
        simpl in Hin;
        repeat (destruct Hin as [Hin|Hin]; [try discriminate Hin|]);
        try contradiction Hin.
      injection Hin as <- <-. split; [reflexivity|].
      eexists pre, _. reflexivity.
    + intros w _.
      destruct (run env pre s) as [r|[]]; simpl;
        first [ eexists (pre ++ [_; _]); rewrite <- app_assoc; reflexivity
              | eexists (pre ++ [_]); rewrite <- app_assoc; reflexivity ].
Qed.

Lemma main_closes_loop_witness :
  let env := example_env None (Raise (SolverException (str "exhausted rounds"))) in
  exists s before,
    events (main env no_options)
    = before ++ [RunSolver s (Raise (SolverException (str "exhausted rounds")));
                 Warn (str "exhausted rounds" ++ nl ++ str "Exiting."); CloseLoop]
    /\ outcome (main env no_options) = Ok tt.
Proof.
  intros env.
  set (s := TrompSolver [str "../../equihash/eq14451"]
              {| nTime := 1477641360; nBits := 0x1f07ffff;
                 nNonce := repeat x00 32;
                 hashMerkleRoot :=
                   match lx (str "c4eaa58879081de3c24a7b117ed2b28300e7ec4c4c1dff1d3f1268b7857a4ddb") with
                   | Some b => b
                   | None => []
                   end |}
              1 (repeat x00 32) 1).
  assert (Hin : In (RunSolver s (Raise (SolverException (str "exhausted rounds"))))
                   (events (main env no_options))).
  { vm_compute. repeat (first [left; reflexivity | right]). }
  destruct (proj1 (main_closes_loop env no_options) s (str "exhausted rounds") Hin)
    as (Hout & (before & Hev) & _).
  exists s, before. split; [exact Hev|exact Hout].
Defined.

(** C9. For every command line that selects the silentarmy solver and
    the regtest network, every run of [main] ends the process during
    argument processing, without making a solver object, obtaining the event
    loop or running a solver; and when the parser accepts the command line,
    [parse_args] ends the process with the fatal message right after the
    parser, before the header is built. *)
Theorem silentarmy_on_regtest_is_fatal env cl :
  opt_solver_type cl = Some (str "silentarmy") ->
  opt_chain cl = Some (str "regtest") ->
  Forall setup_event (events (main env cl))
  /\ (exists status, outcome (main env cl) = Raise (SystemExit status))
  /\ forall tr1 a,
      parser_parse_args env cl [] = (tr1, Ok a) ->
      Forall parser_event tr1
      /\ main env cl []
         = (tr1 ++ [SetVerbose (verbose a); CoreParams (str "regtest");
                    Fatal (str "Silentarmy doesn't support regtest parameters N,K=48,5. Get Tromp's equihash solver.")],
            Raise (SystemExit 1)).
Proof.
  intros Hs Hc.
  assert (Hmain : forall tr1 a,
             parser_parse_args env cl [] = (tr1, Ok a) ->
             main env cl []
             = (tr1 ++ [SetVerbose (verbose a); CoreParams (str "regtest");
                        Fatal (str "Silentarmy doesn't support regtest parameters N,K=48,5. Get Tromp's equihash solver.")],
                Raise (SystemExit 1))).
  { intros tr1 a H. rewrite main_run, (parse_args_run env cl [] tr1 a H).
    destruct (parser_returns env cl [] tr1 a H) as (Ec & _ & Es & _).
    rewrite Hc in Ec. rewrite Hs in Es. rewrite Ec, Es. reflexivity. }
  destruct (emits_only_shape parser_event (parser_parse_args env cl) []
              (parser_emits env cl)) as (evs & r & E & F).
  split; [|split].
  - unfold events. destruct r as [a|e].
    + rewrite (Hmain _ a E). simpl. apply Forall_app. split.
      * revert F. apply Forall_impl. exact parser_event_setup.
      * repeat constructor.
    + rewrite main_run. unfold parse_args. rewrite (bind_raise _ _ _ _ _ E).
      simpl. revert F. apply Forall_impl. exact parser_event_setup.
  - unfold outcome. destruct r as [a|e].
    + rewrite (Hmain _ a E). now exists 1.
    + rewrite main_run. unfold parse_args. rewrite (bind_raise _ _ _ _ _ E).
      rewrite <- (parser_raises env cl _ _ _ E). now exists 2.
  - intros tr1 a H. split; [|now apply Hmain].
    rewrite E in H. injection H as <- _. exact F.
Qed.

Lemma silentarmy_on_regtest_is_fatal_witness :
  let env := example_env None (Raise Interrupted) in
  opt_solver_type silentarmy_regtest = Some (str "silentarmy")
  /\ opt_chain silentarmy_regtest = Some (str "regtest")
  /\ Forall setup_event (events (main env silentarmy_regtest))
  /\ exists tr1 a,
      parser_parse_args env silentarmy_regtest [] = (tr1, Ok a)
      /\ main env silentarmy_regtest []
         = (tr1 ++ [SetVerbose (verbose a); CoreParams (str "regtest");
                    Fatal (str "Silentarmy doesn't support regtest parameters N,K=48,5. Get Tromp's equihash solver.")],
            Raise (SystemExit 1)).
Proof.
  intros env. split; [reflexivity|]. split; [reflexivity|].
  pose proof (silentarmy_on_regtest_is_fatal env silentarmy_regtest
                eq_refl eq_refl) as (Hsetup & _ & Hfatal).
  split; [exact Hsetup|].
  eexists. eexists. split; [vm_compute; reflexivity|].
  apply Hfatal. vm_compute. reflexivity.
Defined.



(** * Further properties *)

(** ** Hexadecimal texts and the nonce *)

Lemma unhexlify_odd n : forall s,
  List.length s = S (2 * n) -> unhexlify s = None.
Proof.
  induction n as [|n IH]; intros s H.
  - destruct s as [|c [|d s]]; try discriminate. reflexivity.
  - destruct s as [|h [|l s]]; try discriminate.
    simpl in H. assert (Hs : List.length s = S (2 * n)) by lia.
    simpl. rewrite (IH s Hs). now destruct (hexval h), (hexval l).
Qed.

Lemma unhexlify_not_hex s : is_hex s = false -> unhexlify s = None.
Proof.
  remember (List.length s) as n eqn:Hn. revert s Hn.
  induction n as [n IH] using lt_wf_ind. intros s Hn H.
  destruct s as [|h [|l s]]; [discriminate|reflexivity|].
  unfold is_hex in H. simpl in H. simpl.
  destruct (hexval h); [|reflexivity].
  destruct (hexval l); [|reflexivity].
  simpl in H. rewrite (IH (List.length s)); trivial.
  subst n. simpl. lia.
Qed.

Lemma byte_of_N_to_N n : (n < 256)%N -> Byte.to_N (byte_of_N n) = n.
Proof.
  intros H. unfold byte_of_N. rewrite N.mod_small by exact H.
  destruct (Byte.of_N n) as [b|] eqn:E.
  - now apply Byte.to_of_N.
  - apply Byte.of_N_None_iff in E. lia.
Qed.

Lemma hexval_bound c a : hexval c = Some a -> (a < 16)%N.
Proof.
  unfold hexval.
  destruct ((48 <=? c)%N && (c <=? 57)%N) eqn:E1.
  { apply andb_true_iff in E1 as [H1 H2]. apply N.leb_le in H1, H2.
    intros H. injection H as <-. lia. }
  destruct ((97 <=? c)%N && (c <=? 102)%N) eqn:E2.
  { apply andb_true_iff in E2 as [H1 H2]. apply N.leb_le in H1, H2.
    intros H. injection H as <-. lia. }
  destruct ((65 <=? c)%N && (c <=? 70)%N) eqn:E3; [|discriminate].
  apply andb_true_iff in E3 as [H1 H2]. apply N.leb_le in H1, H2.
  intros H. injection H as <-. lia.
Qed.

Lemma hexdigit_hexval c :
  (((48 <=? c) && (c <=? 57)) || ((97 <=? c) && (c <=? 102)))%N = true ->
  exists a, hexval c = Some a /\ hexdigit a = c.
Proof.
  intros H. unfold hexval, hexdigit.
  destruct ((48 <=? c)%N && (c <=? 57)%N) eqn:E1.
  - apply andb_true_iff in E1 as [H1 H2]. apply N.leb_le in H1, H2.
    exists (c - 48)%N. split; [reflexivity|].
    destruct (N.ltb_spec (c - 48) 10); lia.
  - simpl in H. rewrite H.
    apply andb_true_iff in H as [H1 H2]. apply N.leb_le in H1, H2.
    exists (c - 87)%N. split; [reflexivity|].
    destruct (N.ltb_spec (c - 87) 10); lia.
Qed.

Lemma is_lower_hex_is_hex s : is_lower_hex s = true -> is_hex s = true.
Proof.
  unfold is_lower_hex, is_hex. rewrite !forallb_forall. intros H c Hc.
  destruct (hexdigit_hexval c (H c Hc)) as (a & -> & _). reflexivity.
Qed.

(** Lowercase hexadecimal text is what [hexlify] gives back. *)
Lemma hexlify_unhexlify n : forall s b,
  List.length s = (2 * n)%nat -> is_lower_hex s = true ->
  unhexlify s = Some b -> hexlify b = s.
Proof.
  induction n as [|n IH]; intros s b Hlen Hlow Hb.
  - destruct s; [|discriminate]. injection Hb as <-. reflexivity.
  - destruct s as [|h [|l s]]; simpl in Hlen; try lia.
    unfold is_lower_hex in Hlow. simpl in Hlow.
    apply andb_true_iff in Hlow as [Hh Hlow].
    apply andb_true_iff in Hlow as [Hl Hlow].
    destruct (hexdigit_hexval h Hh) as (a & Ea & Da).
    destruct (hexdigit_hexval l Hl) as (c & Ec & Dc).
    change (unhexlify (h :: l :: s))
      with (match hexval h, hexval l, unhexlify s with
            | Some a, Some b, Some r => Some (byte_of_N (16 * a + b) :: r)
            | _, _, _ => None
            end) in Hb.
    rewrite Ea, Ec in Hb.
    destruct (unhexlify s) as [r|] eqn:Er; [|discriminate].
    assert (Eb : b = byte_of_N (16 * a + c) :: r) by congruence.
    subst b. clear Hb.
    pose proof (hexval_bound h a Ea). pose proof (hexval_bound l c Ec).
    change (hexlify (byte_of_N (16 * a + c) :: r))
      with ([hexdigit (Byte.to_N (byte_of_N (16 * a + c)) / 16);
             hexdigit (Byte.to_N (byte_of_N (16 * a + c)) mod 16)] ++ hexlify r).
    rewrite byte_of_N_to_N by lia.
    replace ((16 * a + c) / 16)%N with a
      by (apply (N.div_unique (16 * a + c) 16 a c); lia).
    replace ((16 * a + c) mod 16)%N with c
      by (apply (N.mod_unique (16 * a + c) 16 a c); lia).
    rewrite Da, Dc. simpl. f_equal. f_equal.
    apply (IH s r); trivial. lia.
Qed.

Lemma b2lx_lx n s b :
  List.length s = (2 * n)%nat -> is_lower_hex s = true ->
  lx s = Some b -> b2lx b = s.
Proof.
  intros Hlen Hlow H. unfold lx in H.
  destruct (unhexlify s) as [r|] eqn:E; [|discriminate].
  injection H as <-. unfold b2lx. rewrite rev_involutive.
  now apply (hexlify_unhexlify n).
Qed.

(** X1. Up to 32 hexadecimal digits: [lbytes32] gives exactly 32 bytes, the
    digits padded with zeros on the left to 64 and read by [lx], and no
    warning. *)
Theorem lbytes32_pads_short_nonce s tr :
  (List.length s <= 32)%nat -> is_hex s = true ->
  exists b,
    lbytes32 s tr = (tr, Ok b)
    /\ lx (repeat 48%N (64 - List.length s) ++ s) = Some b
    /\ List.length b = 32%nat.
Proof. apply lbytes32_at_most_32. Qed.

Lemma lbytes32_pads_short_nonce_witness :
  exists b,
    lbytes32 (str "1f") [] = ([], Ok b)
    /\ lx (repeat 48%N 62 ++ str "1f") = Some b
    /\ List.length b = 32%nat.
Proof.
  apply (lbytes32_pads_short_nonce (str "1f") []); [simpl; lia | reflexivity].
Defined.

(** X2. From 64 characters on, of which the first 64 are hexadecimal
    digits: [lbytes32] warns and gives the 32 bytes of the first 64 digits;
    what follows them is dropped unread. *)
Theorem lbytes32_truncates_long_nonce s tr :
  (64 <= List.length s)%nat -> is_hex (firstn 64 s) = true ->
  exists b,
    lbytes32 s tr
    = (tr ++ [Warn (str "Nonce can be at most 32 bytes long, is "
                    ++ format_d (Z.of_nat (List.length s))
                    ++ str "! Will be truncated")], Ok b)
    /\ lx (firstn 64 s) = Some b
    /\ List.length b = 32%nat.
Proof. apply lbytes32_at_least_64. Qed.

Lemma lbytes32_truncates_long_nonce_witness :
  exists b,
    lbytes32 (repeat 49%N 64 ++ str "zz") []
    = ([Warn (str "Nonce can be at most 32 bytes long, is 66! Will be truncated")],
       Ok b)
    /\ lx (repeat 49%N 64) = Some b
    /\ List.length b = 32%nat.
Proof.
  apply (lbytes32_truncates_long_nonce (repeat 49%N 64 ++ str "zz") []);
    [simpl; lia | reflexivity].
Defined.

(** X3. Between 33 and 63 hexadecimal digits: [lbytes32] warns and does not
    pad: an even number of digits gives half as many bytes, fewer than 32,
    and an odd number raises. *)
Theorem lbytes32_between_33_and_63 s tr :
  (32 < List.length s < 64)%nat -> is_hex s = true ->
  exists r,
    lbytes32 s tr
    = (tr ++ [Warn (str "Nonce can be at most 32 bytes long, is "
                    ++ format_d (Z.of_nat (List.length s))
                    ++ str "! Will be truncated")], r)
    /\ (Nat.even (List.length s) = true ->
        exists b, r = Ok b /\ lx s = Some b
                  /\ (2 * List.length b = List.length s)%nat
                  /\ (List.length b < 32)%nat)
    /\ (Nat.even (List.length s) = false -> r = Raise ValueError).
Proof.
  intros Hlen Hhex. unfold lbytes32.
  destruct (Nat.ltb_spec 32 (List.length s)) as [_|Hle]; [|lia].
  rewrite bind_unfold. unfold warn, emit.
  rewrite firstn_all2 by lia.
  destruct (Nat.even (List.length s)) eqn:Ev.
  - apply Nat.even_spec in Ev as [n Hn].
    destruct (lx_hex n s Hn Hhex) as (b & E & Hb).
    rewrite E. eexists. split; [reflexivity|]. split; [|discriminate].
    intros _. exists b. repeat split; trivial; unfold char in *; lia.
  - assert (Hodd : Nat.odd (List.length s) = true)
      by (rewrite <- Nat.negb_even, Ev; reflexivity).
    apply Nat.odd_spec in Hodd as [n Hn].
    unfold lx. rewrite (unhexlify_odd n s) by (unfold char in *; lia).
    eexists. split; [reflexivity|]. split; [discriminate|reflexivity].
Qed.

Lemma lbytes32_between_33_and_63_witness :
  exists b,
    lbytes32 (repeat 49%N 40) []
    = ([Warn (str "Nonce can be at most 32 bytes long, is 40! Will be truncated")],
       Ok b)
    /\ List.length b = 20%nat.
Proof.
  destruct (lbytes32_between_33_and_63 (repeat 49%N 40) [])
    as (r & Hrun & Heven & _); [simpl; lia | reflexivity |].
  destruct (Heven eq_refl) as (b & -> & _ & Hb & _).
  exists b. split; [exact Hrun|]. simpl in Hb. lia.
Defined.

(** X4. The start nonce that [parse_args] logs is the nonce given: for up to
    32 lowercase hexadecimal digits, [b2lx] of what [lbytes32] returns is
    the digits padded with zeros on the left to 64. *)
Theorem lbytes32_b2lx s tr b :
  (List.length s <= 32)%nat -> is_lower_hex s = true ->
  lbytes32 s tr = (tr, Ok b) ->
  b2lx b = repeat 48%N (64 - List.length s) ++ s.
Proof.
  intros Hlen Hlow Hrun.
  destruct (lbytes32_at_most_32 s tr Hlen (is_lower_hex_is_hex s Hlow))
    as (b' & E & Hlx & _).
  rewrite E in Hrun. injection Hrun as <-.
  apply (b2lx_lx 32); trivial.
  - rewrite length_app, repeat_length. unfold char in *. lia.
  - unfold is_lower_hex in *. rewrite forallb_app. apply andb_true_iff.
    split; [|exact Hlow].
    apply forallb_forall. intros c Hc. apply repeat_spec in Hc. now subst c.
Qed.

Lemma lbytes32_b2lx_witness :
  exists b,
    lbytes32 (str "1f") [] = ([], Ok b)
    /\ b2lx b = repeat 48%N 62 ++ str "1f".
Proof.
  eexists. split; [vm_compute; reflexivity|].
  apply (lbytes32_b2lx (str "1f") []); [simpl; lia | reflexivity |].
  vm_compute. reflexivity.
Defined.

(** ** The lengths of the digests *)

Lemma le_bytes_length k n : List.length (le_bytes k n) = k.
Proof. revert n. induction k as [|k IH]; intros n; simpl; [|rewrite IH]; reflexivity. Qed.

Lemma be_bytes_length k n : List.length (be_bytes k n) = k.
Proof. unfold be_bytes. now rewrite length_rev, le_bytes_length. Qed.

Lemma flat_map_length4 {A} (f : A -> bytes) l :
  (forall a, List.length (f a) = 4%nat) ->
  List.length (flat_map f l) = (4 * List.length l)%nat.
Proof.
  intros H. induction l as [|a l IH]; [reflexivity|].
  simpl flat_map. rewrite length_app, H, IH. simpl. lia.
Qed.

Lemma sha256_round_length st kw :
  List.length (SHA256.round st kw) = List.length st.
Proof.
  unfold SHA256.round.
  destruct st as [|a [|b [|c [|d [|e [|f [|g [|h [|i st]]]]]]]]]; reflexivity.
Qed.

Lemma sha256_compress_length h block :
  List.length (SHA256.compress h block) = List.length h.
Proof.
  unfold SHA256.compress. rewrite length_map, length_combine.
  assert (H : forall kw st, List.length (fold_left SHA256.round kw st) = List.length st).
  { induction kw as [|k kw IH]; intros st; [reflexivity|].
    simpl. now rewrite IH, sha256_round_length. }
  rewrite H. apply Nat.min_id.
Qed.

Lemma sha256_digest_length m : List.length (SHA256.digest m) = 32%nat.
Proof.
  unfold SHA256.digest.
  rewrite flat_map_length4 by (intros; apply be_bytes_length).
  assert (H : forall bl h, List.length (fold_left SHA256.compress bl h) = List.length h).
  { induction bl as [|b bl IH]; intros h; [reflexivity|].
    simpl. now rewrite IH, sha256_compress_length. }
  rewrite H. reflexivity.
Qed.

Lemma Hash_length m : List.length (Hash m) = 32%nat.
Proof. apply sha256_digest_length. Qed.

Lemma blake2s_F_length h block t last :
  List.length h = 8%nat -> List.length (Blake2s.F h block t last) = 8%nat.
Proof.
  intros H. unfold Blake2s.F. rewrite length_map, length_combine, H. reflexivity.
Qed.

Lemma blake2s_blocks_length fuel : forall h t m,
  List.length h = 8%nat -> List.length (Blake2s.blocks fuel h t m) = 8%nat.
Proof.
  induction fuel as [|fuel IH]; intros h t m H; [exact H|].
  simpl. destruct (List.length m <=? 64)%nat.
  - now apply blake2s_F_length.
  - apply IH. now apply blake2s_F_length.
Qed.

Lemma blake2s_digest_length m : List.length (Blake2s.digest m) = 32%nat.
Proof.
  unfold Blake2s.digest.
  rewrite flat_map_length4 by (intros; apply le_bytes_length).
  rewrite blake2s_blocks_length; reflexivity.
Qed.

Lemma hexlify_length b : List.length (hexlify b) = (2 * List.length b)%nat.
Proof.
  induction b as [|a b IH]; [reflexivity|].
  change (hexlify (a :: b))
    with (hexdigit (Byte.to_N a / 16) :: hexdigit (Byte.to_N a mod 16) :: hexlify b).
  cbn [List.length]. rewrite IH. lia.
Qed.

Lemma hexdigit_lower a :
  (a < 16)%N ->
  (((48 <=? hexdigit a) && (hexdigit a <=? 57))
   || ((97 <=? hexdigit a) && (hexdigit a <=? 102)))%N = true.
Proof.
  intros H. unfold hexdigit. destruct (N.ltb_spec a 10).
  - apply orb_true_iff. left. apply andb_true_iff. split; apply N.leb_le; lia.
  - apply orb_true_iff. right. apply andb_true_iff. split; apply N.leb_le; lia.
Qed.

Lemma hexlify_lower b : is_lower_hex (hexlify b) = true.
Proof.
  unfold is_lower_hex. induction b as [|a b IH]; [reflexivity|].
  change (hexlify (a :: b))
    with (hexdigit (Byte.to_N a / 16) :: hexdigit (Byte.to_N a mod 16) :: hexlify b).
  pose proof (Byte.to_N_bounded a) as Hb.
  cbn [forallb]. rewrite IH, !hexdigit_lower; [reflexivity| |].
  - apply N.mod_lt. discriminate.
  - apply N.Div0.div_lt_upper_bound. lia.
Qed.

Lemma blake2s_hexdigest_shape m :
  List.length (Blake2s.hexdigest m) = 64%nat
  /\ is_lower_hex (Blake2s.hexdigest m) = true.
Proof.
  unfold Blake2s.hexdigest. split; [|apply hexlify_lower].
  now rewrite hexlify_length, blake2s_digest_length.
Qed.

(** ** More on the timestamp builder *)

Lemma asked_app a b : asked (a ++ b) = asked a ++ asked b.
Proof. unfold asked. apply flat_map_app. Qed.

Lemma answered_not_failed c e : answered e -> e <> GetLatest c None.
Proof. intros (c' & a & ->). discriminate. Qed.

(** X5. What [build_pszTimestamp] returns is the coin name followed by
    exactly 64 lowercase hexadecimal digits. *)
Theorem build_pszTimestamp_shape env coinName template tr tr' payload :
  build_pszTimestamp env coinName template tr = (tr', Ok payload) ->
  exists digest,
    payload = coinName ++ digest
    /\ List.length digest = 64%nat
    /\ is_lower_hex digest = true.
Proof.
  rewrite build_pszTimestamp_run.
  destruct (substitute env (findall template) template tr) as [tr1 [t'|e]];
    [|discriminate].
  destruct (encode_utf8 t') as [data|]; [|discriminate].
  intros H. injection H as _ <-.
  exists (Blake2s.hexdigest data). split; [reflexivity|].
  apply blake2s_hexdigest_shape.
Qed.

Lemma build_pszTimestamp_shape_witness :
  exists digest,
    str "Zcash" ++ Blake2s.hexdigest (map byte_of_N (str "Known unknown"))
    = str "Zcash" ++ digest
    /\ List.length digest = 64%nat
    /\ is_lower_hex digest = true.
Proof.
  apply (build_pszTimestamp_shape (example_env None (Raise Interrupted))
           (str "Zcash") (str "Known unknown") []
           [Verb (str "timestamp after substitution: Known unknown")]).
  vm_compute. reflexivity.
Defined.

(** X6. When [build_pszTimestamp] returns, the block explorer was asked
    once for every match of the token pattern in the template, a repeated
    token included, in the order of the matches, and every call was
    answered before the log line. *)
Theorem build_pszTimestamp_asks_per_match env coinName template tr evs payload :
  build_pszTimestamp env coinName template tr = (tr ++ evs, Ok payload) ->
  exists lookups t',
    evs = lookups ++ [Verb (str "timestamp after substitution: " ++ t')]
    /\ Forall answered lookups
    /\ asked lookups = map code_of (findall template)
    /\ List.length lookups = List.length (findall template).
Proof.
  rewrite build_pszTimestamp_run.
  destruct (substitute_shape env (findall template) template tr)
    as (lookups & r & E & H).
  rewrite E. destruct r as [t'|e]; [|discriminate].
  destruct (encode_utf8 t'); [|discriminate].
  intros Hrun. injection Hrun as Hevs _.
  rewrite <- app_assoc in Hevs. apply app_inv_head in Hevs. subst evs.
  destruct H as [F A]. exists lookups, t'. repeat split; trivial.
  rewrite <- (length_map code_of (findall template)), <- A.
  clear - F. induction F as [|e l (c & a & ->) F IH]; [reflexivity|].
  simpl. now rewrite IH.
Qed.

Lemma build_pszTimestamp_asks_per_match_witness :
  let env := example_env (Some (436254, str "00ab")) (Raise Interrupted) in
  exists lookups t',
    [GetLatest (str "BTC") (Some (436254, str "00ab"));
     GetLatest (str "ETH") (Some (436254, str "00ab"));
     GetLatest (str "BTC") (Some (436254, str "00ab"));
     Verb (str "timestamp after substitution: BTC#436254 00ab ETH#436254 00ab BTC#436254 00ab")]
    = lookups ++ [Verb (str "timestamp after substitution: " ++ t')]
    /\ Forall answered lookups
    /\ asked lookups = map code_of (findall (str "{BTC} {ETH} {BTC}"))
    /\ List.length lookups = List.length (findall (str "{BTC} {ETH} {BTC}")).
Proof.
  intros env.
  apply (build_pszTimestamp_asks_per_match env (str "Zcash")
           (str "{BTC} {ETH} {BTC}") [] _
           (str "Zcash" ++ Blake2s.hexdigest
              (map byte_of_N (str "BTC#436254 00ab ETH#436254 00ab BTC#436254 00ab")))).
  vm_compute. reflexivity.
Defined.

(** X7. A call to the block explorer that fails ends [build_pszTimestamp]
    at once with that failure: the failed call is the last event, every
    call before it was answered, no further token is looked up and nothing
    is logged or digested. *)
Theorem build_pszTimestamp_failed_lookup env coinName template tr evs r c :
  build_pszTimestamp env coinName template tr = (tr ++ evs, r) ->
  In (GetLatest c None) evs ->
  r = Raise LookupFailure
  /\ exists before,
      evs = before ++ [GetLatest c None]
      /\ Forall answered before
      /\ (List.length before < List.length (findall template))%nat.
Proof.
  rewrite build_pszTimestamp_run.
  destruct (substitute_shape env (findall template) template tr)
    as (lookups & r0 & E & H).
  rewrite E. destruct r0 as [t'|e].
  - destruct H as [F _]. intros Hrun Hin. exfalso.
    assert (Hevs : evs = lookups ++ [Verb (str "timestamp after substitution: " ++ t')]).
    { injection Hrun as Hevs _. rewrite <- app_assoc in Hevs.
      now apply app_inv_head in Hevs. }
    subst evs. apply in_app_or in Hin as [Hin|[Hin|[]]]; [|discriminate Hin].
    rewrite Forall_forall in F. now apply (answered_not_failed c _ (F _ Hin)).
  - destruct H as (-> & before & c0 & rest & -> & F & A).
    intros Hrun Hin. injection Hrun as Hevs <-.
    apply app_inv_head in Hevs. subst evs.
    assert (Hc : c0 = c).
    { apply in_app_or in Hin as [Hin|[Hin|[]]]; [|now injection Hin].
      rewrite Forall_forall in F.
      now destruct (answered_not_failed c _ (F _ Hin)). }
    subst c0. split; [reflexivity|]. exists before. repeat split; trivial.
    rewrite <- (length_map code_of (findall template)), A, length_app.
    assert (Hb : List.length (asked before) = List.length before).
    { clear - F. induction F as [|e l (c' & a & ->) F IH]; [reflexivity|].
      simpl. now rewrite IH. }
    rewrite Hb. simpl. lia.
Qed.

Lemma build_pszTimestamp_failed_lookup_witness :
  build_pszTimestamp (example_env None (Raise Interrupted))
    (str "Zcash") (str "{BTC} {ETH}") []
  = ([] ++ [GetLatest (str "BTC") None], Raise LookupFailure)
  /\ exists before,
      [GetLatest (str "BTC") None] = before ++ [GetLatest (str "BTC") None]
      /\ Forall answered before
      /\ (List.length before < List.length (findall (str "{BTC} {ETH}")))%nat.
Proof.
  assert (Hrun : build_pszTimestamp (example_env None (Raise Interrupted))
                   (str "Zcash") (str "{BTC} {ETH}") []
                 = ([] ++ [GetLatest (str "BTC") None], Raise LookupFailure))
    by (vm_compute; reflexivity).
  split; [exact Hrun|].
  apply (build_pszTimestamp_failed_lookup _ _ _ _ _ _ (str "BTC") Hrun).
  now left.
Defined.

(** X8. The substituted template that [build_pszTimestamp] logs reproduces
    the payload: given as the template, in any environment, it yields the
    same payload without a call to the block explorer (the hashes being
    hexadecimal). *)
Theorem build_pszTimestamp_reproducible env coinName template tr lookups t' payload :
  build_pszTimestamp env coinName template tr
  = (tr ++ lookups ++ [Verb (str "timestamp after substitution: " ++ t')],
     Ok payload) ->
  (forall c h hash, In (GetLatest c (Some (h, hash))) lookups -> is_hex hash = true) ->
  forall env2 tr2,
    build_pszTimestamp env2 coinName t' tr2
    = (tr2 ++ [Verb (str "timestamp after substitution: " ++ t')], Ok payload).
Proof.
  intros Hrun Hhex env2 tr2. rewrite build_pszTimestamp_run in Hrun.
  destruct (emits_only_shape lookup_event
              (substitute env (findall template) template) tr
              (substitute_emits env _ _)) as (evs0 & r & E & F).
  rewrite E in Hrun. destruct r as [t0|e]; [|exfalso].
  - assert (Hsame : evs0 = lookups /\ t0 = t').
    { assert (H : (tr ++ evs0) ++ [Verb (str "timestamp after substitution: " ++ t0)]
                  = tr ++ lookups ++ [Verb (str "timestamp after substitution: " ++ t')])
        by (now injection Hrun).
      rewrite <- app_assoc in H. apply app_inv_head in H.
      apply app_inj_tail in H as [H1 H2]. split; [exact H1|].
      injection H2 as H2. exact H2. }
    destruct Hsame as [-> ->].
    assert (Htok : Forall (fun k => is_token k = true) (findall template)).
    { apply Forall_forall. intros k Hk. now apply findall_In in Hk. }
    destruct (substitute_spec env (findall template) template tr lookups t' Htok E)
      as (H1 & _ & _).
    { intros c h hash Hin. apply is_hex_no_lbrace. exact (Hhex c h hash Hin). }
    assert (Hnone : findall t' = []) by (rewrite H1; apply filter_members; auto).
    rewrite build_pszTimestamp_run, Hnone. simpl substitute. unfold ret.
    destruct (encode_utf8 t') as [data|]; [|discriminate Hrun].
    injection Hrun as _ <-. reflexivity.
  - assert (H : tr ++ evs0
                = tr ++ lookups ++ [Verb (str "timestamp after substitution: " ++ t')])
      by (now injection Hrun).
    apply app_inv_head in H. subst evs0.
    rewrite Forall_forall in F.
    destruct (F (Verb (str "timestamp after substitution: " ++ t'))) as (c & a & Hc);
      [apply in_or_app; right; now left|discriminate Hc].
Qed.

Lemma build_pszTimestamp_reproducible_witness :
  build_pszTimestamp (example_env None (Raise Interrupted))
    (str "Zcash") (str "a BTC#436254 00ab") []
  = ([Verb (str "timestamp after substitution: a BTC#436254 00ab")],
     Ok (str "Zcash" ++ Blake2s.hexdigest (map byte_of_N (str "a BTC#436254 00ab")))).
Proof.
  apply (build_pszTimestamp_reproducible
           (example_env (Some (436254, str "00ab")) (Raise Interrupted))
           (str "Zcash") (str "a {BTC}") []
           [GetLatest (str "BTC") (Some (436254, str "00ab"))]
           (str "a BTC#436254 00ab")
           (str "Zcash" ++ Blake2s.hexdigest (map byte_of_N (str "a BTC#436254 00ab")))
           ltac:(vm_compute; reflexivity)).
  intros c h hash [E|[]]. injection E as _ _ <-. reflexivity.
Defined.

(** ** More on the header builder *)

Lemma build_header_split env args tr :
  build_EquihashInputHeader env args tr
  = bind (pick_pszTimestamp env args) (finish_header args) tr.
Proof. reflexivity. Qed.

Lemma build_scriptPubKey_pure pk tr :
  build_scriptPubKey pk tr = (tr, snd (build_scriptPubKey pk [])).
Proof.
  unfold build_scriptPubKey, bind, lift, ret, raise.
  destruct (coerce_bytes pk); reflexivity.
Qed.

(** From the resolved payload on, the builder only logs: one line, or two
    when it returns, and the same ones whatever happened before. *)
Lemma finish_header_pure args p tr :
  finish_header args p tr
  = (tr ++ fst (finish_header args p []), snd (finish_header args p []))
  /\ Forall (fun e => exists m, e = Verb m) (fst (finish_header args p []))
  /\ In (Verb (str "pszTimestamp: " ++ p)) (fst (finish_header args p [])).
Proof.
  unfold finish_header, verb, emit. rewrite !bind_unfold.
  rewrite (build_scriptSig_pure _ _ (tr ++ _)), (build_scriptSig_pure _ _ ([] ++ _)).
  destruct (snd (build_scriptSig (pick_extranonce args) p [])) as [sig|e];
    [|split; [reflexivity|split; [repeat constructor; eauto|now left]]].
  rewrite !bind_unfold.
  rewrite (build_scriptPubKey_pure _ (tr ++ _)), (build_scriptPubKey_pure _ ([] ++ _)).
  destruct (snd (build_scriptPubKey (pubkey args) [])) as [pk|e];
    [|split; [reflexivity|split; [repeat constructor; eauto|now left]]].
  rewrite !bind_unfold. unfold lift.
  destruct (GetTxid sig (value args) pk) as [txid|];
    [|split; [reflexivity|split; [repeat constructor; eauto|now left]]].
  unfold ret. rewrite !bind_unfold. simpl. rewrite <- app_assoc.
  split; [reflexivity|split; [repeat constructor; eauto|now left]].
Qed.

Lemma finish_header_fields args p tr tr' h :
  finish_header args p tr = (tr', Ok h) ->
  nTime h = time args /\ nBits h = bits args /\ nNonce h = nonce args
  /\ List.length (hashMerkleRoot h) = 32%nat
  /\ - 2 ^ 63 <= value args < 2 ^ 63.
Proof.
  unfold finish_header. intros H.
  apply bind_inv in H as (? & ? & _ & H).
  apply bind_inv in H as (? & sig & _ & H).
  apply bind_inv in H as (? & pk & _ & H).
  apply bind_inv in H as (? & txid & Htx & H).
  apply bind_inv in H as (? & ? & _ & H).
  injection H as _ <-. simpl.
  unfold lift in Htx.
  destruct (GetTxid sig (value args) pk) as [t|] eqn:E; [|discriminate Htx].
  injection Htx as _ <-.
  unfold GetTxid, serialize_tx in E.
  destruct (pack_q (value args)) as [v|] eqn:Ev; [|discriminate E].
  injection E as <-. repeat split; try apply Hash_length.
  - unfold pack_q in Ev.
    destruct ((- 2 ^ 63 <=? value args) && (value args <? 2 ^ 63)) eqn:Er;
      [|discriminate Ev].
    apply andb_true_iff in Er as [Er _]. now apply Z.leb_le.
  - unfold pack_q in Ev.
    destruct ((- 2 ^ 63 <=? value args) && (value args <? 2 ^ 63)) eqn:Er;
      [|discriminate Ev].
    apply andb_true_iff in Er as [_ Er]. now apply Z.ltb_lt.
Qed.

(** X9. The header that [build_EquihashInputHeader] returns carries the
    time, the bits (also when the extranonce is overridden) and the nonce of
    the arguments unchanged, and a merkle root of exactly 32 bytes; there is
    a header only when the output value fits a signed 64-bit integer. *)
Theorem header_fields env args tr tr' h :
  build_EquihashInputHeader env args tr = (tr', Ok h) ->
  nTime h = time args /\ nBits h = bits args /\ nNonce h = nonce args
  /\ List.length (hashMerkleRoot h) = 32%nat
  /\ - 2 ^ 63 <= value args < 2 ^ 63.
Proof.
  rewrite build_header_split. intros H.
  apply bind_inv in H as (tr1 & p & _ & H).
  now apply (finish_header_fields args p tr1 tr').
Qed.

Lemma header_fields_witness :
  exists h,
    outcome (build_EquihashInputHeader (example_env None (Raise Interrupted))
               (example_args default_timestamp None (Some 7))) = Ok h
    /\ nBits h = 0x1f07ffff
    /\ List.length (hashMerkleRoot h) = 32%nat.
Proof.
  eexists. split; [vm_compute; reflexivity|].
  refine ((fun H => conj (proj1 (proj2 H)) (proj1 (proj2 (proj2 (proj2 H)))))
            (header_fields (example_env None (Raise Interrupted))
               (example_args default_timestamp None (Some 7)) [] _ _ _)).
  vm_compute. reflexivity.
Defined.

(** X10. With a non-empty [-Z] override the header builder asks no block
    explorer and ignores the coin name and the template: for every
    environment, coin name, template and earlier trace it logs the same one
    or two lines and ends the same way. *)
Theorem header_of_override env args c p :
  pszTimestamp args = Some (c :: p) ->
  exists evs r,
    Forall (fun e => exists m, e = Verb m) evs
    /\ build_EquihashInputHeader env args [] = (evs, r)
    /\ forall env2 coinName template tr,
        build_EquihashInputHeader env2 (set_template coinName template args) tr
        = (tr ++ evs, r).
Proof.
  intros H.
  exists (fst (finish_header args (c :: p) [])), (snd (finish_header args (c :: p) [])).
  split; [apply (finish_header_pure args (c :: p) [])|]. split.
  - rewrite build_header_split, bind_unfold, (pick_pszTimestamp_given env args c p [] H).
    now destruct (finish_header args (c :: p) []).
  - intros env2 coinName template tr.
    rewrite build_header_split, bind_unfold.
    rewrite (pick_pszTimestamp_given env2 (set_template coinName template args) c p tr H).
    change (finish_header (set_template coinName template args) (c :: p))
      with (finish_header args (c :: p)).
    apply (finish_header_pure args (c :: p) tr).
Qed.

Lemma header_of_override_witness :
  exists evs r,
    Forall (fun e => exists m, e = Verb m) evs
    /\ build_EquihashInputHeader (example_env None (Raise Interrupted))
         (example_args (str "{BTC}") (Some (str "x")) None) [] = (evs, r)
    /\ forall env2 coinName template tr,
        build_EquihashInputHeader env2
          (set_template coinName template
             (example_args (str "{BTC}") (Some (str "x")) None)) tr
        = (tr ++ evs, r).
Proof.
  exact (header_of_override (example_env None (Raise Interrupted))
           (example_args (str "{BTC}") (Some (str "x")) None) _ _ eq_refl).
Defined.

Lemma build_pszTimestamp_nonempty env coinName template tr tr' payload :
  build_pszTimestamp env coinName template tr = (tr', Ok payload) ->
  exists c p, payload = c :: p.
Proof.
  rewrite build_pszTimestamp_run.
  destruct (substitute env (findall template) template tr) as [tr1 [t'|e]];
    [|discriminate].
  destruct (encode_utf8 t') as [data|]; [|discriminate].
  intros H. injection H as _ <-.
  destruct (blake2s_hexdigest_shape data) as [Hlen _].
  destruct (Blake2s.hexdigest data) as [|d ds]; [discriminate Hlen|].
  destruct coinName as [|c cs]; [now exists d, ds|].
  now exists c, (cs ++ d :: ds).
Qed.

(** X11. The payload that a run of the header builder logs reproduces its
    header: given as [-Z] override, in any environment and with any coin
    name and template, it yields the same header without a call to the
    block explorer. *)
Theorem header_reproducible env args tr evs h :
  build_EquihashInputHeader env args tr = (tr ++ evs, Ok h) ->
  exists payload,
    In (Verb (str "pszTimestamp: " ++ payload)) evs
    /\ forall env2 coinName template tr2,
        exists evs2,
          build_EquihashInputHeader env2
            (set_template coinName template (set_pszTimestamp (Some payload) args)) tr2
          = (tr2 ++ evs2, Ok h)
          /\ asked evs2 = [].
Proof.
  rewrite build_header_split. intros H.
  apply bind_inv in H as (tr1 & payload & Hpick & Hfin).
  exists payload.
  destruct (emits_only_shape setup_event (pick_pszTimestamp env args) tr)
    as (evs1 & r1 & E1 & _).
  { unfold pick_pszTimestamp. destruct (pszTimestamp args) as [[|c p]|];
      first [apply emits_only_ret | apply build_pszTimestamp_emits]. }
  rewrite Hpick in E1. injection E1 as -> _.
  destruct (finish_header_pure args payload (tr ++ evs1)) as (Epure & Fverb & Hlog).
  rewrite Epure in Hfin. injection Hfin as Hevs Hres.
  rewrite <- app_assoc in Hevs. apply app_inv_head in Hevs. subst evs.
  assert (Hne : exists c p, payload = c :: p).
  { unfold pick_pszTimestamp in Hpick.
    destruct (pszTimestamp args) as [[|c p]|].
    - now apply build_pszTimestamp_nonempty in Hpick.
    - injection Hpick as _ <-. now exists c, p.
    - now apply build_pszTimestamp_nonempty in Hpick. }
  destruct Hne as (c & p & ->).
  split.
  - apply in_or_app. right. exact Hlog.
  - intros env2 coinName template tr2.
    exists (fst (finish_header args (c :: p) [])).
    rewrite build_header_split, bind_unfold.
    rewrite (pick_pszTimestamp_given env2
               (set_template coinName template (set_pszTimestamp (Some (c :: p)) args))
               c p tr2 eq_refl).
    change (finish_header (set_template coinName template
                             (set_pszTimestamp (Some (c :: p)) args)) (c :: p))
      with (finish_header args (c :: p)).
    rewrite (proj1 (finish_header_pure args (c :: p) tr2)), Hres.
    split; [reflexivity|].
    clear - Fverb. induction Fverb as [|e l (m & ->) F IH]; [reflexivity|exact IH].
Qed.

Lemma header_reproducible_witness :
  exists h payload,
    outcome (build_EquihashInputHeader
               (example_env (Some (7, str "00ab")) (Raise Interrupted))
               (example_args (str "{BTC}") None None)) = Ok h
    /\ In (Verb (str "pszTimestamp: " ++ payload))
         (events (build_EquihashInputHeader
                    (example_env (Some (7, str "00ab")) (Raise Interrupted))
                    (example_args (str "{BTC}") None None)))
    /\ forall env2 coinName template tr2,
        exists evs2,
          build_EquihashInputHeader env2
            (set_template coinName template
               (set_pszTimestamp (Some payload) (example_args (str "{BTC}") None None))) tr2
          = (tr2 ++ evs2, Ok h)
          /\ asked evs2 = [].
Proof.
  assert (Hok : match outcome (build_EquihashInputHeader
                                 (example_env (Some (7, str "00ab")) (Raise Interrupted))
                                 (example_args (str "{BTC}") None None))
                with Ok _ => true | Raise _ => false end = true)
    by (vm_compute; reflexivity).
  unfold outcome, events in *.
  destruct (build_EquihashInputHeader
              (example_env (Some (7, str "00ab")) (Raise Interrupted))
              (example_args (str "{BTC}") None None) []) as [evs [h|e]] eqn:E;
    [|discriminate Hok].
  destruct (header_reproducible _ _ [] evs h E) as (payload & Hin & Hre).
  exists h, payload. split; [reflexivity|]. split; [exact Hin|exact Hre].
Defined.

(** ** More on the option parser *)

Lemma returns_with_ret {A} P (a : A) : returns_with P (ret a).
Proof.
  intros tr tr' a' H. injection H as <- _. exists []. now rewrite app_nil_r.
Qed.

Lemma returns_with_lift {A} P e (o : option A) : returns_with P (lift e o).
Proof. destruct o; [apply returns_with_ret|]. intros tr tr' a H. discriminate H. Qed.

Lemma returns_with_bind {A B} P (m : M A) (k : A -> M B) :
  returns_with P m -> (forall a, returns_with P (k a)) ->
  returns_with P (bind m k).
Proof.
  intros Hm Hk tr tr' b H. apply bind_inv in H as (tr1 & a & E1 & E2).
  destruct (Hm _ _ _ E1) as (e1 & -> & F1).
  destruct (Hk a _ _ _ E2) as (e2 & -> & F2).
  exists (e1 ++ e2). rewrite app_assoc. split; [reflexivity|].
  apply Forall_app. now split.
Qed.

Lemma lbytes32_warns s : returns_with warning (lbytes32 s).
Proof.
  unfold lbytes32. destruct (32 <? List.length s)%nat; [|apply returns_with_lift].
  apply returns_with_bind; [|intros _; apply returns_with_lift].
  intros tr tr' a H. injection H as <- _. eexists [_]. split; [reflexivity|].
  repeat constructor. now eexists.
Qed.

(** What an option gives when the parser goes on: without an option the
    default, else what the converter returned, which is among the choices. *)
Lemma option_arg_inv {A} given (d : A) type allowed tr tr' v :
  option_arg given d type allowed tr = (tr', Ok v) ->
  match given with
  | None => tr' = tr /\ v = d
  | Some s => type s tr = (tr', Ok v) /\ allowed v = true
  end.
Proof.
  destruct given as [s|]; simpl.
  - rewrite bind_unfold. unfold try_except.
    destruct (type s tr) as [tr1 [a|e]].
    + destruct (allowed a) eqn:Ea; [|discriminate].
      intros H. injection H as <- <-. now split.
    + destruct e; discriminate.
  - intros H. injection H as <- <-. now split.
Qed.

Lemma option_arg_warns {A} given (d : A) type allowed :
  (forall s, returns_with warning (type s)) ->
  returns_with warning (option_arg given d type allowed).
Proof.
  intros Hty tr tr' v H. apply option_arg_inv in H.
  destruct given as [s|].
  - destruct H as [H _]. exact (Hty s _ _ _ H).
  - destruct H as [-> _]. exists []. now rewrite app_nil_r.
Qed.

Lemma smartint_warns env s : returns_with warning (smartint env s).
Proof. unfold smartint. destruct (startswith _ _); apply returns_with_lift. Qed.

(** When the parser returns, all it has reported are warnings. *)
Lemma parser_warns env cl : returns_with warning (parser_parse_args env cl).
Proof.
  unfold parser_parse_args.
  repeat (apply returns_with_bind;
          [apply option_arg_warns; intros s;
           first [ apply returns_with_ret | apply returns_with_lift
                 | apply smartint_warns | apply lbytes32_warns
                 | apply returns_with_bind;
                   [apply smartint_warns | intros; apply returns_with_ret] ]
          | intros ?]).
  apply returns_with_ret.
Qed.

(** The converters decide on the text alone. *)
Lemma lift_stable {A} e (o : option A) tr :
  exists tr', lift e o tr = (tr', outcome (lift e o)).
Proof. exists tr. unfold outcome, lift. now destruct o. Qed.

Lemma smartint_stable env s tr :
  exists tr', smartint env s tr = (tr', outcome (smartint env s)).
Proof. unfold smartint. destruct (startswith _ _); apply lift_stable. Qed.

Lemma lbytes32_stable s tr :
  exists tr', lbytes32 s tr = (tr', outcome (lbytes32 s)).
Proof.
  unfold outcome, lbytes32.
  destruct (32 <? List.length s)%nat; [|apply lift_stable].
  unfold warn, emit, lift. rewrite !bind_unfold.
  eexists. destruct (lx (firstn 64 s)); reflexivity.
Qed.

Lemma extranonce_stable env s tr :
  exists tr',
    (v <- smartint env s ;; ret (Some v)) tr
    = (tr', outcome (v <- smartint env s ;; ret (Some v))).
Proof.
  unfold outcome, smartint. rewrite !bind_unfold. unfold lift.
  exists tr. destruct (startswith _ _).
  - now destruct (py_int env s 16).
  - now destruct (py_int env s 10).
Qed.

Lemma option_arg_rejected {A} given (d : A) type allowed tr :
  (forall s tr, exists tr', type s tr = (tr', outcome (type s))) ->
  (forall s, raises_only (eq ValueError) (type s)) ->
  rejected given type allowed = true ->
  exists before,
    option_arg given d type allowed tr
    = (before ++ [ParserError], Raise (SystemExit 2)).
Proof.
  intros Hst Hv R. destruct given as [s|]; [|discriminate R]. simpl in R |- *.
  destruct (Hst s tr) as (tr' & E).
  rewrite bind_unfold. unfold try_except. rewrite E.
  destruct (outcome (type s)) as [v|e] eqn:Eo.
  - destruct (allowed v); [discriminate R|]. now exists tr'.
  - rewrite <- (Hv s _ _ _ E). now exists tr'.
Qed.

Lemma option_arg_accepted {A} given (d : A) type allowed tr :
  (forall s tr, exists tr', type s tr = (tr', outcome (type s))) ->
  rejected given type allowed = false ->
  exists tr' v, option_arg given d type allowed tr = (tr', Ok v).
Proof.
  intros Hst R. destruct given as [s|]; [|now exists tr, d]. simpl in R |- *.
  destruct (Hst s tr) as (tr' & E).
  rewrite bind_unfold. unfold try_except. rewrite E.
  destruct (outcome (type s)) as [v|e] eqn:Eo; [|discriminate R].
  destruct (allowed v); [|discriminate R]. now exists tr', v.
Qed.

Ltac converter_stable :=
  intros ? ?;
  first [ eexists; reflexivity | apply lift_stable | apply smartint_stable
        | apply lbytes32_stable | apply extranonce_stable ].

Ltac converter_raises :=
  intros ?;
  first [ apply raises_only_ret | now apply raises_only_lift
        | apply smartint_raises | apply lbytes32_raises
        | apply raises_only_bind;
          [apply smartint_raises | intros; apply raises_only_ret] ].

Ltac option_step :=
  match goal with
  | |- context [bind (option_arg ?g ?d ?t ?al) ?k ?tr0] =>
      let R := fresh "R" in
      let E := fresh "E" in
      let before := fresh "before" in
      let tr1 := fresh "tr" in
      let v := fresh "v" in
      match goal with
      | |- context [rejected g ?t' ?al'] => destruct (rejected g t' al') eqn:R
      end;
      cbn [orb];
      [ assert (E : exists before,
                   option_arg g d t al tr0
                   = (before ++ [ParserError], Raise (SystemExit 2)))
          by (apply option_arg_rejected;
              [converter_stable | converter_raises | exact R]);
        destruct E as (before & E);
        exists before; rewrite (bind_raise _ _ _ _ _ E); reflexivity
      | assert (E : exists tr' v, option_arg g d t al tr0 = (tr', Ok v))
          by (apply option_arg_accepted; [converter_stable | exact R]);
        destruct E as (tr1 & v & E);
        rewrite (bind_ok _ _ _ _ _ E); clear E; cbv beta ]
  end.

(** The parser stops with the usage error at the first rejected option
    and returns when there is none. *)
Lemma parser_run env cl tr :
  if bad_option env cl
  then exists before,
      parser_parse_args env cl tr = (before ++ [ParserError], Raise (SystemExit 2))
  else exists tr' a, parser_parse_args env cl tr = (tr', Ok a).
Proof.
  unfold bad_option, parser_parse_args.
  do 14 option_step.
  eexists. eexists. reflexivity.
Qed.

Lemma unhexlify_length n : forall s b,
  (List.length s <= n)%nat -> unhexlify s = Some b ->
  List.length s = (2 * List.length b)%nat.
Proof.
  induction n as [|n IH]; intros s b Hn H.
  - destruct s; [|simpl in Hn; lia]. injection H as <-. reflexivity.
  - destruct s as [|h [|l s]]; [injection H as <-; reflexivity|discriminate H|].
    change (unhexlify (h :: l :: s))
      with (match hexval h, hexval l, unhexlify s with
            | Some a, Some c, Some r => Some (byte_of_N (16 * a + c) :: r)
            | _, _, _ => None
            end) in H.
    destruct (hexval h); [|discriminate H].
    destruct (hexval l); [|discriminate H].
    destruct (unhexlify s) as [r|] eqn:E; [|discriminate H].
    injection H as <-. cbn [List.length] in *.
    rewrite (IH s r); [lia|lia|exact E].
Qed.

(** The nonce parser never gives more than 32 bytes. *)
Lemma lbytes32_length s tr tr' b :
  lbytes32 s tr = (tr', Ok b) -> (List.length b <= 32)%nat.
Proof.
  unfold lbytes32. intros H.
  assert (Hlx : forall t, (List.length t <= 64)%nat -> lx t = Some b ->
                          (List.length b <= 32)%nat).
  { intros t Ht E. unfold lx in E.
    destruct (unhexlify t) as [r|] eqn:Er; [|discriminate E].
    injection E as <-. rewrite length_rev.
    pose proof (unhexlify_length _ t r (le_n _) Er). lia. }
  destruct (Nat.ltb_spec 32 (List.length s)) as [Hlt|Hle].
  - apply bind_inv in H as (tr1 & [] & _ & H). unfold lift in H.
    destruct (lx (firstn 64 s)) as [b'|] eqn:E; [|discriminate H].
    injection H as _ <-. apply (Hlx _ (firstn_le_length 64 s) E).
  - unfold lift in H.
    destruct (lx (repeat 48%N (64 - List.length s) ++ s)) as [b'|] eqn:E;
      [|discriminate H].
    injection H as _ <-. apply (Hlx (repeat 48%N (64 - List.length s) ++ s)); [|exact E].
    rewrite length_app, repeat_length. unfold char in *. lia.
Qed.

Lemma str_eqb_true a b : str_eqb a b = true -> a = b.
Proof. unfold str_eqb. now destruct (list_eq_dec N.eq_dec a b). Qed.

(** The fields of what the parser returns that are copied from the
    command line, and the bound on the nonce. *)
Lemma parser_fields env cl tr tr1 a :
  parser_parse_args env cl tr = (tr1, Ok a) ->
  coinname a = given_or (opt_coinname cl) (str "Zcash")
  /\ timestamp a = given_or (opt_timestamp cl) default_timestamp
  /\ pszTimestamp a = opt_pszTimestamp cl
  /\ verbose a = opt_verbose cl
  /\ (List.length (nonce a) <= 32)%nat.
Proof.
  unfold parser_parse_args. intros H.
  do 2 (apply bind_inv in H as (? & ? & _ & H)).
  apply bind_inv in H as (? & cn & Hcn & H).
  apply bind_inv in H as (? & ts & Hts & H).
  apply bind_inv in H as (? & psz & Hpsz & H).
  do 4 (apply bind_inv in H as (? & ? & _ & H)).
  apply bind_inv in H as (? & nn & Hn & H).
  do 4 (apply bind_inv in H as (? & ? & _ & H)).
  injection H as _ <-. cbn [coinname timestamp pszTimestamp verbose nonce].
  apply option_arg_inv in Hcn, Hts, Hpsz, Hn.
  repeat split.
  - destruct (opt_coinname cl); [|apply Hcn].
    destruct Hcn as [Hcn _]. now injection Hcn.
  - destruct (opt_timestamp cl); [|apply Hts].
    destruct Hts as [Hts _]. now injection Hts.
  - destruct (opt_pszTimestamp cl); [|apply Hpsz].
    destruct Hpsz as [Hpsz _]. now injection Hpsz.
  - destruct (opt_nonce cl).
    + destruct Hn as [Hn _]. now apply lbytes32_length in Hn.
    + destruct Hn as [_ ->]. now rewrite repeat_length.
Qed.

(** X12. A command line with a rejected option (a text its converter
    refuses, or a network or solver type outside the choices) makes
    [parse_args] report the usage error and exit with status 2: the error
    is the last event, no verbosity was set and no network selected, and
    [main] does nothing more. *)
Theorem parse_args_rejects env cl :
  bad_option env cl = true ->
  outcome (parse_args env cl) = Raise (SystemExit 2)
  /\ Forall parser_event (events (parse_args env cl))
  /\ (exists before, events (parse_args env cl) = before ++ [ParserError])
  /\ events (main env cl) = events (parse_args env cl)
  /\ outcome (main env cl) = Raise (SystemExit 2).
Proof.
  intros Hbad. pose proof (parser_run env cl []) as H.
  rewrite Hbad in H. destruct H as (before & E).
  assert (Ep : parse_args env cl [] = (before ++ [ParserError], Raise (SystemExit 2))).
  { unfold parse_args. now rewrite (bind_raise _ _ _ _ _ E). }
  unfold outcome, events. rewrite main_run, Ep. simpl.
  repeat split; try reflexivity; [|now exists before].
  apply (emits_only_run parser_event (parser_parse_args env cl) [] _ _
           (parser_emits env cl) E).
Qed.

Lemma parse_args_rejects_witness :
  outcome (parse_args (example_env None (Raise Interrupted)) (with_nonce (str "xyz")))
  = Raise (SystemExit 2)
  /\ events (main (example_env None (Raise Interrupted)) (with_nonce (str "xyz")))
     = [ParserError].
Proof.
  destruct (parse_args_rejects (example_env None (Raise Interrupted))
              (with_nonce (str "xyz")) eq_refl) as (Hout & _ & _ & Hev & _).
  split; [exact Hout|]. rewrite Hev. vm_compute. reflexivity.
Defined.

(** X13. A command line without a rejected option, other than silentarmy
    on regtest, makes [parse_args] return: before that it reports warnings
    at most, then sets the verbosity, selects the network and logs the six
    settings.  The namespace has the texts of the command line or the
    defaults, and a nonce of at most 32 bytes. *)
Theorem parse_args_accepts env cl :
  bad_option env cl = false ->
  ~ (opt_solver_type cl = Some (str "silentarmy")
     /\ opt_chain cl = Some (str "regtest")) ->
  exists warnings args,
    parse_args env cl []
    = (warnings ++ [SetVerbose (opt_verbose cl); CoreParams (chain args);
                    Verb (str "Chain: " ++ chain args);
                    Verb (str "Time: " ++ format_d (time args));
                    Verb (str "Start Nonce: " ++ b2lx (nonce args));
                    Verb (str "Pubkey: " ++ b2x (pubkey args));
                    Verb (str "Solver: " ++ py_format_list env (solver_cmd args));
                    Verb (str "Solver type: " ++ solver_type args)],
       Ok args)
    /\ Forall warning warnings
    /\ chain args = given_or (opt_chain cl) (str "mainnet")
    /\ solver_type args = given_or (opt_solver_type cl) (str "tromp")
    /\ coinname args = given_or (opt_coinname cl) (str "Zcash")
    /\ timestamp args = given_or (opt_timestamp cl) default_timestamp
    /\ pszTimestamp args = opt_pszTimestamp cl
    /\ (List.length (nonce args) <= 32)%nat.
Proof.
  intros Hbad Hnot. pose proof (parser_run env cl []) as H.
  rewrite Hbad in H. destruct H as (tr' & a & E).
  destruct (parser_warns env cl _ _ _ E) as (warnings & -> & F).
  destruct (parser_returns env cl _ _ _ E) as (Hc & _ & Hs & _).
  destruct (parser_fields env cl _ _ _ E) as (Hcn & Hts & Hpsz & Hv & Hn).
  exists warnings, a. rewrite (parse_args_run env cl _ _ _ E).
  destruct (str_eqb (solver_type a) (str "silentarmy")
            && str_eqb (chain a) (str "regtest")) eqn:Esr.
  - exfalso. apply andb_true_iff in Esr as [Es Ec].
    apply str_eqb_true in Es, Ec. apply Hnot.
    rewrite Es in Hs. rewrite Ec in Hc. split.
    + destruct (opt_solver_type cl); [now rewrite Hs|discriminate Hs].
    + destruct (opt_chain cl); [now rewrite Hc|discriminate Hc].
  - rewrite Hv. simpl app. repeat split; trivial.
Qed.

Lemma parse_args_accepts_witness :
  exists warnings args,
    outcome (parse_args (example_env None (Raise Interrupted))
               (with_nonce (repeat 49%N 40))) = Ok args
    /\ Forall warning warnings
    /\ List.length warnings = 1%nat
    /\ (List.length (nonce args) <= 32)%nat.
Proof.
  destruct (parse_args_accepts (example_env None (Raise Interrupted))
              (with_nonce (repeat 49%N 40)))
    as (warnings & args & E & F & _ & _ & _ & _ & _ & Hn).
  - vm_compute. reflexivity.
  - intros [H _]. discriminate H.
  - exists warnings, args. unfold outcome. rewrite E.
    repeat split; trivial.
    assert (L : List.length (events (parse_args (example_env None (Raise Interrupted))
                                       (with_nonce (repeat 49%N 40)))) = 9%nat)
      by (vm_compute; reflexivity).
    unfold events in L. rewrite E in L. cbn [fst] in L.
    rewrite length_app in L. cbn [List.length] in L. lia.
Defined.

(** ** More on the driver *)

Lemma parse_args_lookups env cl :
  emits_only (fun e => ~ failed_lookup e) (parse_args env cl).
Proof.
  intros tr.
  destruct (emits_only_shape parser_event (parser_parse_args env cl) tr
              (parser_emits env cl)) as (evs & r & E & F).
  assert (F' : Forall (fun e => ~ failed_lookup e) evs).
  { revert F. apply Forall_impl. intros e. now destruct e. }
  destruct r as [a|e].
  - rewrite (parse_args_run env cl tr _ a E).
    destruct (str_eqb (solver_type a) (str "silentarmy")
              && str_eqb (chain a) (str "regtest")); simpl;
      rewrite <- app_assoc; eexists; (split; [reflexivity|]);
      apply Forall_app; (split; [exact F'|]);
      repeat (apply Forall_cons; [exact (fun f => f)|]); apply Forall_nil.
  - unfold parse_args. rewrite (bind_raise _ _ _ _ _ E). now exists evs.
Qed.

Lemma finish_header_raises args p :
  raises_only (fun e => e = ValueError \/ e = StructError) (finish_header args p).
Proof.
  unfold finish_header.
  apply raises_only_bind; [apply raises_only_emit|intros _].
  apply raises_only_bind.
  { unfold build_scriptSig.
    repeat (apply raises_only_bind; [apply raises_only_lift; now left|intros ?]).
    apply raises_only_ret. }
  intros sig. apply raises_only_bind.
  { unfold build_scriptPubKey.
    apply raises_only_bind; [apply raises_only_lift; now left|intros ?].
    apply raises_only_ret. }
  intros pk. apply raises_only_bind; [apply raises_only_lift; now right|intros txid].
  apply raises_only_bind; [apply raises_only_emit|intros _].
  apply raises_only_ret.
Qed.

(** A run of the timestamp builder has no failed call to the block
    explorer, or it ends with that call and its exception. *)
Lemma build_pszTimestamp_lookups env coinName template tr :
  exists evs r,
    build_pszTimestamp env coinName template tr = (tr ++ evs, r)
    /\ ((r <> Raise LookupFailure /\ Forall (fun e => ~ failed_lookup e) evs)
        \/ (r = Raise LookupFailure
            /\ exists before c,
                evs = before ++ [GetLatest c None] /\ Forall answered before)).
Proof.
  rewrite build_pszTimestamp_run.
  destruct (substitute_shape env (findall template) template tr)
    as (lookups & r0 & E & H).
  rewrite E. destruct r0 as [t'|e].
  - destruct H as [F _].
    eexists (lookups ++ [Verb _]), _. rewrite app_assoc.
    split; [reflexivity|]. left. split.
    + destruct (encode_utf8 t'); discriminate.
    + apply Forall_app. split.
      * revert F. apply Forall_impl. intros e (c & a & ->). exact (fun f => f).
      * repeat (apply Forall_cons; [exact (fun f => f)|]). apply Forall_nil.
  - destruct H as (-> & before & c & rest & -> & F & _).
    exists (before ++ [GetLatest c None]), (Raise LookupFailure).
    split; [reflexivity|]. right. split; [reflexivity|]. now exists before, c.
Qed.

Lemma build_header_lookups env args tr :
  exists evs r,
    build_EquihashInputHeader env args tr = (tr ++ evs, r)
    /\ ((r <> Raise LookupFailure /\ Forall (fun e => ~ failed_lookup e) evs)
        \/ (r = Raise LookupFailure
            /\ exists before c,
                evs = before ++ [GetLatest c None] /\ Forall answered before)).
Proof.
  rewrite build_header_split, bind_unfold.
  assert (Hpick : exists evs r,
             pick_pszTimestamp env args tr = (tr ++ evs, r)
             /\ ((r <> Raise LookupFailure /\ Forall (fun e => ~ failed_lookup e) evs)
                 \/ (r = Raise LookupFailure
                     /\ exists before c,
                         evs = before ++ [GetLatest c None]
                         /\ Forall answered before))).
  { unfold pick_pszTimestamp.
    destruct (pszTimestamp args) as [[|c p]|]; try apply build_pszTimestamp_lookups.
    exists [], (Ok (c :: p)). rewrite app_nil_r. split; [reflexivity|].
    left. split; [discriminate|constructor]. }
  destruct Hpick as (evs1 & r1 & E1 & H1). rewrite E1.
  destruct r1 as [p|e].
  - destruct H1 as [[_ F1]|[H1 _]]; [|discriminate H1].
    destruct (finish_header_pure args p (tr ++ evs1)) as (Ef & Fv & _).
    rewrite Ef.
    exists (evs1 ++ fst (finish_header args p [])), (snd (finish_header args p [])).
    rewrite app_assoc. split; [reflexivity|]. left. split.
    + intros Hr. destruct (finish_header args p []) as [t r] eqn:Efin.
      simpl in Hr. subst r.
      destruct (finish_header_raises args p _ _ _ Efin) as [H|H]; discriminate H.
    + apply Forall_app. split; [exact F1|].
      revert Fv. apply Forall_impl. intros e (m & ->). exact (fun f => f).
  - exists evs1, (Raise e). split; [reflexivity|].
    destruct H1 as [[Hne F1]|[He H1]].
    + left. split; [|exact F1]. intros H. apply Hne. now injection H as ->.
    + right. split; [|exact H1]. now injection He as ->.
Qed.

(** X14. A call to the block explorer that raises ends [main] on the
    spot: the failed call is the last event, the exception of the lookup
    leaves [main], and no solver object was made, no event loop obtained and
    nothing run. *)
Theorem main_failed_lookup env cl c :
  In (GetLatest c None) (events (main env cl)) ->
  outcome (main env cl) = Raise LookupFailure
  /\ Forall setup_event (events (main env cl))
  /\ exists before, events (main env cl) = before ++ [GetLatest c None].
Proof.
  unfold events, outcome. rewrite main_run.
  destruct (emits_only_shape _ (parse_args env cl) [] (parse_args_lookups env cl))
    as (evs1 & r1 & E1 & F1).
  pose proof (emits_only_run setup_event _ [] _ _ (parse_args_emits env cl) E1) as S1.
  rewrite E1. rewrite Forall_forall in F1.
  destruct r1 as [args|e1]; cbn [fst snd].
  2:{ intros Hin. exfalso. exact (F1 _ Hin I). }
  destruct (build_header_lookups env args ([] ++ evs1)) as (evs2 & r2 & E2 & H2).
  pose proof (emits_only_run setup_event _ _ _ _ (build_header_emits env args) E2) as S2.
  rewrite E2. destruct r2 as [eh|e2].
  - destruct H2 as [[_ F2]|[H2 _]]; [|discriminate H2].
    rewrite Forall_forall in F2.
    destruct (select_solver_run args eh (([] ++ evs1) ++ evs2)
                (parse_args_returns env cl _ _ _ E1)) as (s & Es & _).
    rewrite Es, solve_run. intros Hin. exfalso.
    destruct (run env _ s) as [r|[]]; cbn [fst] in Hin;
      repeat (apply in_app_or in Hin; destruct Hin as [Hin|Hin]);
      first [ exact (F1 _ Hin I) | exact (F2 _ Hin I)
            | simpl in Hin;
              repeat (destruct Hin as [Hin|Hin]; [discriminate Hin|]);
              contradiction ].
  - cbn [fst snd]. intros Hin.
    destruct H2 as [[_ F2]|(H2 & before & c0 & -> & Fb)].
    + exfalso. rewrite Forall_forall in F2.
      repeat (apply in_app_or in Hin; destruct Hin as [Hin|Hin]);
        first [ exact (F1 _ Hin I) | exact (F2 _ Hin I) | contradiction ].
    + injection H2 as ->.
      assert (Hc : c0 = c).
      { rewrite Forall_forall in Fb.
        repeat (apply in_app_or in Hin; destruct Hin as [Hin|Hin]).
        - contradiction.
        - exfalso. exact (F1 _ Hin I).
        - exfalso. destruct (Fb _ Hin) as (c' & a & Ha). discriminate Ha.
        - destruct Hin as [Hin|[]]. now injection Hin. }
      subst c0. split; [reflexivity|]. split.
      * apply Forall_app. split; [exact S1|exact S2].
      * exists (([] ++ evs1) ++ before). now rewrite app_assoc.
Qed.

Lemma main_failed_lookup_witness :
  outcome (main (example_env None (Raise Interrupted)) (with_template (str "{BTC}")))
  = Raise LookupFailure
  /\ Forall setup_event
       (events (main (example_env None (Raise Interrupted)) (with_template (str "{BTC}")))).
Proof.
  destruct (main_failed_lookup (example_env None (Raise Interrupted))
              (with_template (str "{BTC}")) (str "BTC")) as (Hout & Hset & _).
  - vm_compute. repeat (first [left; reflexivity | right]).
  - split; [exact Hout|exact Hset].
Defined.

(** X15. An exception of the solver other than [SolverException] is not
    caught: [main] closes the event loop right after the failed run, reports
    nothing, and the exception leaves [main]. *)
Theorem main_propagates env cl s e :
  In (RunSolver s (Raise e)) (events (main env cl)) ->
  (forall cause, e <> SolverException cause) ->
  outcome (main env cl) = Raise e
  /\ exists before,
      Forall setup_event before
      /\ events (main env cl)
         = before ++ [NewSolver s; NewLoop (win32 env);
                      RunSolver s (Raise e); CloseLoop].
Proof.
  intros Hin Hne. destruct (main_cases env cl) as [[F _]|(before & s0 & F & E)].
  - exfalso. rewrite Forall_forall in F. exact (F _ Hin).
  - unfold events, outcome in *. rewrite E, solve_run in *.
    destruct (run env _ s0) as [r|e0].
    + exfalso. cbn [fst] in Hin. apply in_try_tail in Hin; [|exact F|exact I].
      simpl in Hin. destruct Hin as [Hin|[Hin|[Hin|[]]]]; discriminate Hin.
    + destruct e0; cbn [fst snd] in *;
        (apply in_try_tail in Hin; [|exact F|exact I]);
        simpl in Hin;
        repeat (destruct Hin as [Hin|Hin]; [try discriminate Hin|]);
        try contradiction;
        injection Hin as <- <-;
        try (exfalso; eapply Hne; reflexivity);
        (split; [reflexivity|]); exists before;
        (split; [exact F|]); now rewrite <- app_assoc.
Qed.

Lemma main_propagates_witness :
  outcome (main (example_env None (Raise Interrupted)) no_options) = Raise Interrupted
  /\ exists s before,
      events (main (example_env None (Raise Interrupted)) no_options)
      = before ++ [NewSolver s; NewLoop false; RunSolver s (Raise Interrupted); CloseLoop].
Proof.
  assert (Hin : exists s, In (RunSolver s (Raise Interrupted))
                            (events (main (example_env None (Raise Interrupted)) no_options))).
  { eexists. vm_compute. repeat (first [left; reflexivity | right]). }
  destruct Hin as (s & Hin).
  destruct (main_propagates (example_env None (Raise Interrupted)) no_options s
              Interrupted Hin) as (Hout & before & _ & Hev).
  - intros cause. discriminate.
  - split; [exact Hout|]. now exists s, before.
Defined.

(** X16. Once the arguments are parsed and the header is built, [main]
    makes one solver object, of the chosen type, from the solver command,
    the rounds, the nonce and the threads of the arguments and from that
    header, obtains the event loop, runs that solver once, reports at most
    one message and closes the loop. *)
Theorem main_runs_built_solver env cl tr1 args tr2 eh :
  parse_args env cl [] = (tr1, Ok args) ->
  build_EquihashInputHeader env args tr1 = (tr2, Ok eh) ->
  exists report,
    events (main env cl)
    = tr2 ++ [NewSolver (solver_for args eh); NewLoop (win32 env);
              RunSolver (solver_for args eh)
                (run env (tr2 ++ [NewSolver (solver_for args eh);
                                  NewLoop (win32 env)])
                     (solver_for args eh))]
          ++ report ++ [CloseLoop]
    /\ (List.length report <= 1)%nat.
Proof.
  intros E1 E2. unfold events. rewrite main_run, E1, E2.
  destruct (select_solver_run args eh tr2 (parse_args_returns env cl _ _ _ E1))
    as (s & Es & Hs).
  fold (solver_for args eh) in Hs. subst s. rewrite Es, solve_run.
  replace ((tr2 ++ [NewSolver (solver_for args eh)]) ++ [NewLoop (win32 env)])
    with (tr2 ++ [NewSolver (solver_for args eh); NewLoop (win32 env)])
    by now rewrite <- app_assoc.
  destruct (run env _ (solver_for args eh)) as [r|[]]; cbn [fst];
    rewrite <- app_assoc;
    first [ eexists [_]; split; [reflexivity|simpl; lia]
          | exists []; split; [reflexivity|simpl; lia] ].
Qed.

Lemma main_runs_built_solver_witness :
  exists tr2 args eh report,
    events (main (example_env None (Raise (SolverException (str "no solution")))) no_options)
    = tr2 ++ [NewSolver (solver_for args eh); NewLoop false;
              RunSolver (solver_for args eh) (Raise (SolverException (str "no solution")))]
          ++ report ++ [CloseLoop]
    /\ (List.length report <= 1)%nat.
Proof.
  assert (H : exists tr1 args,
             parse_args (example_env None (Raise (SolverException (str "no solution"))))
               no_options [] = (tr1, Ok args)
             /\ exists tr2 eh,
                 build_EquihashInputHeader
                   (example_env None (Raise (SolverException (str "no solution"))))
                   args tr1 = (tr2, Ok eh)).
  { eexists. eexists. split; [vm_compute; reflexivity|].
    eexists. eexists. vm_compute. reflexivity. }
  destruct H as (tr1 & args & E1 & tr2 & eh & E2).
  destruct (main_runs_built_solver _ _ _ _ _ _ E1 E2) as (report & Hev & Hlen).
  exists tr2, args, eh, report. split; [exact Hev|exact Hlen].
Defined.
